(** * The store writer of the normalized cache (writeToStore.ts)

    A shallow embedding of [StoreWriter] (its [writeToStore],
    [processSelectionSet] and [processFieldValue] methods) and of
    [warnAboutDataLoss], followed by the properties of the write path.

    Conventions.
    - JavaScript values are the inductive [value]; numbers are the integers
      (the writer only compares, copies and converts them).  A result is
      data: objects, arrays and scalars, read at field names (a field name
      is a name, never an index into a string).  What a value inherits from
      its prototype is a built-in, [VNative]; the model does not look into a
      built-in: a read of one finds nothing.
    - Object identity of AST nodes is a label carried by the node: [nid] for
      a selection, [ssid] for a selection set.  [===] and [indexOf] on nodes
      compare labels.
    - A JavaScript object is an association list in insertion order.
    - The mutable things the writer touches (the store, [context.written],
      the shared [out] object, the module-level [warnings] set, the callbacks
      handed to the job queue) are the fields of [State], threaded through an
      exception monad. *)

From Stdlib Require Import ZArith List String Bool Lia.
From stdpp Require Import gmap strings list fin_maps pretty.
Import ListNotations.
Set Warnings "-register-all".
Local Open Scope string_scope.
Local Open Scope Z_scope.
Local Open Scope list_scope.

(** ** GraphQL documents *)

Inductive SelectionNode : Type :=
| Field (nid : nat) (alias : option string) (name : string)
        (directives : list string) (selectionSet : option SelectionSetNode)
| FragmentSpread (nid : nat) (name : string) (directives : list string)
| InlineFragment (nid : nat) (typeCondition : option string)
        (directives : list string) (selectionSet : SelectionSetNode)
with SelectionSetNode : Type :=
| SelectionSet (ssid : nat) (selections : list SelectionNode).

Definition nid_of (s : SelectionNode) : nat :=
  match s with
  | Field n _ _ _ _ => n
  | FragmentSpread n _ _ => n
  | InlineFragment n _ _ _ => n
  end.

Definition ssid_of (s : SelectionSetNode) : nat :=
  match s with SelectionSet n _ => n end.

Definition selections_of (s : SelectionSetNode) : list SelectionNode :=
  match s with SelectionSet _ l => l end.

Record FragmentDefinitionNode : Type := {
  frag_name : string;
  frag_typeCondition : string;
  frag_selectionSet : SelectionSetNode
}.

(** [createFragmentMap]: fragment definitions by name. *)
Definition FragmentMap : Type := list (string * FragmentDefinitionNode).

(** ** JavaScript values *)

Inductive value : Type :=
| VUndef
| VNull
| VBool (b : bool)
| VNum (z : Z)
| VStr (s : string)
| VArr (items : list value)
| VObj (fields : list (string * value))
| VRef (id : string)
| VToBeMerged (field : SelectionNode) (typename : value) (v : value)
| VNative (name : string)
    (** a built-in of the runtime, such as [Object.prototype.toString] *)
| VBare
    (** [Object.create(null)]: no property, no prototype *).

Definition StoreObject : Type := list (string * value).

(** Modelled from the spec: [makeReference] and [isReference] of
    utilities/graphql/storeUtils, which src/ does not contain.  A Reference
    is the handle [{ __ref: id }]; it is structurally distinguishable from
    every other stored value, hence a constructor of its own. *)
Definition makeReference (id : string) : value := VRef id.

Definition isReference (v : value) : bool :=
  match v with VRef _ => true | _ => false end.

(** Truthiness, [a || b] and [a && b]. *)
Definition truthy (v : value) : bool :=
  match v with
  | VUndef | VNull => false
  | VBool b => b
  | VNum z => negb (z =? 0)
  | VStr s => negb (String.eqb s "")
  | _ => true
  end.

Definition js_or (a b : value) : value := if truthy a then a else b.
Definition js_and (a b : value) : value := if truthy a then b else a.

(** An optional string argument ([dataId?: string]) as a value. *)
Definition ostr (o : option string) : value :=
  match o with Some s => VStr s | None => VUndef end.

(** [typeof v === "string"], with the string it holds. *)
Definition as_string (v : value) : option string :=
  match v with VStr s => Some s | _ => None end.

(** [typeof v === "object"] (true of [null] and of arrays). *)
Definition typeof_object (v : value) : bool :=
  match v with
  | VNull | VArr _ | VObj _ | VRef _ | VToBeMerged _ _ _ | VBare => true
  | _ => false
  end.

Fixpoint assoc (k : string) (l : StoreObject) : option value :=
  match l with
  | [] => None
  | (k', v) :: r => if String.eqb k k' then Some v else assoc k r
  end.

(** The own enumerable properties of a value: the fields of an object, the
    indexed elements of an array. *)
Definition props (v : value) : StoreObject :=
  match v with
  | VObj fs => fs
  | VArr l => combine (map (fun i : nat => pretty i) (seq 0 (length l))) l
  | _ => []
  end.

(** [Object.keys(v)]. *)
Definition keys (v : value) : list string := map fst (props v).

(** The own property [k] of [v], [undefined] when [v] has none: what
    [v[k]] is when the object inherits no [k] ([mergedFields.maxAge], a
    record of the store).  The read of a result, which may find an inherited
    member, is [js_get] below. *)
Definition get_prop (v : value) (k : string) : value :=
  match assoc k (props v) with
  | Some x => x
  | None =>
      match v with
      | VArr l => if String.eqb k "length" then VNum (Z.of_nat (length l)) else VUndef
      | _ => VUndef
      end
  end.

(** [obj[k] = v]: overwrite in place, or append a new property. *)
Fixpoint set_prop (k : string) (v : value) (l : StoreObject) : StoreObject :=
  match l with
  | [] => [(k, v)]
  | (k', v') :: r =>
      if String.eqb k k' then (k, v) :: r else (k', v') :: set_prop k v r
  end.

(** Modelled from the spec: the deep merge of section 4.3
    ([makeProcessedFieldsMerger] of ./helpers and the store's own merge,
    neither under src/).  Two mappings give the union of their keys, merged
    recursively where both have the key; a Reference, a sequence or a scalar
    coming in replaces what was there. *)
Fixpoint merge (existing incoming : value) {struct incoming} : value :=
  match incoming with
  | VObj fs =>
      match existing with
      | VObj es =>
          VObj ((fix go (fs : StoreObject) (acc : StoreObject) : StoreObject :=
                   match fs with
                   | [] => acc
                   | (k, v) :: r =>
                       go r (set_prop k (match assoc k acc with
                                         | Some e => merge e v
                                         | None => v
                                         end) acc)
                   end) fs es)
      | _ => incoming
      end
  | _ => incoming
  end.

Definition merge_fields (existing incoming : StoreObject) : StoreObject :=
  props (merge (VObj existing) (VObj incoming)).

(** Modelled from the spec: [cloneDeep] of utilities/common/cloneDeep
    (not under src/): an independent copy, equal to the original. *)
Fixpoint cloneDeep (v : value) : value :=
  match v with
  | VArr l => VArr (map cloneDeep l)
  | VObj fs => VObj (map (fun kv => (fst kv, cloneDeep (snd kv))) fs)
  | _ => v
  end.

(** Modelled from the spec: [equal] of @wry/equality, structural equality;
    two objects are equal when they have as many keys and agree on each. *)
Fixpoint equal (a b : value) {struct a} : bool :=
  match a, b with
  | VUndef, VUndef => true
  | VNull, VNull => true
  | VBool x, VBool y => Bool.eqb x y
  | VNum x, VNum y => Z.eqb x y
  | VStr x, VStr y => String.eqb x y
  | VRef x, VRef y => String.eqb x y
  | VArr xs, VArr ys =>
      (fix go (xs ys : list value) : bool :=
         match xs, ys with
         | [], [] => true
         | x :: xs', y :: ys' => equal x y && go xs' ys'
         | _, _ => false
         end) xs ys
  | VObj fa, VObj fb =>
      Nat.eqb (length fa) (length fb) &&
      (fix go (fa : StoreObject) : bool :=
         match fa with
         | [] => true
         | (k, v) :: r =>
             match assoc k fb with
             | Some w => equal v w
             | None => false
             end && go r
         end) fa
  | VToBeMerged f t v, VToBeMerged f' t' v' =>
      Nat.eqb (nid_of f) (nid_of f') && equal t t' && equal v v'
  | VNative x, VNative y => String.eqb x y
  | VBare, VBare => true
  | _, _ => false
  end.

(** ** Collaborators of the writer

    The policy object, the reader and the GraphQL utilities live in other
    files of the cache; the writer only calls them.  They are fields of the
    records below and every result holds for all of them. *)

(** What [getFragmentFromSelection] hands back: the inline fragment itself,
    or the definition a spread names. *)
Inductive Fragment : Type :=
| InlineFrag (typeCondition : option string) (selectionSet : SelectionSetNode)
| NamedFrag (def : FragmentDefinitionNode).

Definition fragment_selections (f : Fragment) : list SelectionNode :=
  match f with
  | InlineFrag _ ss => selections_of ss
  | NamedFrag d => selections_of (frag_selectionSet d)
  end.

Inductive Error : Type :=
| InvariantError (message : string).

Record NormalizedCache : Type := {
  data : gmap string StoreObject;
  rootIds : gset string
}.

Record Policies : Type := {
  (** [policies.identify(result, selectionSet, fragmentMap)]: the pair
      [[id, keyObject]], or the error it raises. *)
  identify : value -> SelectionSetNode -> FragmentMap ->
             Error + (option string * option StoreObject);
  (** [policies.rootTypenamesById[dataId]] *)
  rootTypenamesById : string -> value;
  (** [getStoreFieldName({ typename, fieldName, field, variables })] *)
  getStoreFieldName : value -> SelectionNode -> StoreObject -> string;
  (** [hasMergeFunction(typename, fieldName)] *)
  hasMergeFunction : value -> string -> bool;
  (** [applyMerges(makeReference(dataId), mergedFields, context)], which
      reads the store and the variables of the context *)
  applyMerges : string -> StoreObject -> NormalizedCache -> StoreObject ->
                StoreObject;
  (** [fragmentMatches(fragment, typename)] *)
  fragmentMatches : Fragment -> value -> bool;
  usingPossibleTypes : bool
}.

Record StoreReader : Type := {
  (** [isFresh(result, makeReference(dataId), selectionSet, context)] *)
  isFresh : value -> string -> SelectionSetNode -> NormalizedCache ->
            StoreObject -> bool
}.

(** The fields of [StoreWriter] that the write path reads. *)
Record StoreWriter : Type := {
  policies : Policies;
  reader : option StoreReader
}.

(** The environment: [process.env.NODE_ENV], the imported utilities and the
    built-ins whose result the writer only passes on. *)
Record Env : Type := {
  (** [process.env.NODE_ENV === "production"] *)
  production : bool;
  shouldInclude : SelectionNode -> StoreObject -> bool;
  hasDirectives : list string -> SelectionNode -> bool;
  getTypenameFromResult : value -> SelectionSetNode -> FragmentMap -> value;
  fieldNameFromStoreName : string -> string;
  (** [JSON.stringify(v, null, space)]; [None] for a call without [space] *)
  JSON_stringify : value -> option nat -> string;
  (** [`${v}`] *)
  String_of : value -> string;
  (** [k] is a property of the prototype of the array or scalar [v]
      ([Array.prototype], [String.prototype], [Number.prototype],
      [Boolean.prototype]); which names these hold depends on the edition
      of the language the runtime implements *)
  prototypeMember : value -> string -> bool
}.

(** The names [Object.prototype] defines: what every object with a prototype
    inherits, unless its own prototype defines the name. *)
Definition objectPrototype : list string :=
  ["constructor"; "hasOwnProperty"; "isPrototypeOf"; "propertyIsEnumerable";
   "toLocaleString"; "toString"; "valueOf"; "__defineGetter__";
   "__defineSetter__"; "__lookupGetter__"; "__lookupSetter__"; "__proto__"].

(** What the prototype chain gives for [k]: the member of the prototype
    [proto] of the value when it has one ([own]), else the member of
    [Object.prototype]. *)
Definition inherited (own : bool) (proto k : string) : value :=
  if own then VNative (proto +:+ "." +:+ k)
  else if existsb (String.eqb k) objectPrototype
       then VNative ("Object.prototype." +:+ k)
       else VUndef.

(** [obj[k]] as line 231 reads the result: an own property if [obj] has one
    of that name (a field of an object, the [length] of an array or a
    string, [__ref] of a reference), otherwise what the prototype chain
    gives.  An object made by [Object.create(null)] has no prototype. *)
Definition js_get (env : Env) (obj : value) (k : string) : value :=
  match assoc k (props obj) with
  | Some v => v
  | None =>
      match obj with
      | VObj _ => inherited false "Object.prototype" k
      | VRef id =>
          if String.eqb k "__ref" then VStr id
          else inherited false "Object.prototype" k
      | VArr l =>
          if String.eqb k "length" then VNum (Z.of_nat (length l))
          else inherited (prototypeMember env obj k) "Array.prototype" k
      | VStr s =>
          if String.eqb k "length" then VNum (Z.of_nat (String.length s))
          else inherited (prototypeMember env obj k) "String.prototype" k
      | VNum _ => inherited (prototypeMember env obj k) "Number.prototype" k
      | VBool _ => inherited (prototypeMember env obj k) "Boolean.prototype" k
      | _ => VUndef
      end
  end.

(** The part of [WriteContext] that a write never changes. *)
Record WriteContext : Type := {
  variables : StoreObject;
  fragmentMap : FragmentMap
}.

(** ** The state of a write *)

(** What a write does that can be observed from outside: the source keeps
    no such record, the model logs it so that the properties can speak of
    it. *)
Inductive Event : Type :=
| EvField (nid : nat)
    (** [processFieldValue] is called for the field node [nid] *)
| EvMerge (dataId : string) (fields : StoreObject)
    (** [context.store.merge(dataId, fields)] *)
| EvRetain (dataId : string)
    (** [store.retain(dataId)] *)
| EvWarn (fieldName parentType : string) (childTypenames : list string)
         (existing incoming : string)
    (** [invariant.warn], with what the message is built from *).

Record State : Type := {
  (** [context.store] *)
  store : NormalizedCache;
  (** [context.written]: per identifier, the selection sets applied *)
  written : gmap string (list nat);
  (** [out.shouldApplyMerges]; one [out] object serves a whole write *)
  shouldApplyMerges : bool;
  (** the module-level [warnings] set *)
  warnings : gset string;
  (** the callbacks handed to [queue.getJobs()], with the identifier and the
      [maxAge] they will read *)
  evictions : list (string * value);
  (** what the write did, oldest first: fields resolved, records committed,
      roots retained, warnings printed *)
  log : list Event
}.

Definition set_store (f : NormalizedCache -> NormalizedCache) (s : State) : State :=
  {| store := f (store s); written := written s;
     shouldApplyMerges := shouldApplyMerges s; warnings := warnings s;
     evictions := evictions s; log := log s |}.

Definition set_written (f : gmap string (list nat) -> gmap string (list nat))
    (s : State) : State :=
  {| store := store s; written := f (written s);
     shouldApplyMerges := shouldApplyMerges s; warnings := warnings s;
     evictions := evictions s; log := log s |}.

Definition set_shouldApplyMerges (b : bool) (s : State) : State :=
  {| store := store s; written := written s;
     shouldApplyMerges := b; warnings := warnings s;
     evictions := evictions s; log := log s |}.

Definition set_warnings (f : gset string -> gset string) (s : State) : State :=
  {| store := store s; written := written s;
     shouldApplyMerges := shouldApplyMerges s; warnings := f (warnings s);
     evictions := evictions s; log := log s |}.

Definition add_eviction (e : string * value) (s : State) : State :=
  {| store := store s; written := written s;
     shouldApplyMerges := shouldApplyMerges s; warnings := warnings s;
     evictions := evictions s ++ [e]; log := log s |}.

Definition add_log (e : Event) (s : State) : State :=
  {| store := store s; written := written s;
     shouldApplyMerges := shouldApplyMerges s; warnings := warnings s;
     evictions := evictions s; log := log s ++ [e] |}.

(** ** The monad: state, exceptions, and a bound on recursion *)

Inductive Outcome (A : Type) : Type :=
| Ok (a : A) (s : State)
| Throw (e : Error) (s : State)
| OutOfFuel.
Arguments Ok {A} a s.
Arguments Throw {A} e s.
Arguments OutOfFuel {A}.

Definition M (A : Type) : Type := State -> Outcome A.

Definition ret {A : Type} (a : A) : M A := fun s => Ok a s.

Definition bind {A B : Type} (m : M A) (k : A -> M B) : M B :=
  fun s =>
    match m s with
    | Ok a s' => k a s'
    | Throw e s' => Throw e s'
    | OutOfFuel => OutOfFuel
    end.

Definition throw {A : Type} (e : Error) : M A := fun s => Throw e s.
Definition out_of_fuel {A : Type} : M A := fun _ => OutOfFuel.
Definition get : M State := fun s => Ok s s.
Definition modify (f : State -> State) : M unit := fun s => Ok tt (f s).

Notation "'let*' x ':=' c 'in' k" := (bind c (fun x => k))
  (at level 10, x pattern, c at level 100, k at level 200).
Notation "c ';;;' k" := (bind c (fun _ => k))
  (at level 100, k at level 200, right associativity).

(** [for (x of l) body(x)] *)
Fixpoint forEach {A : Type} (body : A -> M unit) (l : list A) : M unit :=
  match l with
  | [] => ret tt
  | x :: r => body x ;;; forEach body r
  end.

(** [array.map(f)]: the callback runs on the elements from left to right. *)
Section ArrayMap.

Context {A B : Type}.
Variable f : A -> M B.

Fixpoint array_map (l : list A) : M (list B) :=
  match l with
  | [] => ret []
  | x :: r =>
      let* y := f x in
      let* r' := array_map r in
      ret (y :: r')
  end.

End ArrayMap.

(** ** The store, as the writer uses it *)

(** Modelled from the spec: the [NormalizedCache] of section 6 (its class
    is not under src/): [get], [merge] with the deep-merge semantics of
    section 4.3, [retain], and the field accessor [getFieldValue], which
    follows a Reference into the store and reads a plain object directly. *)
Definition store_get (c : NormalizedCache) (dataId k : string) : value :=
  match data c !! dataId with
  | Some fs => get_prop (VObj fs) k
  | None => VUndef
  end.

Definition store_merge (dataId : string) (incoming : StoreObject)
    (c : NormalizedCache) : NormalizedCache :=
  {| data := <[dataId := merge_fields (default [] (data c !! dataId)) incoming]> (data c);
     rootIds := rootIds c |}.

Definition store_retain (dataId : string) (c : NormalizedCache) : NormalizedCache :=
  {| data := data c; rootIds := {[dataId]} ∪ rootIds c |}.

Definition getFieldValue (c : NormalizedCache) (objOrRef : value) (k : string) : value :=
  match objOrRef with
  | VRef id => store_get c id k
  | _ => js_and objOrRef (get_prop objOrRef k)
  end.

(** ** Documents and the helpers that read them *)

Record OperationDefinitionNode : Type := {
  (** [getDefaultValues(operationDefinition)] *)
  defaultValues : StoreObject;
  op_selectionSet : SelectionSetNode
}.

Record DocumentNode : Type := {
  (** [getOperationDefinition(query)!] *)
  operationDefinition : OperationDefinitionNode;
  (** [getFragmentDefinitions(query)] *)
  fragmentDefinitions : list FragmentDefinitionNode
}.

Fixpoint fragmentMap_set (d : FragmentDefinitionNode) (m : FragmentMap) : FragmentMap :=
  match m with
  | [] => [(frag_name d, d)]
  | (k, x) :: r =>
      if String.eqb (frag_name d) k then (k, d) :: r
      else (k, x) :: fragmentMap_set d r
  end.

(** Modelled from the spec: [createFragmentMap] of
    utilities/graphql/fragments (not under src/), the fragment table:
    [symTable[fragment.name.value] = fragment] for each definition in turn. *)
Definition createFragmentMap (fs : list FragmentDefinitionNode) : FragmentMap :=
  fold_left (fun m d => fragmentMap_set d m) fs [].

Fixpoint fragmentMap_get (name : string) (m : FragmentMap) : option FragmentDefinitionNode :=
  match m with
  | [] => None
  | (k, d) :: r => if String.eqb name k then Some d else fragmentMap_get name r
  end.

(** [{...a, ...b}] *)
Definition spread (a b : StoreObject) : StoreObject :=
  fold_left (fun acc kv => set_prop (fst kv) (snd kv) acc) (a ++ b) [].

(** Modelled from the spec: [isField] of utilities/graphql/storeUtils (not
    under src/): the selection is a field entry. *)
Definition isField (s : SelectionNode) : bool :=
  match s with Field _ _ _ _ _ => true | _ => false end.

(** Modelled from the spec: [resultKeyNameFromField] of
    utilities/graphql/storeUtils (not under src/), the response key of a
    field: [field.alias ? field.alias.value : field.name.value]. *)
Definition resultKeyNameFromField (s : SelectionNode) : string :=
  match s with
  | Field _ (Some a) _ _ _ => a
  | Field _ None n _ _ => n
  | FragmentSpread _ n _ => n
  | InlineFragment _ _ _ _ => ""
  end.

(** [selection.name.value] *)
Definition name_value (s : SelectionNode) : string :=
  match s with
  | Field _ _ n _ _ => n
  | FragmentSpread _ n _ => n
  | InlineFragment _ _ _ _ => ""
  end.

(** [field.selectionSet] *)
Definition field_selectionSet (s : SelectionNode) : option SelectionSetNode :=
  match s with
  | Field _ _ _ _ ss => ss
  | FragmentSpread _ _ _ => None
  | InlineFragment _ _ _ ss => Some ss
  end.

(** Modelled from the spec: [getFragmentFromSelection] of
    utilities/graphql/fragments (not under src/), which resolves a selection
    against the fragment table: an inline fragment is its own fragment, a
    spread is looked up by name. *)
Definition getFragmentFromSelection (s : SelectionNode) (m : FragmentMap) : option Fragment :=
  match s with
  | InlineFragment _ tc _ ss => Some (InlineFrag tc ss)
  | FragmentSpread _ n _ => option_map NamedFrag (fragmentMap_get n m)
  | Field _ _ _ _ _ => None
  end.

(** ** The work set: a [Set] of selection nodes

    A [Set] keeps insertion order and holds a node (an object) at most once;
    [forEach] also visits what is added while it runs. *)
Definition workSet_has (ws : list SelectionNode) (s : SelectionNode) : bool :=
  existsb (fun x => Nat.eqb (nid_of x) (nid_of s)) ws.

Definition workSet_add (ws : list SelectionNode) (s : SelectionNode) : list SelectionNode :=
  if workSet_has ws s then ws else ws ++ [s].

(** [new Set(selections)] and [selections.forEach(workSet.add, workSet)] *)
Definition workSet_addAll (ws : list SelectionNode) (l : list SelectionNode) : list SelectionNode :=
  fold_left workSet_add l ws.

(** ** Bounds on the recursion

    A nested call of [processSelectionSet] works on a proper part of the
    result, so the height of the result bounds the nesting; the work set
    only ever holds nodes of the selection set, of its inline fragments and
    of the fragment definitions, so their number bounds the walk. *)
Fixpoint height (v : value) : nat :=
  match v with
  | VArr l =>
      S (S ((fix go (l : list value) : nat :=
               match l with [] => O | x :: r => Nat.max (height x) (go r) end) l))
  | VObj fs =>
      S ((fix go (l : StoreObject) : nat :=
            match l with [] => O | (_, x) :: r => Nat.max (height x) (go r) end) fs)
  | VRef _ => 3
  | VStr _ => 2
  | VNum _ | VBool _ => 1
  | _ => O
  end.

Fixpoint spliceable (s : SelectionNode) : list SelectionNode :=
  s :: match s with
       | InlineFragment _ _ _ (SelectionSet _ l) => flat_map spliceable l
       | _ => []
       end.

Definition spliceable_set (ss : SelectionSetNode) : list SelectionNode :=
  flat_map spliceable (selections_of ss).

Definition universe (ss : SelectionSetNode) (m : FragmentMap) : list SelectionNode :=
  spliceable_set ss ++ flat_map (fun kd => spliceable_set (frag_selectionSet (snd kd))) m.

(** ** The writer *)

Section Writer.

Variable this : StoreWriter.
Variable env : Env.

(** *** [warnAboutDataLoss] *)

Definition is_undefined (v : value) : bool :=
  match v with VUndef => true | _ => false end.

(** [typeof child === "object" && child] *)
Definition getChild (c : NormalizedCache) (storeFieldName : string)
    (objOrRef : value) : value :=
  let child := getFieldValue c objOrRef storeFieldName in
  if typeof_object child then child else VBool false.

Definition isArray (v : value) : bool :=
  match v with VArr _ => true | _ => false end.

Definition childTypenames (c : NormalizedCache) (existing incoming : value) : list string :=
  if negb (isArray existing) && negb (isArray incoming) then
    fold_left (fun names child =>
                 match as_string (getFieldValue c child "__typename") with
                 | Some t => if existsb (String.eqb t) names then names else names ++ [t]
                 | None => names
                 end) [existing; incoming] []
  else [].

Definition warnAboutDataLoss (existingRef incomingObj : value)
    (storeFieldName : string) : M unit :=
  let* st := get in
  let c := store st in
  let existing := getChild c storeFieldName existingRef in
  if negb (truthy existing) then ret tt else
  let incoming := getChild c storeFieldName incomingObj in
  if negb (truthy incoming) then ret tt else
  if isReference existing then ret tt else
  if equal existing incoming then ret tt else
  if forallb (fun key => negb (is_undefined (getFieldValue c incoming key)))
             (keys existing)
  then ret tt else
  let parentType :=
    js_or (getFieldValue c existingRef "__typename")
          (getFieldValue c incomingObj "__typename") in
  let fieldName := fieldNameFromStoreName env storeFieldName in
  let typeDotName := String_of env parentType +:+ "." +:+ fieldName in
  if bool_decide (typeDotName ∈ warnings st) then ret tt else
  modify (set_warnings (fun w => {[typeDotName]} ∪ w)) ;;;
  modify (add_log (EvWarn fieldName (String_of env parentType)
                     (childTypenames c existing incoming)
                     (substring 0 1000 (JSON_stringify env existing None))
                     (substring 0 1000 (JSON_stringify env incoming None)))).

(** *** [processFieldValue]

    [processSelectionSet'] is the nested call the method makes: the same
    context and [out], no [dataId]. *)
Section FieldValue.

Variable processSelectionSet' : value -> SelectionSetNode -> M value.

Fixpoint processFieldValue (v : value) (field : SelectionNode) {struct v} : M value :=
  match field_selectionSet field, v with
  | None, _ | Some _, VNull =>
      ret (if production env then v else cloneDeep v)
  | Some _, VArr items =>
      let* items' := array_map (fun item => processFieldValue item field) items in
      ret (VArr items')
  | Some selectionSet, _ => processSelectionSet' v selectionSet
  end.

End FieldValue.

(** *** The body of [workSet.forEach] in [processSelectionSet] *)
Section Walk.

Variable processFieldValue' : value -> SelectionNode -> M value.
Variable result : value.
Variable typename : value.
Variable context : WriteContext.

Definition missingFieldMessage (resultFieldKey : string) : string :=
  "Missing field '" +:+ resultFieldKey +:+ "' in " +:+
  substring 0 100 (JSON_stringify env result (Some 2%nat)).

(** One call of the callback, on [selection]; it returns the work set and
    [mergedFields] as it leaves them. *)
Definition visit (selection : SelectionNode) (workSet : list SelectionNode)
    (mergedFields : StoreObject) : M (list SelectionNode * StoreObject) :=
  if negb (shouldInclude env selection (variables context))
  then ret (workSet, mergedFields)
  else if isField selection then
    let resultFieldKey := resultKeyNameFromField selection in
    let v := js_get env result resultFieldKey in
    if negb (is_undefined v) then
      let storeFieldName :=
        getStoreFieldName (policies this) typename selection (variables context) in
      modify (add_log (EvField (nid_of selection))) ;;;
      let* incomingValue := processFieldValue' v selection in
      let* incomingValue :=
        if hasMergeFunction (policies this) typename (name_value selection)
        then modify (set_shouldApplyMerges true) ;;;
             ret (VToBeMerged selection typename incomingValue)
        else ret incomingValue in
      ret (workSet, merge_fields mergedFields [(storeFieldName, incomingValue)])
    else if usingPossibleTypes (policies this)
            && negb (hasDirectives env ["defer"; "client"] selection)
    then throw (InvariantError (missingFieldMessage resultFieldKey))
    else ret (workSet, mergedFields)
  else
    match getFragmentFromSelection selection (fragmentMap context) with
    | Some fragment =>
        if fragmentMatches (policies this) fragment typename
        then ret (workSet_addAll workSet (fragment_selections fragment), mergedFields)
        else ret (workSet, mergedFields)
    | None => ret (workSet, mergedFields)
    end.

(** [workSet.forEach]: the nodes are visited in insertion order, those added
    on the way included; [i] is the position of the next one. *)
Fixpoint walk (fuel : nat) (workSet : list SelectionNode) (i : nat)
    (mergedFields : StoreObject) : M (list SelectionNode * StoreObject) :=
  match nth_error workSet i with
  | None => ret (workSet, mergedFields)
  | Some selection =>
      match fuel with
      | O => out_of_fuel
      | S fuel' =>
          let* next := visit selection workSet mergedFields in
          walk fuel' (fst next) (S i) (snd next)
      end
  end.

End Walk.

(** *** [processSelectionSet] *)
Section SelectionSetBody.

(** The nested call reached through [processFieldValue]. *)
Variable processSelectionSet' : value -> SelectionSetNode -> M value.
Variable context : WriteContext.

(** [dataId && f(dataId)] for a [dataId] that is a string or [undefined] *)
Definition with_dataId (dataId : value) (f : string -> value) : value :=
  js_and dataId (match as_string dataId with Some d => f d | None => VUndef end).

Definition resolveTypename (dataId result : value) (selectionSet : SelectionSetNode)
    (c : NormalizedCache) : value :=
  js_or (js_or (with_dataId dataId (rootTypenamesById (policies this)))
               (getTypenameFromResult env result selectionSet (fragmentMap context)))
        (with_dataId dataId (fun d => store_get c d "__typename")).

(** The data-loss pass over [Object.keys(mergedFields)]. *)
Definition warnPass (d : string) (typename : value) (mergedFields : StoreObject) : M unit :=
  forEach (fun storeFieldName =>
             let fieldName := fieldNameFromStoreName env storeFieldName in
             if negb (hasMergeFunction (policies this) typename fieldName)
             then warnAboutDataLoss (makeReference d) (VObj mergedFields) storeFieldName
             else ret tt)
          (keys (VObj mergedFields)).

(** Lines 289-338: what is done for an object that has an identifier. *)
Definition commitEntity (d : string) (typename : value) (mergedFields : StoreObject) : M value :=
  let entityRef := makeReference d in
  let* st := get in
  let mergedFields :=
    if shouldApplyMerges st
    then applyMerges (policies this) d mergedFields (store st) (variables context)
    else mergedFields in
  (if negb (production env) then warnPass d typename mergedFields else ret tt) ;;;
  (if negb (String.eqb d "ROOT_QUERY") && truthy (get_prop (VObj mergedFields) "maxAge")
   then modify (add_eviction (d, get_prop (VObj mergedFields) "maxAge"))
   else ret tt) ;;;
  modify (set_store (store_merge d mergedFields)) ;;;
  modify (add_log (EvMerge d mergedFields)) ;;;
  ret entityRef.

(** Lines 203-221: the accumulator before the walk: the key fields first,
    then [__typename] when it is a string. *)
Definition initialFields (keyObject : option StoreObject) (typename : value) : StoreObject :=
  let mergedFields : StoreObject := [] in
  let mergedFields :=
    match keyObject with
    | Some k => merge_fields mergedFields k
    | None => mergedFields
    end in
  match as_string typename with
  | Some _ => set_prop "__typename" typename mergedFields
  | None => mergedFields
  end.

(** Lines 223-287: [new Set(selectionSet.selections)] and its [forEach]. *)
Definition walkFields (result typename : value) (selectionSet : SelectionSetNode)
    (mergedFields : StoreObject) : M (list SelectionNode * StoreObject) :=
  walk (processFieldValue processSelectionSet') result typename context
       (length (universe selectionSet (fragmentMap context)))
       (workSet_addAll [] (selections_of selectionSet)) O mergedFields.

(** Lines 201-340: the accumulator, the walk, and the commit or the inline
    record. *)
Definition writeFields (dataId : value) (keyObject : option StoreObject)
    (result : value) (selectionSet : SelectionSetNode) : M value :=
  let* st := get in
  let typename := resolveTypename dataId result selectionSet (store st) in
  let* walked :=
    walkFields result typename selectionSet (initialFields keyObject typename) in
  let mergedFields := snd walked in
  match as_string dataId with
  | Some d => commitEntity d typename mergedFields
  | None => ret (VObj mergedFields)
  end.

Definition processSelectionSet_body (dataId : option string) (result : value)
    (selectionSet : SelectionSetNode) : M value :=
  match identify (policies this) result selectionSet (fragmentMap context) with
  | inl e => throw e
  | inr (id, keyObject) =>
      let dataId := js_or (ostr dataId) (ostr id) in
      match as_string dataId with
      | Some d =>
          let* st := get in
          let sets := default [] (written st !! d) in
          let ref := makeReference d in
          if existsb (Nat.eqb (ssid_of selectionSet)) sets then ret ref else
          modify (set_written (fun w => <[d := sets ++ [ssid_of selectionSet]]> w)) ;;;
          let* st := get in
          if match reader this with
             | Some r => isFresh r result d selectionSet (store st) (variables context)
             | None => false
             end
          then ret ref
          else writeFields dataId keyObject result selectionSet
      | None => writeFields dataId keyObject result selectionSet
      end
  end.

End SelectionSetBody.

(** [depth] bounds the nesting of the calls. *)
Fixpoint processSelectionSet (depth : nat) (context : WriteContext)
    (dataId : option string) (result : value) (selectionSet : SelectionSetNode)
    : M value :=
  match depth with
  | O => out_of_fuel
  | S depth' =>
      processSelectionSet_body
        (fun v ss => processSelectionSet depth' context None v ss)
        context dataId result selectionSet
  end.

(** *** [writeToStore] *)

Record WriteToStoreOptions : Type := {
  query : DocumentNode;
  wr_result : value;
  wr_dataId : option string;
  wr_variables : StoreObject
}.

(** The context of the call: the variables over their defaults, the fragment
    map of the document. *)
Definition contextOf (o : WriteToStoreOptions) : WriteContext :=
  {| variables := spread (defaultValues (operationDefinition (query o))) (wr_variables o);
     fragmentMap := createFragmentMap (fragmentDefinitions (query o)) |}.

(** [result || Object.create(null)] *)
Definition rootResult (o : WriteToStoreOptions) : value :=
  js_or (wr_result o) VBare.

(** A call starts with an empty [written] and an [out] of its own. *)
Definition freshWrite (s : State) : State :=
  set_shouldApplyMerges false (set_written (fun _ => ∅) s).

(** The call of [processSelectionSet] on the root. *)
Definition processRoot (o : WriteToStoreOptions) : M value :=
  processSelectionSet (S (height (rootResult o))) (contextOf o) (wr_dataId o)
    (rootResult o) (op_selectionSet (operationDefinition (query o))).

(** [isReference(objOrRef) ? objOrRef : dataId && makeReference(dataId) || void 0] *)
Definition rootReference (dataId : option string) (objOrRef : value) : value :=
  if isReference objOrRef then objOrRef
  else js_or (with_dataId (ostr dataId) makeReference) VUndef.

Definition writeToStore (o : WriteToStoreOptions) : M value :=
  modify freshWrite ;;;
  let* objOrRef := processRoot o in
  let ref := rootReference (wr_dataId o) objOrRef in
  match ref with
  | VRef id =>
      modify (set_store (store_retain id)) ;;;
      modify (add_log (EvRetain id)) ;;;
      ret ref
  | _ => ret ref
  end.

End Writer.

(** ** The eviction jobs

    [processSelectionSet] only calls [queue.getJobs()] and leaves a callback
    with the promise.  What follows the write is a sequence of turns of the
    event loop: the queue answers a request with its jobs as they are at
    that moment; a callback runs on the answer to its own request, and adds
    to or updates the queue as it is when it runs; the callback of a refused
    update adds the fallback job.  The turns of several callbacks may come
    in any order that has each callback after its answer and each fallback
    after its callback. *)

Record Job : Type := {
  job_id : nat;
  workerName : string;
  (** [JSON.parse(job.payload).id] *)
  payload_id : string;
  executionTime : Z
}.

Record Queue : Type := {
  jobs : list Job;
  nextJobId : nat
}.

(** Modelled from the spec: the scheduler of section 6 (the job queue is a
    dependency, not under src/): [addJob] appends a job, [getJobs] lists
    them, [updateJobExecutionTime] either rewrites the execution time of the
    job in place and reports success, or changes nothing and reports
    failure. *)
Definition addJob (name dataId : string) (t : Z) (q : Queue) : Queue :=
  {| jobs := jobs q ++ [{| job_id := nextJobId q; workerName := name;
                           payload_id := dataId; executionTime := t |}];
     nextJobId := S (nextJobId q) |}.

Definition updateJobExecutionTime (succeeds : bool) (j : Job) (q : Queue) : bool * Queue :=
  if succeeds then
    (true, {| jobs := map (fun e => if Nat.eqb (job_id e) (job_id j) then j else e) (jobs q);
              nextJobId := nextJobId q |})
  else (false, q).

Section Eviction.

(** [new Date(Number(maxAge))] as a time value in milliseconds, [None] when
    [toISOString] raises a [RangeError] on it. *)
Variable timeValue : value -> option Z.

(** The callback of [queue.getJobs().then]: [found] is the [jobs] array the
    promise resolved with, [succeeds] the answer of the queue to the update,
    should there be one, and [q] the queue the callback works on.  It
    returns the queue it leaves, and whether an update was refused: then the
    callback of the update is still to run. *)
Definition callback (found : list Job) (succeeds : bool) (ev : string * value)
    (q : Queue) : Queue * bool :=
  let dataId := fst ev in
  let maxAge := snd ev in
  match find (fun e => String.eqb (payload_id e) dataId) found with
  | None =>
      match timeValue maxAge with
      | Some t => (addJob "removeCacheEntry" dataId t q, false)
      | None => (q, false)
      end
  | Some existingJob =>
      match timeValue maxAge with
      | Some t =>
          let updated :=
            updateJobExecutionTime succeeds
              {| job_id := job_id existingJob; workerName := workerName existingJob;
                 payload_id := payload_id existingJob; executionTime := t |} q in
          (snd updated, negb (fst updated))
      | None => (q, false)
      end
  end.

(** The callback of [updateJobExecutionTime(...).then] for an update that
    was refused; [now] is [new Date().getTime()]. *)
Definition fallback (now : Z) (ev : string * value) (q : Queue) : Queue :=
  addJob "removeCacheEntry" (fst ev) (now + 30000) q.


(** Where the callback of a commit stands. *)
Inductive Phase : Type :=
| Requested  (** [getJobs()] was called and has not resolved *)
| Answered (found : list Job)  (** it resolved with [found], the callback has not run *)
| Refused  (** the callback ran and its update was refused *)
| Settled  (** nothing is left to run *).

(** A turn of the event loop, for the [i]-th commit of the write. *)
Inductive Step : Type :=
| Answer (i : nat)  (** the queue answers the request *)
| Run (i : nat) (accepted : bool)
    (** the callback runs; [accepted] is the answer of the queue to an update *)
| Retry (i : nat) (now : Z)
    (** the callback of the refused update runs, the clock reading [now] *).

Record Loop : Type := {
  pending_queue : Queue;
  phases : list Phase
}.

(** One turn.  A turn that is out of order (a callback before its answer, a
    fallback without a refused update) is no turn of the loop, and changes
    nothing. *)
Definition turn (evs : list (string * value)) (a : Step) (l : Loop) : Loop :=
  match a with
  | Answer i =>
      match phases l !! i with
      | Some Requested =>
          {| pending_queue := pending_queue l;
             phases := <[i := Answered (jobs (pending_queue l))]> (phases l) |}
      | _ => l
      end
  | Run i accepted =>
      match phases l !! i, evs !! i with
      | Some (Answered found), Some ev =>
          let ran := callback found accepted ev (pending_queue l) in
          {| pending_queue := fst ran;
             phases := <[i := if snd ran then Refused else Settled]> (phases l) |}
      | _, _ => l
      end
  | Retry i now =>
      match phases l !! i, evs !! i with
      | Some Refused, Some ev =>
          {| pending_queue := fallback now ev (pending_queue l);
             phases := <[i := Settled]> (phases l) |}
      | _, _ => l
      end
  end.

Definition runLoop (schedule : list Step) (evs : list (string * value)) (l : Loop)
    : Loop :=
  fold_left (fun l a => turn evs a l) schedule l.

(** The queue after the turns of [schedule], for the callbacks [evs] that a
    write left, every request still unanswered at the start. *)
Definition runEvictions (schedule : list Step) (evs : list (string * value))
    (q : Queue) : Queue :=
  pending_queue
    (runLoop schedule evs {| pending_queue := q; phases := map (fun _ => Requested) evs |}).

Definition jobsFor (dataId : string) (q : Queue) : list Job :=
  List.filter (fun e => String.eqb (payload_id e) dataId) (jobs q).

End Eviction.

(** ** Notions used in the statements *)

(** The computation returned or threw: the bound on the recursion was not
    reached. *)
Definition terminates {A : Type} (o : Outcome A) : Prop := o <> OutOfFuel.

(** The state a computation ends in, whether it returns or throws. *)
Definition final_state {A : Type} (o : Outcome A) : option State :=
  match o with
  | Ok _ s => Some s
  | Throw _ s => Some s
  | OutOfFuel => None
  end.

(** [R] relates the state [m] starts in to the state it ends in. *)
Definition respects {A : Type} (R : State -> State -> Prop) (m : M A) : Prop :=
  forall st st', final_state (m st) = Some st' -> R st st'.

(** [context.written[d]] holds the selection set [ss] (the same object). *)
Definition applied (st : State) (d : string) (ss : SelectionSetNode) : Prop :=
  In (ssid_of ss) (default [] (written st !! d)).

(** Nothing recorded in [s] is missing from [s']. *)
Definition written_extends (s s' : State) : Prop :=
  forall d n, In n (default [] (written s !! d)) -> In n (default [] (written s' !! d)).

(** The [warnings] set only grows. *)
Definition warnings_extend (s s' : State) : Prop := warnings s ⊆ warnings s'.

(** The selections of an inline fragment. *)
Definition inline_children (s : SelectionNode) : list SelectionNode :=
  match s with
  | InlineFragment _ _ _ ss => selections_of ss
  | _ => []
  end.

(** The work set holds each node once and only nodes of the universe. *)
Definition workSet_ok (U ws : list SelectionNode) : Prop :=
  NoDup (map nid_of ws) /\ incl ws U.


(** [merge_fields] unfolded: the fields of [incoming] are written over
    [existing] one after the other. *)
Fixpoint merge_into (incoming acc : StoreObject) : StoreObject :=
  match incoming with
  | [] => acc
  | (k, v) :: r =>
      merge_into r (set_prop k (match assoc k acc with
                                | Some e => merge e v
                                | None => v
                                end) acc)
  end.

(** A [dataId] was supplied and is not the empty string, or [identify]
    resolved an identifier. *)
Definition identified (dataId id : option string) : Prop :=
  (exists d, dataId = Some d /\ d <> "") \/ (exists d, id = Some d).

(** [v === null] *)
Definition is_null (v : value) : bool :=
  match v with VNull => true | _ => false end.

(** An object, an array or a Reference: [typeof v === "object"] and [v] is
    not [null]. *)
Definition objectShaped (v : value) : bool := typeof_object v && negb (is_null v).

(** Job identifiers are handed out in increasing order. *)
Definition queue_ok (q : Queue) : Prop :=
  forall j, In j (jobs q) -> (job_id j < nextJobId q)%nat.

Section Notions.

Variable this : StoreWriter.
Variable env : Env.

(** What a call does for a selection set that is new to the identifier:
    it records the selection set, asks the reader, and walks the fields. *)
Definition applyOnce (depth : nat) (context : WriteContext) (d : string)
    (keyObject : option StoreObject) (result : value) (ss : SelectionSetNode) : M value :=
  modify (set_written (fun w => <[d := default [] (w !! d) ++ [ssid_of ss]]> w)) ;;;
  let* st := get in
  if match reader this with
     | Some r => isFresh r result d ss (store st) (variables context)
     | None => false
     end
  then ret (makeReference d)
  else writeFields this env
         (fun v ss' => processSelectionSet this env depth context None v ss')
         context (VStr d) keyObject result ss.

(** [`${parentType}.${fieldName}`], the key of the [warnings] set. *)
Definition typeDotName (c : NormalizedCache) (existingRef incomingObj : value)
    (storeFieldName : string) : string :=
  String_of env (js_or (getFieldValue c existingRef "__typename")
                       (getFieldValue c incomingObj "__typename"))
  +:+ "." +:+ fieldNameFromStoreName env storeFieldName.

(** The tests of lines 384-404 that end the guard without a warning. *)
Definition noWarningNeeded (c : NormalizedCache) (existingRef incomingObj : value)
    (storeFieldName : string) : bool :=
  let existing := getFieldValue c existingRef storeFieldName in
  let incoming := getFieldValue c incomingObj storeFieldName in
  negb (objectShaped existing)
  || negb (objectShaped incoming)
  || isReference existing
  || equal existing incoming
  || forallb (fun key => negb (is_undefined (getFieldValue c incoming key)))
             (keys existing).

(** The warning of lines 429-448. *)
Definition dataLossWarning (c : NormalizedCache) (existingRef incomingObj : value)
    (storeFieldName : string) : Event :=
  let existing := getFieldValue c existingRef storeFieldName in
  let incoming := getFieldValue c incomingObj storeFieldName in
  EvWarn (fieldNameFromStoreName env storeFieldName)
         (String_of env (js_or (getFieldValue c existingRef "__typename")
                               (getFieldValue c incomingObj "__typename")))
         (childTypenames c existing incoming)
         (substring 0 1000 (JSON_stringify env existing None))
         (substring 0 1000 (JSON_stringify env incoming None)).

End Notions.

(** ** A concrete cache configuration

    Entities are identified by [__typename] and [id]; [skip] excludes a
    selection; the field [merged] has a custom merge function. *)
Module Demo.

Definition stringOf (v : value) : string :=
  match v with
  | VUndef => "undefined"
  | VNull => "null"
  | VBool true => "true"
  | VBool false => "false"
  | VNum z => pretty z
  | VStr s => s
  | _ => "[object Object]"
  end.

Definition identifyById (result : value) (_ : SelectionSetNode) (_ : FragmentMap)
    : Error + (option string * option StoreObject) :=
  match get_prop result "__typename", get_prop result "id" with
  | VStr t, VUndef => inr (None, None)
  | VStr t, idv => inr (Some (t +:+ ":" +:+ stringOf idv), Some [("id", idv)])
  | _, _ => inr (None, None)
  end.

Definition rootTypenames (dataId : string) : value :=
  if String.eqb dataId "ROOT_QUERY" then VStr "Query"
  else if String.eqb dataId "ROOT_MUTATION" then VStr "Mutation"
  else VUndef.

Definition resolveMarker (kv : string * value) : string * value :=
  match snd kv with
  | VToBeMerged _ _ v => (fst kv, v)
  | _ => kv
  end.

Definition demoPolicies : Policies := {|
  identify := identifyById;
  rootTypenamesById := rootTypenames;
  getStoreFieldName := fun _ selection _ => name_value selection;
  hasMergeFunction := fun _ fieldName => String.eqb fieldName "merged";
  applyMerges := fun _ mergedFields _ _ => map resolveMarker mergedFields;
  fragmentMatches := fun fragment typename =>
    match fragment with
    | InlineFrag None _ => true
    | InlineFrag (Some tc) _ => equal typename (VStr tc)
    | NamedFrag d => equal typename (VStr (frag_typeCondition d))
    end;
  usingPossibleTypes := true
|}.

Definition directives_of (s : SelectionNode) : list string :=
  match s with
  | Field _ _ _ ds _ => ds
  | FragmentSpread _ _ ds => ds
  | InlineFragment _ _ ds _ => ds
  end.

(** Some of the members of the prototypes of arrays and scalars. *)
Definition demoMember (v : value) (k : string) : bool :=
  match v with
  | VArr _ => existsb (String.eqb k) ["constructor"; "concat"; "map"; "toString"]
  | VStr _ => existsb (String.eqb k) ["constructor"; "charAt"; "toString"; "valueOf"]
  | VNum _ => existsb (String.eqb k) ["constructor"; "toFixed"; "toString"; "valueOf"]
  | VBool _ => existsb (String.eqb k) ["constructor"; "toString"; "valueOf"]
  | _ => false
  end.

Definition demoEnv : Env := {|
  production := false;
  shouldInclude := fun s _ => negb (existsb (String.eqb "skip") (directives_of s));
  hasDirectives := fun names s =>
    existsb (fun d => existsb (String.eqb d) names) (directives_of s);
  getTypenameFromResult := fun result _ _ =>
    match get_prop result "__typename" with VStr t => VStr t | _ => VUndef end;
  fieldNameFromStoreName := fun s => s;
  JSON_stringify := fun v _ => stringOf v;
  String_of := stringOf;
  prototypeMember := demoMember
|}.

Definition writer : StoreWriter := {| policies := demoPolicies; reader := None |}.

Definition emptyState : State := {|
  store := {| data := ∅; rootIds := ∅ |};
  written := ∅;
  shouldApplyMerges := false;
  warnings := ∅;
  evictions := [];
  log := []
|}.

Definition numericTime (v : value) : option Z :=
  match v with VNum z => Some z | _ => None end.

Definition context : WriteContext := {| variables := []; fragmentMap := [] |}.

(** [{ id text maxAge __typename }] *)
Definition todoSelection : SelectionSetNode :=
  SelectionSet 1 [Field 10 None "id" [] None; Field 11 None "text" [] None;
                  Field 12 None "maxAge" [] None; Field 13 None "__typename" [] None].

Definition todo : value :=
  VObj [("id", VStr "1"); ("__typename", VStr "Todo"); ("text", VStr "a");
        ("maxAge", VNum 1000)].

(** [{ todo { id text maxAge __typename } }] *)
Definition todoQuery : DocumentNode := {|
  operationDefinition := {|
    defaultValues := [];
    op_selectionSet := SelectionSet 0 [Field 1 None "todo" [] (Some todoSelection)]
  |};
  fragmentDefinitions := []
|}.

Definition state_of {A : Type} (o : Outcome A) : State :=
  match o with
  | Ok _ s => s
  | Throw _ s => s
  | OutOfFuel => emptyState
  end.


(** An object that the policies do not identify, and a selection for it. *)
Definition note : value := VObj [("text", VStr "a")].

Definition noteSelection : SelectionSetNode :=
  SelectionSet 2 [Field 20 None "text" [] None].

(** Two fragments on [Todo] that both spread [TodoText]:
    [{ ...A ...B }], [A { ...TodoText }], [B { ...TodoText id }],
    [TodoText { text }]. *)
Definition todoText : FragmentDefinitionNode :=
  {| frag_name := "TodoText"; frag_typeCondition := "Todo";
     frag_selectionSet := SelectionSet 50 [Field 51 None "text" [] None] |}.

Definition fragmentA : FragmentDefinitionNode :=
  {| frag_name := "A"; frag_typeCondition := "Todo";
     frag_selectionSet := SelectionSet 60 [FragmentSpread 61 "TodoText" []] |}.

Definition fragmentB : FragmentDefinitionNode :=
  {| frag_name := "B"; frag_typeCondition := "Todo";
     frag_selectionSet :=
       SelectionSet 70 [FragmentSpread 71 "TodoText" []; Field 72 None "id" [] None] |}.

Definition fragmentContext : WriteContext :=
  {| variables := [];
     fragmentMap := createFragmentMap [todoText; fragmentA; fragmentB] |}.

Definition spreadSelection : SelectionSetNode :=
  SelectionSet 80 [FragmentSpread 81 "A" []; FragmentSpread 82 "B" []].

(** A todo whose author has no identifier at first and has one later:
    [{ todo { id __typename author { name age } } }], then
    [{ todo { id __typename author { __typename id name } } }]. *)
Definition authorInlineQuery : DocumentNode := {|
  operationDefinition := {|
    defaultValues := [];
    op_selectionSet :=
      SelectionSet 100
        [Field 101 None "todo" []
           (Some (SelectionSet 102
                    [Field 103 None "id" [] None; Field 104 None "__typename" [] None;
                     Field 105 None "author" []
                       (Some (SelectionSet 106
                                [Field 107 None "name" [] None;
                                 Field 108 None "age" [] None]))]))]
  |};
  fragmentDefinitions := []
|}.

Definition authorInlineResult : value :=
  VObj [("todo", VObj [("id", VStr "1"); ("__typename", VStr "Todo");
                       ("author", VObj [("name", VStr "A"); ("age", VNum 3)])])].

Definition authorEntityQuery : DocumentNode := {|
  operationDefinition := {|
    defaultValues := [];
    op_selectionSet :=
      SelectionSet 110
        [Field 111 None "todo" []
           (Some (SelectionSet 112
                    [Field 113 None "id" [] None; Field 114 None "__typename" [] None;
                     Field 115 None "author" []
                       (Some (SelectionSet 116
                                [Field 117 None "__typename" [] None;
                                 Field 118 None "id" [] None;
                                 Field 119 None "name" [] None]))]))]
  |};
  fragmentDefinitions := []
|}.

Definition authorEntityResult : value :=
  VObj [("todo", VObj [("id", VStr "1"); ("__typename", VStr "Todo");
                       ("author", VObj [("__typename", VStr "Author"); ("id", VStr "9");
                                        ("name", VStr "A")])])].

(** The state after the first of the two writes. *)
Definition afterAuthorInline : State :=
  state_of (writeToStore writer demoEnv
              {| query := authorInlineQuery; wr_result := authorInlineResult;
                 wr_dataId := Some "ROOT_QUERY"; wr_variables := [] |} emptyState).

(** The todo written twice, with [maxAge] 1000 and then 2000. *)
Definition todoLater : value :=
  VObj [("id", VStr "1"); ("__typename", VStr "Todo"); ("text", VStr "b");
        ("maxAge", VNum 2000)].

Definition writeTodo (t : value) : M value :=
  writeToStore writer demoEnv
    {| query := todoQuery; wr_result := VObj [("todo", t)];
       wr_dataId := Some "ROOT_QUERY"; wr_variables := [] |}.

Definition afterTwoWrites : State :=
  state_of (writeTodo todoLater (state_of (writeTodo todo emptyState))).

Definition emptyQueue : Queue := {| jobs := []; nextJobId := O |}.

(** [{ text }] as a query document. *)
Definition noteQuery : DocumentNode := {|
  operationDefinition := {| defaultValues := []; op_selectionSet := noteSelection |};
  fragmentDefinitions := []
|}.

(** The state once [todo] has been written under [todoSelection]. *)
Definition afterTodo : State :=
  state_of (processSelectionSet writer demoEnv 1 context None todo todoSelection emptyState).

End Demo.

(** ** Further notions used in the statements *)

(** The event is a warning of the data-loss guard. *)
Definition isWarning (e : Event) : Prop :=
  match e with EvWarn _ _ _ _ _ => True | _ => False end.

(** Every record of [s] is in [s'] with at least its keys, and every retained
    root of [s] is retained in [s']. *)
Definition store_grows (s s' : State) : Prop :=
  (forall id rec,
     data (store s) !! id = Some rec ->
     exists rec', data (store s') !! id = Some rec'
                  /\ incl (map fst rec) (map fst rec'))
  /\ rootIds (store s) ⊆ rootIds (store s').

(** Between [s] and [s'] no root was retained: the set of roots is the same
    and the log has no [store.retain]. *)
Definition nothing_retained (s s' : State) : Prop :=
  rootIds (store s') = rootIds (store s)
  /\ exists l, log s' = log s ++ l
               /\ Forall (fun e => match e with EvRetain _ => False | _ => True end) l.

(** Between [s] and [s'] callbacks were only added, each for an identifier
    other than [ROOT_QUERY] and with a truthy [maxAge]. *)
Definition evictions_added (s s' : State) : Prop :=
  exists l, evictions s' = evictions s ++ l
            /\ Forall (fun ev => fst ev <> "ROOT_QUERY" /\ truthy (snd ev) = true) l.

(** The keys [parentType.fieldName] of the warnings in a log. *)
Fixpoint warnedKeys (l : list Event) : list string :=
  match l with
  | [] => []
  | EvWarn fieldName parentType _ _ _ :: r =>
      (parentType +:+ "." +:+ fieldName) :: warnedKeys r
  | _ :: r => warnedKeys r
  end.

(** No two warnings of the log have the same key, and the key of each is in
    the [warnings] set. *)
Definition warned_once (s : State) : Prop :=
  NoDup (warnedKeys (log s)) /\ forall k, In k (warnedKeys (log s)) -> k ∈ warnings s.

(** The [warnings] set and the warnings of the log are the same in [s']. *)
Definition no_warning (s s' : State) : Prop :=
  warnings s' = warnings s /\ warnedKeys (log s') = warnedKeys (log s).

(** What the callback has done for a selection once the walk is over. *)
Definition settled (this : StoreWriter) (env : Env) (result typename : value)
    (context : WriteContext) (selection : SelectionNode) (walked : list SelectionNode * StoreObject) : Prop :=
  shouldInclude env selection (variables context) = true ->
  (isField selection = true ->
   get_prop result (resultKeyNameFromField selection) <> VUndef ->
   In (getStoreFieldName (policies this) typename selection (variables context))
      (map fst (snd walked)))
  /\ (isField selection = false ->
      forall f x,
        getFragmentFromSelection selection (fragmentMap context) = Some f ->
        fragmentMatches (policies this) f typename = true ->
        In x (fragment_selections f) ->
        workSet_has (fst walked) x = true).

(** Every exception of [m] satisfies [P]. *)
Definition throws_only {A : Type} (P : Error -> Prop) (m : M A) : Prop :=
  forall s e s', m s = Throw e s' -> P e.

(** Job identifiers are unique, and below the next one to be handed out. *)
Definition queue_wf (q : Queue) : Prop :=
  queue_ok q /\ NoDup (map job_id (jobs q)).

(** Every job of [p] is still in [q], under its job id and for the same
    identifier: jobs are added and updated, and a job id is not reused. *)
Definition kept (p q : Queue) : Prop :=
  forall e, In e (jobs p) ->
    exists e', In e' (jobs q) /\ job_id e' = job_id e /\ payload_id e' = payload_id e.

(** The callbacks of a run that are for the identifier [d]. *)
Definition callbacksFor (d : string) (evs : list (string * value)) : list (string * value) :=
  List.filter (fun ev => String.eqb (fst ev) d) evs.

(** The callback of a commit for [d] has a turn left: 1 if so, 0 if not. *)
Definition turnLeft (d : string) (ev : string * value) (ph : Phase) : nat :=
  if String.eqb (fst ev) d
     && negb (match ph with Settled => true | _ => false end)
  then 1 else 0.

(** The number of callbacks for [d] that have a turn left. *)
Fixpoint unsettled (d : string) (evs : list (string * value)) (phs : list Phase) : nat :=
  match evs, phs with
  | ev :: evs', ph :: phs' => (turnLeft d ev ph + unsettled d evs' phs')%nat
  | _, _ => O
  end.

(** What holds of the loop at every turn, for the callbacks [evs] started on
    the queue [q0]: job ids are unique; every commit has its phase; the jobs
    a request was answered with are still in the queue; identifiers without
    a callback have the jobs they had; and no identifier has lost a job, or
    gained more than one for each of its callbacks that has no turn left. *)
Definition loop_ok (evs : list (string * value)) (q0 : Queue) (l : Loop) : Prop :=
  queue_wf (pending_queue l)
  /\ length (phases l) = length evs
  /\ (forall i found, phases l !! i = Some (Answered found) ->
        kept {| jobs := found; nextJobId := O |} (pending_queue l))
  /\ (forall d', ~ In d' (map fst evs) ->
        jobsFor d' (pending_queue l) = jobsFor d' q0)
  /\ (forall d,
        (length (jobsFor d q0) <= length (jobsFor d (pending_queue l)))%nat
        /\ (length (jobsFor d (pending_queue l)) + unsettled d evs (phases l)
            <= length (jobsFor d q0) + length (callbacksFor d evs))%nat).

(** The callback resolves the selection: an included field for which the
    read of the result finds a value. *)
Definition processed (env : Env) (context : WriteContext) (result : value)
    (x : SelectionNode) : bool :=
  shouldInclude env x (variables context) && isField x
  && negb (is_undefined (js_get env result (resultKeyNameFromField x))).

(** The work set after the callback: a fragment that is included and
    matches has its selections added, nothing else changes the set. *)
Definition spliced (this : StoreWriter) (env : Env) (typename : value)
    (context : WriteContext) (selection : SelectionNode) (ws : list SelectionNode)
    : list SelectionNode :=
  if shouldInclude env selection (variables context) && negb (isField selection)
  then match getFragmentFromSelection selection (fragmentMap context) with
       | Some f =>
           if fragmentMatches (policies this) f typename
           then workSet_addAll ws (fragment_selections f) else ws
       | None => ws
       end
  else ws.

(** The log of [s'] is the log of [s] with more events after it. *)
Definition log_extends (s s' : State) : Prop :=
  exists events, log s' = log s ++ events.





(** ** Further configurations *)

Module Demo2.

(** A fragment that spreads itself: [fragment Loop on Todo { ...Loop text }],
    under the selection [{ ...Loop }]. *)
Definition loopFragment : FragmentDefinitionNode :=
  {| frag_name := "Loop"; frag_typeCondition := "Todo";
     frag_selectionSet :=
       SelectionSet 200 [FragmentSpread 201 "Loop" []; Field 202 None "text" [] None] |}.

Definition loopQuery : DocumentNode := {|
  operationDefinition := {|
    defaultValues := [];
    op_selectionSet := SelectionSet 210 [FragmentSpread 211 "Loop" []]
  |};
  fragmentDefinitions := [loopFragment]
|}.

Definition loopOptions : WriteToStoreOptions :=
  {| query := loopQuery; wr_result := Demo.todo; wr_dataId := None; wr_variables := [] |}.

(** [{ todo { id text maxAge __typename } }] against a todo that has no
    [text]: the write throws. *)
Definition failingOptions : WriteToStoreOptions :=
  {| query := Demo.todoQuery;
     wr_result := VObj [("todo", VObj [("id", VStr "1"); ("__typename", VStr "Todo")])];
     wr_dataId := Some "ROOT_QUERY"; wr_variables := [] |}.

(** The root query record written with a [maxAge] of its own, over a todo
    that has one. *)
Definition rootMaxAgeOptions : WriteToStoreOptions :=
  {| query := {| operationDefinition :=
                   {| defaultValues := [];
                      op_selectionSet :=
                        SelectionSet 220
                          [Field 221 None "maxAge" [] None;
                           Field 222 None "todo" [] (Some Demo.todoSelection)] |};
                 fragmentDefinitions := [] |};
     wr_result := VObj [("maxAge", VNum 500); ("todo", Demo.todo)];
     wr_dataId := Some "ROOT_QUERY"; wr_variables := [] |}.

(** The write that makes the author of the todo an entity. *)
Definition authorEntityOptions : WriteToStoreOptions :=
  {| query := Demo.authorEntityQuery; wr_result := Demo.authorEntityResult;
     wr_dataId := Some "ROOT_QUERY"; wr_variables := [] |}.

(** The demo environment in production. *)
Definition productionEnv : Env := {|
  production := true;
  shouldInclude := shouldInclude Demo.demoEnv;
  hasDirectives := hasDirectives Demo.demoEnv;
  getTypenameFromResult := getTypenameFromResult Demo.demoEnv;
  fieldNameFromStoreName := fieldNameFromStoreName Demo.demoEnv;
  JSON_stringify := JSON_stringify Demo.demoEnv;
  String_of := String_of Demo.demoEnv;
  prototypeMember := prototypeMember Demo.demoEnv
|}.

(** [{ merged note { text } }]: a field with a custom merge function, then
    an object without identifier. *)
Definition mergedSelection : SelectionSetNode :=
  SelectionSet 230 [Field 231 None "merged" [] None;
                    Field 232 None "note" [] (Some Demo.noteSelection)].

Definition mergedResult : value :=
  VObj [("id", VStr "7"); ("__typename", VStr "Todo"); ("merged", VNum 1);
        ("note", Demo.note)].

(** The demo writer without possible types. *)
Definition lenientWriter : StoreWriter := {|
  policies := {|
    identify := identify Demo.demoPolicies;
    rootTypenamesById := rootTypenamesById Demo.demoPolicies;
    getStoreFieldName := getStoreFieldName Demo.demoPolicies;
    hasMergeFunction := hasMergeFunction Demo.demoPolicies;
    applyMerges := applyMerges Demo.demoPolicies;
    fragmentMatches := fragmentMatches Demo.demoPolicies;
    usingPossibleTypes := false
  |};
  reader := None
|}.

(** A queue that holds one job, for [Todo:2]. *)
Definition queueWithJob : Queue := addJob "removeCacheEntry" "Todo:2" 5 Demo.emptyQueue.

(** The demo writer with a reader that reports every result fresh. *)
Definition freshWriter : StoreWriter :=
  {| policies := Demo.demoPolicies;
     reader := Some {| isFresh := fun _ _ _ _ _ => true |} |}.











(** A todo whose [text] is [null] while the alias [label] of the same field is
    not, and [{ text label: text }]. *)
Definition aliasedTodo : value :=
  VObj [("id", VStr "1"); ("__typename", VStr "Todo"); ("text", VNull);
        ("label", VStr "a")].

Definition aliasedSelection : SelectionSetNode :=
  SelectionSet 320 [Field 321 None "text" [] None;
                    Field 322 (Some "label") "text" [] None].

End Demo2.

(** ** The walk ends *)


(** * Properties *)

(** ** The monad *)

Lemma bind_Ok {A B : Type} (m : M A) (k : A -> M B) (s s'' : State) (b : B) :
  bind m k s = Ok b s'' <->
  exists a s', m s = Ok a s' /\ k a s' = Ok b s''.
Proof.
  unfold bind. split.
  - destruct (m s) as [a s'| |] eqn:E; try discriminate. eauto.
  - intros (a & s' & -> & H). exact H.
Qed.

Lemma bind_Throw {A B : Type} (m : M A) (k : A -> M B) (s s'' : State) (e : Error) :
  bind m k s = Throw e s'' <->
  m s = Throw e s'' \/ exists a s', m s = Ok a s' /\ k a s' = Throw e s''.
Proof.
  unfold bind. split.
  - destruct (m s) as [a s'| |] eqn:E; try discriminate; eauto.
    intros H. left. inversion H. reflexivity.
  - intros [-> | (a & s' & -> & H)]; auto.
Qed.

Lemma bind_OutOfFuel {A B : Type} (m : M A) (k : A -> M B) (s : State) :
  bind m k s = OutOfFuel <->
  m s = OutOfFuel \/ exists a s', m s = Ok a s' /\ k a s' = OutOfFuel.
Proof.
  unfold bind. split.
  - destruct (m s) as [a s'| |] eqn:E; try discriminate; eauto.
  - intros [-> | (a & s' & -> & H)]; auto.
Qed.

(** An exception of the first computation is the exception of the whole. *)
Lemma bind_propagates {A B : Type} (m : M A) (k : A -> M B) (s s' : State) (e : Error) :
  m s = Throw e s' -> bind m k s = Throw e s'.
Proof. intros H. unfold bind. rewrite H. reflexivity. Qed.

(** Induction on values that sees through arrays. *)
Section ValueArrayInd.

Variable P : value -> Prop.
Hypothesis P_other : forall v, isArray v = false -> P v.
Hypothesis P_array : forall l, Forall P l -> P (VArr l).

Fixpoint value_array_ind (v : value) : P v :=
  match v as v0 return P v0 with
  | VArr l =>
      P_array l
        ((fix go (l : list value) : Forall P l :=
            match l with
            | [] => @List.Forall_nil value P
            | x :: r => @List.Forall_cons value P x r (value_array_ind x) (go r)
            end) l)
  | VUndef => P_other VUndef eq_refl
  | VNull => P_other VNull eq_refl
  | VBool b => P_other (VBool b) eq_refl
  | VNum z => P_other (VNum z) eq_refl
  | VStr s => P_other (VStr s) eq_refl
  | VObj fs => P_other (VObj fs) eq_refl
  | VRef id => P_other (VRef id) eq_refl
  | VToBeMerged f t x => P_other (VToBeMerged f t x) eq_refl
  | VNative n => P_other (VNative n) eq_refl
  | VBare => P_other VBare eq_refl
  end.

End ValueArrayInd.

(** ** The work set is a set *)

Lemma workSet_has_In (ws : list SelectionNode) (s : SelectionNode) :
  workSet_has ws s = true <-> In (nid_of s) (map nid_of ws).
Proof.
  unfold workSet_has. rewrite existsb_exists, in_map_iff. split.
  - intros (x & Hx & E). apply Nat.eqb_eq in E. eauto.
  - intros (x & E & Hx). exists x. split; [exact Hx|]. apply Nat.eqb_eq. exact E.
Qed.

Lemma workSet_add_NoDup (ws : list SelectionNode) (s : SelectionNode) :
  NoDup (map nid_of ws) -> NoDup (map nid_of (workSet_add ws s)).
Proof.
  intros H. unfold workSet_add.
  destruct (workSet_has ws s) eqn:E; [exact H|].
  rewrite map_app. simpl. apply NoDup_app. repeat split.
  - exact H.
  - intros x Hx Hs. apply list_elem_of_In in Hx, Hs. destruct Hs as [<- | []].
    apply workSet_has_In in Hx. congruence.
  - apply NoDup_singleton.
Qed.

Lemma workSet_addAll_NoDup (l ws : list SelectionNode) :
  NoDup (map nid_of ws) -> NoDup (map nid_of (workSet_addAll ws l)).
Proof.
  unfold workSet_addAll. revert ws.
  induction l as [|x l IH]; intros ws H; simpl; [exact H|].
  apply IH, workSet_add_NoDup, H.
Qed.

Lemma workSet_add_incl (ws U : list SelectionNode) (s : SelectionNode) :
  incl ws U -> In s U -> incl (workSet_add ws s) U.
Proof.
  intros H Hs. unfold workSet_add. destruct (workSet_has ws s); [exact H|].
  apply incl_app; [exact H|]. intros x [<- | []]. exact Hs.
Qed.

Lemma workSet_addAll_incl (l ws U : list SelectionNode) :
  incl ws U -> incl l U -> incl (workSet_addAll ws l) U.
Proof.
  unfold workSet_addAll. revert ws.
  induction l as [|x l IH]; intros ws H Hl; simpl; [exact H|].
  apply IH.
  - apply workSet_add_incl; [exact H|]. apply Hl. left. reflexivity.
  - intros y Hy. apply Hl. right. exact Hy.
Qed.

(** What was in the set stays, at the same position. *)
Lemma workSet_add_prefix (ws : list SelectionNode) (s : SelectionNode) :
  exists extra, workSet_add ws s = ws ++ extra.
Proof.
  unfold workSet_add. destruct (workSet_has ws s).
  - exists []. rewrite app_nil_r. reflexivity.
  - exists [s]. reflexivity.
Qed.

Lemma workSet_addAll_prefix (l ws : list SelectionNode) :
  exists extra, workSet_addAll ws l = ws ++ extra.
Proof.
  unfold workSet_addAll. revert ws.
  induction l as [|x l IH]; intros ws; simpl.
  - exists []. rewrite app_nil_r. reflexivity.
  - destruct (workSet_add_prefix ws x) as [e1 E1].
    destruct (IH (workSet_add ws x)) as [e2 E2].
    exists (e1 ++ e2). rewrite E2, E1, app_assoc. reflexivity.
Qed.

(** Every node handed to [add] is in the set afterwards, by identity. *)
Lemma workSet_add_has (ws : list SelectionNode) (s x : SelectionNode) :
  workSet_has ws x = true \/ nid_of x = nid_of s ->
  workSet_has (workSet_add ws s) x = true.
Proof.
  intros H. unfold workSet_add. destruct (workSet_has ws s) eqn:E.
  - destruct H as [H | H]; [exact H|].
    apply workSet_has_In. rewrite H. apply workSet_has_In. exact E.
  - unfold workSet_has. rewrite existsb_app. apply orb_true_iff.
    destruct H as [H | H]; [left; exact H|].
    right. simpl. rewrite H, Nat.eqb_refl. reflexivity.
Qed.

Lemma workSet_addAll_has (l ws : list SelectionNode) (x : SelectionNode) :
  workSet_has ws x = true \/ In (nid_of x) (map nid_of l) ->
  workSet_has (workSet_addAll ws l) x = true.
Proof.
  unfold workSet_addAll. revert ws.
  induction l as [|y l IH]; intros ws H; simpl.
  - destruct H as [H | []]. exact H.
  - apply IH. destruct H as [H | [H | H]].
    + left. apply workSet_add_has. left. exact H.
    + left. apply workSet_add_has. right. symmetry. exact H.
    + right. exact H.
Qed.
(** ** Every write returns or throws *)

Lemma array_map_terminates {A B : Type} (f : A -> M B) (l : list A) :
  Forall (fun x => forall s, terminates (f x s)) l ->
  forall s, terminates (array_map f l s).
Proof.
  induction 1 as [|x r Hx Hr IH]; intros s; simpl.
  - discriminate.
  - unfold terminates. rewrite bind_OutOfFuel. intros [E | (y & s' & _ & E)].
    + exact (Hx s E).
    + apply bind_OutOfFuel in E. destruct E as [E | (r' & s'' & _ & E)].
      * exact (IH s' E).
      * discriminate.
Qed.

Lemma height_items (l : list value) (x : value) :
  In x l -> (height x < height (VArr l))%nat.
Proof.
  simpl. induction l as [|y l IH]; intros H; [destruct H|].
  destruct H as [-> | H]; [lia|]. specialize (IH H). lia.
Qed.

Lemma height_fields (fs : StoreObject) (k : string) (x : value) :
  assoc k fs = Some x -> (height x < height (VObj fs))%nat.
Proof.
  simpl. induction fs as [|[k' y] fs IH]; intros H; simpl in H; [discriminate|].
  destruct (String.eqb k k').
  - inversion H; subst. lia.
  - specialize (IH H). lia.
Qed.

Lemma assoc_In (k : string) (fs : StoreObject) (x : value) :
  assoc k fs = Some x -> exists k', In (k', x) fs.
Proof.
  induction fs as [|[k' y] fs IH]; simpl; intros H; [discriminate|].
  destruct (String.eqb k k').
  - inversion H. exists k'. left. reflexivity.
  - destruct (IH H) as [k'' Hk]. exists k''. right. exact Hk.
Qed.

(** A property that is present is a proper part of the object. *)
Lemma height_get_prop (r : value) (k : string) :
  get_prop r k <> VUndef -> (height (get_prop r k) < height r)%nat.
Proof.
  unfold get_prop. destruct (assoc k (props r)) as [x|] eqn:E.
  - intros _. destruct r; simpl in E; try discriminate.
    + apply height_items. apply assoc_In in E. destruct E as [k' E].
      eapply in_combine_r, E.
    + eapply height_fields, E.
  - destruct r; try congruence. destruct (String.eqb k "length"); [|congruence].
    intros _. simpl. lia.
Qed.

(** ** Reading a result *)

(** An own property is what the read finds. *)
Lemma js_get_own (env : Env) (r : value) (k : string) :
  get_prop r k <> VUndef -> js_get env r k = get_prop r k.
Proof.
  unfold js_get, get_prop. destruct (assoc k (props r)) as [x|]; [reflexivity|].
  destruct r; try congruence. destruct (String.eqb k "length"); congruence.
Qed.

(** A read that finds nothing: there is no own property with a value. *)
Lemma js_get_undefined (env : Env) (r : value) (k : string) :
  js_get env r k = VUndef -> get_prop r k = VUndef.
Proof.
  unfold js_get, get_prop. destruct (assoc k (props r)) as [x|]; [tauto|].
  destruct r; try reflexivity. destruct (String.eqb k "length"); [discriminate|].
  reflexivity.
Qed.

(** What the read finds on an object, a null-prototype object, and
    scalars. *)
Example js_get_cases :
  js_get Demo.demoEnv (VObj [("id", VStr "1")]) "id" = VStr "1"
  /\ js_get Demo.demoEnv (VObj [("id", VStr "1")]) "toString"
     = VNative "Object.prototype.toString"
  /\ js_get Demo.demoEnv (VObj [("toString", VNull)]) "toString" = VNull
  /\ js_get Demo.demoEnv (VObj [("id", VStr "1")]) "text" = VUndef
  /\ js_get Demo.demoEnv VBare "toString" = VUndef
  /\ js_get Demo.demoEnv (VStr "abc") "length" = VNum 3
  /\ js_get Demo.demoEnv (VStr "abc") "charAt" = VNative "String.prototype.charAt"
  /\ js_get Demo.demoEnv (VNum 5) "hasOwnProperty"
     = VNative "Object.prototype.hasOwnProperty"
  /\ js_get Demo.demoEnv (VArr [VNull]) "0" = VNull
  /\ js_get Demo.demoEnv (VArr [VNull]) "length" = VNum 1
  /\ js_get Demo.demoEnv (VRef "Todo:1") "__ref" = VStr "Todo:1".
Proof. repeat split; reflexivity. Qed.

Lemma height_inherited (own : bool) (proto k : string) :
  height (inherited own proto k) = O.
Proof.
  unfold inherited. destruct own; [reflexivity|].
  destruct (existsb (String.eqb k) objectPrototype); reflexivity.
Qed.

(** What a read finds is a proper part of the object, or a built-in, which
    has no parts. *)
Lemma height_js_get (env : Env) (r : value) (k : string) :
  js_get env r k <> VUndef -> (height (js_get env r k) < height r)%nat.
Proof.
  intros H. unfold js_get in *.
  destruct (assoc k (props r)) as [x|] eqn:E.
  - assert (Hg : get_prop r k = x) by (unfold get_prop; rewrite E; reflexivity).
    rewrite <- Hg. apply height_get_prop. rewrite Hg. exact H.
  - destruct r; try congruence;
      try (destruct (String.eqb k "length"); [simpl; lia|]);
      try (destruct (String.eqb k "__ref"); [simpl; lia|]);
      rewrite height_inherited; simpl; lia.
Qed.

Section Termination.

Variable this : StoreWriter.
Variable env : Env.

(** The guard returns, and touches nothing but the [warnings] set and the
    console. *)
Lemma warnAboutDataLoss_frame (existingRef incomingObj : value) (k : string) (st : State) :
  exists st', warnAboutDataLoss env existingRef incomingObj k st = Ok tt st' /\
    store st' = store st /\ written st' = written st /\
    shouldApplyMerges st' = shouldApplyMerges st /\
    evictions st' = evictions st.
Proof.
  unfold warnAboutDataLoss, bind, get, ret, modify.
  repeat match goal with
         | |- context [if ?b then _ else _] => destruct b
         end; eexists; (split; [reflexivity|]); simpl; auto.
Qed.

Lemma warnPass_frame (d : string) (typename : value) (mergedFields : StoreObject) (st : State) :
  exists st', warnPass this env d typename mergedFields st = Ok tt st' /\
    store st' = store st /\ written st' = written st /\
    shouldApplyMerges st' = shouldApplyMerges st /\
    evictions st' = evictions st.
Proof.
  unfold warnPass. generalize (keys (VObj mergedFields)) as ks.
  intros ks. revert st. induction ks as [|k ks IH]; intros st; simpl.
  - exists st. unfold ret. auto.
  - unfold bind at 1.
    destruct (negb (hasMergeFunction (policies this) typename
                      (fieldNameFromStoreName env k))).
    + destruct (warnAboutDataLoss_frame (makeReference d) (VObj mergedFields) k st)
        as (st1 & -> & E1 & E2 & E3 & E4).
      destruct (IH st1) as (st2 & -> & F1 & F2 & F3 & F4).
      exists st2. repeat split; congruence.
    + unfold ret. apply IH.
Qed.

Lemma commitEntity_returns (context : WriteContext) (d : string) (typename : value)
    (mergedFields : StoreObject) (st : State) :
  exists st', commitEntity this env context d typename mergedFields st
              = Ok (makeReference d) st'.
Proof.
  unfold commitEntity. unfold bind at 1. unfold get at 1.
  set (mf := if shouldApplyMerges st then _ else mergedFields).
  unfold bind at 1.
  assert (H : exists st1, (if negb (production env) then warnPass this env d typename mf
                           else ret tt) st = Ok tt st1).
  { destruct (negb (production env)).
    - destruct (warnPass_frame d typename mf st) as (st1 & E & _). eauto.
    - exists st. reflexivity. }
  destruct H as (st1 & ->).
  unfold bind, modify, ret.
  destruct (negb (String.eqb d "ROOT_QUERY") && truthy (get_prop (VObj mf) "maxAge"));
    eexists; reflexivity.
Qed.

Lemma processFieldValue_terminates (pss : value -> SelectionSetNode -> M value)
    (n : nat) (field : SelectionNode) :
  (forall x ss s, (height x < n)%nat -> terminates (pss x ss s)) ->
  forall v s, (height v < n)%nat ->
    terminates (processFieldValue env pss v field s).
Proof.
  intros Hpss v. induction v as [v Hv | l IH] using value_array_ind; intros s Hn.
  - destruct v; try discriminate Hv; simpl;
      destruct (field_selectionSet field); try discriminate;
      apply Hpss; exact Hn.
  - simpl. destruct (field_selectionSet field); [|discriminate].
    unfold terminates. rewrite bind_OutOfFuel.
    intros [E | (y & s' & _ & E)]; [|discriminate].
    revert E. apply array_map_terminates.
    rewrite Forall_forall in IH |- *. intros x Hx sx.
    apply list_elem_of_In in Hx.
    apply IH; [apply list_elem_of_In; exact Hx|].
    pose proof (height_items l x Hx). lia.
Qed.

End Termination.

(** Induction on selections that sees through inline fragments. *)
Section SelectionInlineInd.

Variable P : SelectionNode -> Prop.
Hypothesis P_field : forall n a nm ds ss, P (Field n a nm ds ss).
Hypothesis P_spread : forall n nm ds, P (FragmentSpread n nm ds).
Hypothesis P_inline : forall n tc ds id l,
  Forall P l -> P (InlineFragment n tc ds (SelectionSet id l)).

Fixpoint selection_inline_ind (s : SelectionNode) : P s :=
  match s as s0 return P s0 with
  | Field n a nm ds ss => P_field n a nm ds ss
  | FragmentSpread n nm ds => P_spread n nm ds
  | InlineFragment n tc ds (SelectionSet id l) =>
      P_inline n tc ds id l
        ((fix go (l : list SelectionNode) : Forall P l :=
            match l with
            | [] => @List.Forall_nil SelectionNode P
            | x :: r => @List.Forall_cons SelectionNode P x r (selection_inline_ind x) (go r)
            end) l)
  end.

End SelectionInlineInd.

Lemma spliceable_self (x : SelectionNode) : In x (spliceable x).
Proof. destruct x; simpl; auto. Qed.

Lemma spliceable_closed (x s : SelectionNode) :
  In s (spliceable x) -> incl (inline_children s) (spliceable x).
Proof.
  revert s. induction x as [| |n tc ds id l IH] using selection_inline_ind; intros s Hs.
  - destruct Hs as [<- | []]. intros y [].
  - destruct Hs as [<- | []]. intros y [].
  - simpl in Hs. destruct Hs as [<- | Hs].
    + simpl. intros y Hy. right. apply in_flat_map. exists y. split; [exact Hy|].
      apply spliceable_self.
    + apply in_flat_map in Hs. destruct Hs as (y & Hy & Hs).
      rewrite Forall_forall in IH.
      intros z Hz. simpl. right. apply in_flat_map. exists y. split; [exact Hy|].
      apply list_elem_of_In in Hy. exact (IH y Hy s Hs z Hz).
Qed.

Lemma spliceable_set_closed (ss : SelectionSetNode) (s : SelectionNode) :
  In s (spliceable_set ss) -> incl (inline_children s) (spliceable_set ss).
Proof.
  unfold spliceable_set. intros Hs y Hy.
  apply in_flat_map in Hs. destruct Hs as (x & Hx & Hs).
  apply in_flat_map. exists x. split; [exact Hx|].
  exact (spliceable_closed x s Hs y Hy).
Qed.

Lemma selections_spliceable (ss : SelectionSetNode) :
  incl (selections_of ss) (spliceable_set ss).
Proof.
  intros x Hx. apply in_flat_map. exists x. split; [exact Hx|]. apply spliceable_self.
Qed.

Lemma fragmentMap_get_In (n : string) (m : FragmentMap) (d : FragmentDefinitionNode) :
  fragmentMap_get n m = Some d -> exists k, In (k, d) m.
Proof.
  induction m as [|[k x] m IH]; simpl; intros H; [discriminate|].
  destruct (String.eqb n k).
  - inversion H; subst. exists k. left. reflexivity.
  - destruct (IH H) as [k' Hk]. exists k'. right. exact Hk.
Qed.

(** The universe holds whatever a fragment of one of its nodes splices in. *)
Lemma universe_closed (ss : SelectionSetNode) (m : FragmentMap)
    (s : SelectionNode) (f : Fragment) :
  In s (universe ss m) ->
  getFragmentFromSelection s m = Some f ->
  incl (fragment_selections f) (universe ss m).
Proof.
  intros Hs Hf. destruct s as [| n nm ds | n tc ds ss']; simpl in Hf.
  - discriminate.
  - destruct (fragmentMap_get nm m) as [d|] eqn:E; [|discriminate].
    inversion Hf; subst. simpl. apply fragmentMap_get_In in E. destruct E as [k Hk].
    intros y Hy. unfold universe. apply in_or_app. right.
    apply in_flat_map. exists (k, d). split; [exact Hk|].
    simpl. apply selections_spliceable, Hy.
  - inversion Hf; subst. simpl. unfold universe in *.
    apply in_app_or in Hs. intros y Hy. apply in_or_app. destruct Hs as [Hs | Hs].
    + left. exact (spliceable_set_closed ss _ Hs y Hy).
    + right. apply in_flat_map in Hs. destruct Hs as (kd & Hkd & Hs).
      apply in_flat_map. exists kd. split; [exact Hkd|].
      exact (spliceable_set_closed _ _ Hs y Hy).
Qed.

Section WalkTermination.

Variable this : StoreWriter.
Variable env : Env.
Variable pfv : value -> SelectionNode -> M value.
Variable result typename : value.
Variable context : WriteContext.
Variable U : list SelectionNode.

Hypothesis U_closed : forall s f,
  In s U -> getFragmentFromSelection s (fragmentMap context) = Some f ->
  incl (fragment_selections f) U.

Lemma visit_workSet (selection : SelectionNode) (ws ws' : list SelectionNode)
    (mf mf' : StoreObject) (st st' : State) :
  visit this env pfv result typename context selection ws mf st = Ok (ws', mf') st' ->
  In selection U -> workSet_ok U ws ->
  workSet_ok U ws' /\ exists extra, ws' = ws ++ extra.
Proof.
  intros H Hsel [Hnd Hincl].
  assert (Hsame : workSet_ok U ws /\ exists extra, ws = ws ++ extra).
  { split; [split; assumption|]. exists []. rewrite app_nil_r. reflexivity. }
  unfold visit in H.
  destruct (negb (shouldInclude env selection (variables context))).
  { inversion H; subst. exact Hsame. }
  destruct (isField selection).
  - destruct (negb (is_undefined (js_get env result (resultKeyNameFromField selection)))).
    + apply bind_Ok in H. destruct H as ([] & s1 & _ & H).
      apply bind_Ok in H. destruct H as (v1 & s2 & _ & H).
      apply bind_Ok in H. destruct H as (v2 & s3 & _ & H).
      inversion H; subst. exact Hsame.
    + destruct (usingPossibleTypes (policies this) &&
                negb (hasDirectives env ["defer"; "client"] selection)).
      * discriminate.
      * inversion H; subst. exact Hsame.
  - destruct (getFragmentFromSelection selection (fragmentMap context)) as [f|] eqn:Ef.
    + destruct (fragmentMatches (policies this) f typename).
      * inversion H; subst. split; [split|].
        -- apply workSet_addAll_NoDup, Hnd.
        -- apply workSet_addAll_incl; [exact Hincl|]. exact (U_closed _ _ Hsel Ef).
        -- apply workSet_addAll_prefix.
      * inversion H; subst. exact Hsame.
    + inversion H; subst. exact Hsame.
Qed.

Hypothesis pfv_terminates : forall k selection s,
  js_get env result k <> VUndef -> terminates (pfv (js_get env result k) selection s).

Lemma visit_terminates (selection : SelectionNode) (ws : list SelectionNode)
    (mf : StoreObject) (st : State) :
  terminates (visit this env pfv result typename context selection ws mf st).
Proof.
  unfold visit, terminates.
  destruct (negb (shouldInclude env selection (variables context))); [discriminate|].
  destruct (isField selection).
  - destruct (negb (is_undefined (js_get env result (resultKeyNameFromField selection))))
      eqn:Eu.
    + rewrite bind_OutOfFuel. intros [E | (u & s1 & E1 & E)]; [discriminate|].
      rewrite bind_OutOfFuel in E. destruct E as [E | (x1 & s2 & _ & E)].
      { revert E. apply pfv_terminates. intros Hu. rewrite Hu in Eu. discriminate. }
      rewrite bind_OutOfFuel in E. destruct E as [E | (x2 & s3 & _ & E)]; [|discriminate].
      destruct (hasMergeFunction (policies this) typename (name_value selection));
        discriminate.
    + destruct (usingPossibleTypes (policies this) &&
                negb (hasDirectives env ["defer"; "client"] selection)); discriminate.
  - destruct (getFragmentFromSelection selection (fragmentMap context)) as [f|];
      [destruct (fragmentMatches (policies this) f typename)|]; discriminate.
Qed.

Lemma walk_terminates (fuel : nat) :
  forall (ws : list SelectionNode) (i : nat) (mf : StoreObject) (st : State),
  workSet_ok U ws -> (length U <= fuel + i)%nat ->
  terminates (walk this env pfv result typename context fuel ws i mf st).
Proof.
  induction fuel as [|fuel IH]; intros ws i mf st Hok Hlen; simpl.
  - destruct (nth_error ws i) as [sel|] eqn:E; [|discriminate].
    exfalso. assert (Hi : (i < length ws)%nat) by (apply nth_error_Some; congruence).
    destruct Hok as [Hnd Hincl].
    assert (Hle : (length (map nid_of ws) <= length (map nid_of U))%nat).
    { apply submseteq_length, NoDup_submseteq; [exact Hnd|].
      intros x Hx. apply list_elem_of_In. apply list_elem_of_In in Hx.
      revert x Hx. apply incl_map, Hincl. }
    rewrite !length_map in Hle. lia.
  - destruct (nth_error ws i) as [sel|] eqn:E; [|discriminate].
    unfold terminates. rewrite bind_OutOfFuel. intros [H | ([ws' mf'] & s' & Hv & H)].
    + exact (visit_terminates sel ws mf st H).
    + assert (Hsel : In sel U) by (apply Hok; eapply nth_error_In, E).
      destruct (visit_workSet _ _ _ _ _ _ _ Hv Hsel Hok) as [Hok' _].
      simpl in H. revert H. apply IH; [exact Hok'|lia].
Qed.

End WalkTermination.

Section WriteTermination.

Variable this : StoreWriter.
Variable env : Env.

Lemma initial_workSet_ok (ss : SelectionSetNode) (m : FragmentMap) :
  workSet_ok (universe ss m) (workSet_addAll [] (selections_of ss)).
Proof.
  split.
  - apply workSet_addAll_NoDup. simpl. apply NoDup_nil_2.
  - apply workSet_addAll_incl.
    + intros x [].
    + intros x Hx. unfold universe. apply in_or_app. left.
      apply selections_spliceable, Hx.
Qed.

Lemma writeFields_terminates (pss : value -> SelectionSetNode -> M value)
    (context : WriteContext) (n : nat) (dataId : value) (keyObject : option StoreObject)
    (result : value) (ss : SelectionSetNode) (st : State) :
  (forall x ss' s, (height x < n)%nat -> terminates (pss x ss' s)) ->
  (height result <= n)%nat ->
  terminates (writeFields this env pss context dataId keyObject result ss st).
Proof.
  intros Hpss Hh. unfold writeFields, terminates.
  rewrite bind_OutOfFuel. intros [E | (st0 & s0 & E0 & E)]; [discriminate|].
  inversion E0; subst st0 s0. clear E0.
  rewrite bind_OutOfFuel in E. destruct E as [E | (walked & s1 & _ & E)].
  - revert E. unfold walkFields.
    apply walk_terminates with (U := universe ss (fragmentMap context)).
    + intros s f. apply universe_closed.
    + intros k sel s Hk. apply processFieldValue_terminates with (n := n).
      * exact Hpss.
      * pose proof (height_js_get env result k Hk). lia.
    + apply initial_workSet_ok.
    + lia.
  - destruct (as_string dataId) as [d|]; [|discriminate].
    destruct (commitEntity_returns this env context d
                (resolveTypename this env context dataId result ss (store st))
                (snd walked) s1) as [st' Hc].
    rewrite Hc in E. discriminate.
Qed.

Lemma processSelectionSet_terminates (depth : nat) :
  forall (context : WriteContext) (dataId : option string) (result : value)
         (ss : SelectionSetNode) (st : State),
  (height result < depth)%nat ->
  terminates (processSelectionSet this env depth context dataId result ss st).
Proof.
  induction depth as [|depth IH]; intros context dataId result ss st Hh; [lia|].
  simpl. unfold processSelectionSet_body.
  destruct (identify (policies this) result ss (fragmentMap context))
    as [e | [id keyObject]]; [discriminate|].
  assert (Hw : forall dataId' s,
             terminates (writeFields this env
                           (fun v ss' => processSelectionSet this env depth context None v ss')
                           context dataId' keyObject result ss s)).
  { intros dataId' s. apply writeFields_terminates with (n := depth).
    - intros x ss' s' Hx. apply IH, Hx.
    - lia. }
  destruct (as_string (js_or (ostr dataId) (ostr id))) as [d|]; [|apply Hw].
  unfold terminates, bind, get, modify, ret.
  destruct (existsb _ _); [discriminate|].
  destruct (match reader this with Some _ => _ | None => _ end); [discriminate|].
  apply Hw.
Qed.

(** [writeToStore] returns or throws on every input. *)
Lemma writeToStore_terminates (o : WriteToStoreOptions) (st : State) :
  terminates (writeToStore this env o st).
Proof.
  unfold writeToStore, terminates.
  rewrite bind_OutOfFuel. intros [E | (u1 & s1 & _ & E)]; [discriminate|].
  rewrite bind_OutOfFuel in E. destruct E as [E | (objOrRef & s3 & _ & E)].
  - revert E. apply processSelectionSet_terminates. lia.
  - destruct (rootReference (wr_dataId o) objOrRef); discriminate.
Qed.

End WriteTermination.

(** ** Relations between the state before and after

    [R] relates the state a computation starts in to the state it ends in,
    whether it returns or throws. *)

Section Respects.

Variable R : State -> State -> Prop.
Hypothesis R_refl : forall s, R s s.
Hypothesis R_trans : forall s1 s2 s3, R s1 s2 -> R s2 s3 -> R s1 s3.

Lemma respects_ret {A : Type} (a : A) : respects R (ret a).
Proof. intros st st' H. inversion H; subst. apply R_refl. Qed.

Lemma respects_throw {A : Type} (e : Error) : respects R (@throw A e).
Proof. intros st st' H. inversion H; subst. apply R_refl. Qed.

Lemma respects_out_of_fuel {A : Type} : respects R (@out_of_fuel A).
Proof. intros st st' H. discriminate. Qed.

Lemma respects_get : respects R get.
Proof. intros st st' H. inversion H; subst. apply R_refl. Qed.

Lemma respects_modify (f : State -> State) :
  (forall s, R s (f s)) -> respects R (modify f).
Proof. intros Hf st st' H. inversion H; subst. apply Hf. Qed.

Lemma respects_bind {A B : Type} (m : M A) (k : A -> M B) :
  respects R m -> (forall a, respects R (k a)) -> respects R (bind m k).
Proof.
  intros Hm Hk st st' H. unfold bind in H.
  destruct (m st) as [a s1 | e s1 |] eqn:E.
  - apply R_trans with s1; [apply Hm; rewrite E; reflexivity|].
    eapply Hk, H.
  - apply Hm. rewrite E. exact H.
  - discriminate.
Qed.

(** [get] followed by a continuation that may look at the state. *)
Lemma respects_bind_get {B : Type} (k : State -> M B) :
  (forall s, respects R (k s)) -> respects R (bind get k).
Proof. intros Hk st st' H. unfold bind, get in H. eapply Hk, H. Qed.

Lemma respects_array_map {A B : Type} (f : A -> M B) (l : list A) :
  Forall (fun x => respects R (f x)) l -> respects R (array_map f l).
Proof.
  induction 1 as [|x r Hx Hr IH]; simpl.
  - apply respects_ret.
  - apply respects_bind; [exact Hx|]. intros y.
    apply respects_bind; [exact IH|]. intros r'. apply respects_ret.
Qed.

Lemma respects_forEach {A : Type} (body : A -> M unit) (l : list A) :
  (forall x, respects R (body x)) -> respects R (forEach body l).
Proof.
  intros Hb. induction l as [|x l IH]; simpl.
  - apply respects_ret.
  - apply respects_bind; [apply Hb|]. intros _. exact IH.
Qed.

Variable this : StoreWriter.
Variable env : Env.

(** What the writer does to the state, step by step. *)
Hypothesis R_log : forall e s, R s (add_log e s).
Hypothesis R_flag : forall s, R s (set_shouldApplyMerges true s).
Hypothesis R_written : forall d n s,
  R s (set_written (fun w => <[d := default [] (written s !! d) ++ [n]]> w) s).
Hypothesis R_warnings : forall x s, R s (set_warnings (fun w => {[x]} ∪ w) s).
Hypothesis R_eviction : forall e s, R s (add_eviction e s).
Hypothesis R_merge : forall d mf s, R s (set_store (store_merge d mf) s).

Lemma respects_warnAboutDataLoss (existingRef incomingObj : value) (k : string) :
  respects R (warnAboutDataLoss env existingRef incomingObj k).
Proof.
  unfold warnAboutDataLoss. apply respects_bind_get. intros st.
  repeat match goal with
         | |- context [if ?b then _ else _] => destruct b
         end;
    try apply respects_ret.
  apply respects_bind; [apply respects_modify, R_warnings|].
  intros _. apply respects_modify, R_log.
Qed.

Lemma respects_commitEntity (context : WriteContext) (d : string) (typename : value)
    (mf : StoreObject) :
  respects R (commitEntity this env context d typename mf).
Proof.
  unfold commitEntity. apply respects_bind_get. intros st.
  apply respects_bind.
  { destruct (negb (production env)); [|apply respects_ret].
    unfold warnPass. apply respects_forEach. intros k. cbv beta.
    destruct (negb (hasMergeFunction _ _ _)); [|apply respects_ret].
    apply respects_warnAboutDataLoss. }
  intros _. apply respects_bind.
  { destruct (negb (String.eqb d "ROOT_QUERY") && _); [|apply respects_ret].
    apply respects_modify, R_eviction. }
  intros _. apply respects_bind; [apply respects_modify, R_merge|].
  intros _. apply respects_bind; [apply respects_modify, R_log|].
  intros _. apply respects_ret.
Qed.

Lemma respects_processFieldValue (pss : value -> SelectionSetNode -> M value)
    (field : SelectionNode) :
  (forall x ss, respects R (pss x ss)) ->
  forall v, respects R (processFieldValue env pss v field).
Proof.
  intros Hpss v. induction v as [v Hv | l IH] using value_array_ind.
  - destruct v; try discriminate Hv; simpl;
      destruct (field_selectionSet field); try apply respects_ret; apply Hpss.
  - simpl. destruct (field_selectionSet field); [|apply respects_ret].
    apply respects_bind; [|intros; apply respects_ret].
    apply respects_array_map. exact IH.
Qed.

Lemma respects_visit (pfv : value -> SelectionNode -> M value)
    (result typename : value) (context : WriteContext)
    (selection : SelectionNode) (ws : list SelectionNode) (mf : StoreObject) :
  (forall v f, respects R (pfv v f)) ->
  respects R (visit this env pfv result typename context selection ws mf).
Proof.
  intros Hpfv. unfold visit.
  destruct (negb (shouldInclude _ _ _)); [apply respects_ret|].
  destruct (isField selection).
  - destruct (negb (is_undefined _)).
    + apply respects_bind; [apply respects_modify, R_log|]. intros _.
      apply respects_bind; [apply Hpfv|]. intros v.
      apply respects_bind; [|intros; apply respects_ret].
      destruct (hasMergeFunction _ _ _); [|apply respects_ret].
      apply respects_bind; [apply respects_modify, R_flag|].
      intros _. apply respects_ret.
    + destruct (_ && _); [apply respects_throw|apply respects_ret].
  - destruct (getFragmentFromSelection _ _) as [f|]; [|apply respects_ret].
    destruct (fragmentMatches _ _ _); apply respects_ret.
Qed.

Lemma respects_walk (pfv : value -> SelectionNode -> M value)
    (result typename : value) (context : WriteContext) (fuel : nat) :
  (forall v f, respects R (pfv v f)) ->
  forall ws i mf, respects R (walk this env pfv result typename context fuel ws i mf).
Proof.
  intros Hpfv. induction fuel as [|fuel IH]; intros ws i mf; simpl;
    destruct (nth_error ws i); try apply respects_ret.
  - apply respects_out_of_fuel.
  - apply respects_bind; [apply respects_visit, Hpfv|]. intros next. apply IH.
Qed.

Lemma respects_writeFields (pss : value -> SelectionSetNode -> M value)
    (context : WriteContext) (dataId : value) (keyObject : option StoreObject)
    (result : value) (ss : SelectionSetNode) :
  (forall x ss', respects R (pss x ss')) ->
  respects R (writeFields this env pss context dataId keyObject result ss).
Proof.
  intros Hpss. unfold writeFields. apply respects_bind_get. intros st.
  apply respects_bind.
  - unfold walkFields.
    apply respects_walk. intros v f. apply respects_processFieldValue, Hpss.
  - intros walked. destruct (as_string dataId); [|apply respects_ret].
    apply respects_commitEntity.
Qed.

Lemma respects_processSelectionSet (depth : nat) :
  forall context dataId result ss,
  respects R (processSelectionSet this env depth context dataId result ss).
Proof.
  induction depth as [|depth IH]; intros context dataId result ss; simpl.
  - apply respects_out_of_fuel.
  - unfold processSelectionSet_body.
    destruct (identify _ _ _ _) as [e | [id keyObject]]; [apply respects_throw|].
    assert (Hw : forall dataId', respects R
              (writeFields this env
                 (fun v ss' => processSelectionSet this env depth context None v ss')
                 context dataId' keyObject result ss)).
    { intros dataId'. apply respects_writeFields. intros x ss'. apply IH. }
    destruct (as_string _) as [d|]; [|apply Hw].
    intros st st'. unfold bind at 1. unfold get at 1.
    destruct (existsb _ _); [apply respects_ret|].
    unfold bind at 1. unfold modify at 1. intros H.
    (* the selection set is recorded in the state that was just read *)
    eapply R_trans; [apply (R_written d (ssid_of ss) st)|].
    revert H. apply respects_bind_get. intros st1.
    destruct (match reader this with Some _ => _ | None => _ end);
      [apply respects_ret|apply Hw].
Qed.


End Respects.

(** ** Selection sets already applied *)

Lemma written_extends_refl (s : State) : written_extends s s.
Proof. intros d n H. exact H. Qed.

Lemma written_extends_trans (s1 s2 s3 : State) :
  written_extends s1 s2 -> written_extends s2 s3 -> written_extends s1 s3.
Proof. intros H1 H2 d n H. apply H2, H1, H. Qed.

Lemma written_extends_record (d : string) (n : nat) (s : State) :
  written_extends s
    (set_written (fun w => <[d := default [] (written s !! d) ++ [n]]> w) s).
Proof.
  intros d' n' H. simpl. destruct (decide (d = d')) as [<- | Hne].
  - rewrite lookup_insert_eq. simpl. apply in_or_app. left. exact H.
  - rewrite lookup_insert_ne by exact Hne. exact H.
Qed.

Lemma written_extends_frame (s s' : State) :
  written s' = written s -> written_extends s s'.
Proof. intros E d n H. rewrite E. exact H. Qed.

Section Written.

Variable this : StoreWriter.
Variable env : Env.

(** A call never forgets a selection set that was recorded. *)
Lemma processSelectionSet_written_extends (depth : nat) (context : WriteContext)
    (dataId : option string) (result : value) (ss : SelectionSetNode) :
  respects written_extends (processSelectionSet this env depth context dataId result ss).
Proof.
  apply respects_processSelectionSet;
    first [ exact written_extends_refl | exact written_extends_trans
          | exact written_extends_record
          | intros; apply written_extends_frame; reflexivity ].
Qed.

(** The guard of lines 181-183. *)
Lemma processSelectionSet_shortcut (depth : nat) (context : WriteContext)
    (dataId : option string) (result : value) (ss : SelectionSetNode) (st : State)
    (id : option string) (keyObject : option StoreObject) (d : string) :
  identify (policies this) result ss (fragmentMap context) = inr (id, keyObject) ->
  js_or (ostr dataId) (ostr id) = VStr d ->
  applied st d ss ->
  processSelectionSet this env (S depth) context dataId result ss st
  = Ok (makeReference d) st.
Proof.
  intros Hid Hd Ha. simpl. unfold processSelectionSet_body.
  rewrite Hid, Hd. simpl. unfold bind at 1. unfold get at 1.
  assert (E : existsb (Nat.eqb (ssid_of ss)) (default [] (written st !! d)) = true).
  { apply existsb_exists. exists (ssid_of ss). split; [exact Ha|]. apply Nat.eqb_refl. }
  rewrite E. reflexivity.
Qed.

Lemma processSelectionSet_new (depth : nat) (context : WriteContext)
    (dataId : option string) (result : value) (ss : SelectionSetNode) (st : State)
    (id : option string) (keyObject : option StoreObject) (d : string) :
  identify (policies this) result ss (fragmentMap context) = inr (id, keyObject) ->
  js_or (ostr dataId) (ostr id) = VStr d ->
  ~ applied st d ss ->
  processSelectionSet this env (S depth) context dataId result ss st
  = applyOnce this env depth context d keyObject result ss st.
Proof.
  intros Hid Hd Ha. simpl. unfold processSelectionSet_body, applyOnce.
  rewrite Hid, Hd. simpl. unfold bind at 1. unfold get at 1.
  assert (E : existsb (Nat.eqb (ssid_of ss)) (default [] (written st !! d)) = false).
  { apply not_true_is_false. intros H. apply Ha.
    apply existsb_exists in H. destruct H as (n & Hn & En).
    apply Nat.eqb_eq in En. subst n. exact Hn. }
  rewrite E. reflexivity.
Qed.

(** Once a call for [d] and [ss] is over, [ss] is recorded for [d]. *)
Lemma processSelectionSet_records (depth : nat) (context : WriteContext)
    (dataId : option string) (result : value) (ss : SelectionSetNode) (st st' : State)
    (id : option string) (keyObject : option StoreObject) (d : string) :
  identify (policies this) result ss (fragmentMap context) = inr (id, keyObject) ->
  js_or (ostr dataId) (ostr id) = VStr d ->
  final_state (processSelectionSet this env depth context dataId result ss st) = Some st' ->
  applied st' d ss.
Proof.
  intros Hid Hd H. destruct depth as [|depth]; [discriminate|].
  destruct (in_dec Nat.eq_dec (ssid_of ss) (default [] (written st !! d))) as [Ha | Ha].
  - rewrite (processSelectionSet_shortcut _ _ _ _ _ _ _ _ _ Hid Hd Ha) in H.
    inversion H; subst. exact Ha.
  - rewrite (processSelectionSet_new _ _ _ _ _ _ _ _ _ Hid Hd Ha) in H.
    unfold applyOnce in H. unfold bind at 1 in H. unfold modify at 1 in H.
    set (st1 := set_written _ st) in H.
    assert (H1 : applied st1 d ss).
    { unfold applied, st1. simpl. rewrite lookup_insert_eq. simpl.
      apply in_or_app. right. left. reflexivity. }
    assert (Hx : written_extends st1 st').
    { eapply (respects_bind_get written_extends); [|exact H].
      assert (Hw : respects written_extends
                (writeFields this env
                   (fun v ss' => processSelectionSet this env depth context None v ss')
                   context (VStr d) keyObject result ss)).
      { apply respects_writeFields;
          first [ exact written_extends_refl | exact written_extends_trans
                | intros x ss'; apply processSelectionSet_written_extends
                | intros; apply written_extends_frame; reflexivity ]. }
      intros s. destruct (reader this) as [r|]; [|exact Hw].
      destruct (isFresh r result d ss (store s) (variables context)); [|exact Hw].
      apply respects_ret. exact written_extends_refl. }
    apply Hx, H1.
Qed.

End Written.

(** ** Exceptions are not caught *)

Section Propagation.

Variable this : StoreWriter.
Variable env : Env.

Lemma array_map_propagates {A B : Type} (f : A -> M B) (before : list A) (x : A)
    (after : list A) (ys : list B) (s s1 s' : State) (e : Error) :
  array_map f before s = Ok ys s1 ->
  f x s1 = Throw e s' ->
  array_map f (before ++ x :: after) s = Throw e s'.
Proof.
  revert ys s. induction before as [|b before IH]; intros ys s Hb Hx; simpl in *.
  - inversion Hb; subst. apply bind_propagates, Hx.
  - apply bind_Ok in Hb. destruct Hb as (y & s2 & Hy & Hb).
    apply bind_Ok in Hb. destruct Hb as (ys' & s3 & Hys & Hb).
    inversion Hb; subst.
    unfold bind at 1. rewrite Hy. apply bind_propagates. eapply IH; eassumption.
Qed.

(** An exception of the nested call is the exception of [processFieldValue]. *)
Lemma processFieldValue_propagates (pss : value -> SelectionSetNode -> M value)
    (v : value) (field : SelectionNode) (ss : SelectionSetNode)
    (s s' : State) (e : Error) :
  field_selectionSet field = Some ss ->
  isArray v = false -> v <> VNull ->
  pss v ss s = Throw e s' ->
  processFieldValue env pss v field s = Throw e s'.
Proof.
  intros Hss Ha Hn H. destruct v; try discriminate Ha; try congruence;
    simpl; rewrite Hss; exact H.
Qed.

(** An exception while an element is processed is the exception of the whole
    array. *)
Lemma processFieldValue_array_propagates (pss : value -> SelectionSetNode -> M value)
    (before : list value) (x : value) (after : list value) (field : SelectionNode)
    (ss : SelectionSetNode) (ys : list value) (s s1 s' : State) (e : Error) :
  field_selectionSet field = Some ss ->
  array_map (fun item => processFieldValue env pss item field) before s = Ok ys s1 ->
  processFieldValue env pss x field s1 = Throw e s' ->
  processFieldValue env pss (VArr (before ++ x :: after)) field s = Throw e s'.
Proof.
  intros Hss Hb Hx. simpl. rewrite Hss. apply bind_propagates.
  eapply array_map_propagates; eassumption.
Qed.

(** An exception while the value of a field is processed is the exception of
    the callback. *)
Lemma visit_propagates (pfv : value -> SelectionNode -> M value)
    (result typename : value) (context : WriteContext) (selection : SelectionNode)
    (ws : list SelectionNode) (mf : StoreObject) (s s' : State) (e : Error) :
  shouldInclude env selection (variables context) = true ->
  isField selection = true ->
  js_get env result (resultKeyNameFromField selection) <> VUndef ->
  pfv (js_get env result (resultKeyNameFromField selection)) selection
      (add_log (EvField (nid_of selection)) s) = Throw e s' ->
  visit this env pfv result typename context selection ws mf s = Throw e s'.
Proof.
  intros Hinc Hf Hv H. unfold visit. rewrite Hinc, Hf. simpl.
  destruct (js_get env result (resultKeyNameFromField selection)) eqn:E;
    try congruence; simpl;
    unfold bind at 1; unfold modify at 1; apply bind_propagates; exact H.
Qed.



(** [writeToStore] throws exactly what its call of [processSelectionSet]
    throws, in the state the exception left. *)
Lemma writeToStore_throws (o : WriteToStoreOptions) (s s' : State) (e : Error) :
  writeToStore this env o s = Throw e s' <->
  processRoot this env o (freshWrite s) = Throw e s'.
Proof.
  unfold writeToStore. unfold bind at 1. unfold modify at 1. split.
  - intros H. apply bind_Throw in H. destruct H as [H | (v & s1 & _ & H)]; [exact H|].
    destruct (rootReference (wr_dataId o) v); discriminate.
  - intros H. apply bind_propagates, H.
Qed.

End Propagation.

(** ** Copies and element-wise maps *)

(** Induction on values through arrays and objects. *)
Section ValueDeepInd.

Variable P : value -> Prop.
Hypothesis P_leaf : forall v, isArray v = false ->
  (forall fs, v <> VObj fs) -> P v.
Hypothesis P_array : forall l, Forall P l -> P (VArr l).
Hypothesis P_object : forall fs, Forall (fun kv => P (snd kv)) fs -> P (VObj fs).

Fixpoint value_deep_ind (v : value) : P v.
Proof.
  destruct v as [| | b | z | s | l | fs | id | f t x | n |].
  - apply P_leaf; [reflexivity | discriminate].
  - apply P_leaf; [reflexivity | discriminate].
  - apply P_leaf; [reflexivity | discriminate].
  - apply P_leaf; [reflexivity | discriminate].
  - apply P_leaf; [reflexivity | discriminate].
  - apply P_array. induction l as [|y l IH].
    + apply List.Forall_nil.
    + apply List.Forall_cons; [apply value_deep_ind | exact IH].
  - apply P_object. induction fs as [|[k y] fs IH].
    + apply List.Forall_nil.
    + apply List.Forall_cons; [apply value_deep_ind | exact IH].
  - apply P_leaf; [reflexivity | discriminate].
  - apply P_leaf; [reflexivity | discriminate].
  - apply P_leaf; [reflexivity | discriminate].
  - apply P_leaf; [reflexivity | discriminate].
Defined.

End ValueDeepInd.

(** The copy is equal to the original. *)
Lemma cloneDeep_equal (v : value) : cloneDeep v = v.
Proof.
  induction v as [v Ha Ho | l IH | fs IH] using value_deep_ind.
  - destruct v; try reflexivity; [discriminate Ha | exfalso; eapply Ho; reflexivity].
  - simpl. f_equal. induction IH as [|x l Hx _ IHl]; simpl; [reflexivity|].
    rewrite Hx, IHl. reflexivity.
  - simpl. f_equal. induction IH as [|[k x] fs Hx _ IHfs]; simpl; [reflexivity|].
    simpl in Hx. rewrite Hx, IHfs. reflexivity.
Qed.

(** [array.map] gives as many elements, each the image of the element in its
    place. *)
Lemma array_map_Forall2 {A B : Type} (f : A -> M B) (l : list A) :
  forall (ys : list B) (s s' : State),
  array_map f l s = Ok ys s' ->
  Forall2 (fun x y => exists s1 s2, f x s1 = Ok y s2) l ys.
Proof.
  induction l as [|x l IH]; intros ys s s' H; simpl in H.
  - inversion H; subst. constructor.
  - apply bind_Ok in H. destruct H as (y & s1 & Hy & H).
    apply bind_Ok in H. destruct H as (ys' & s2 & Hys & H).
    inversion H; subst. constructor; [eauto|]. eapply IH, Hys.
Qed.

(** ** What [processSelectionSet] returns *)

Section Returns.

Variable this : StoreWriter.
Variable env : Env.

(** With an identifier the result is the Reference to it; without one it is
    the accumulator, in the state the walk left. *)
Lemma writeFields_returns (pss : value -> SelectionSetNode -> M value)
    (context : WriteContext) (dataId : value) (keyObject : option StoreObject)
    (result : value) (ss : SelectionSetNode) (st st' : State) (r : value) :
  writeFields this env pss context dataId keyObject result ss st = Ok r st' ->
  match as_string dataId with
  | Some d => r = makeReference d
  | None =>
      exists walked,
        walkFields this env pss context result
          (resolveTypename this env context dataId result ss (store st)) ss
          (initialFields keyObject
             (resolveTypename this env context dataId result ss (store st))) st
        = Ok walked st' /\ r = VObj (snd walked)
  end.
Proof.
  unfold writeFields. unfold bind at 1. unfold get at 1. intros H.
  apply bind_Ok in H. destruct H as (walked & s1 & Hw & H).
  destruct (as_string dataId) as [d|].
  - destruct (commitEntity_returns this env context d
                (resolveTypename this env context dataId result ss (store st))
                (snd walked) s1) as [s2 Hc].
    rewrite Hc in H. inversion H. reflexivity.
  - inversion H; subst. exists walked. split; [exact Hw | reflexivity].
Qed.


Lemma processSelectionSet_reference (depth : nat) (context : WriteContext)
    (dataId : option string) (result : value) (ss : SelectionSetNode)
    (st st' : State) (id : option string) (keyObject : option StoreObject) (r : value) :
  identify (policies this) result ss (fragmentMap context) = inr (id, keyObject) ->
  processSelectionSet this env depth context dataId result ss st = Ok r st' ->
  match as_string (js_or (ostr dataId) (ostr id)) with
  | Some d => r = makeReference d
  | None => exists mergedFields, r = VObj mergedFields
  end.
Proof.
  intros Hid H. destruct depth as [|depth]; [discriminate|].
  simpl in H. unfold processSelectionSet_body in H. rewrite Hid in H.
  destruct (as_string (js_or (ostr dataId) (ostr id))) as [d|] eqn:Ed.
  - unfold bind at 1 in H. unfold get at 1 in H.
    destruct (existsb _ _); [inversion H; reflexivity|].
    unfold bind at 1 in H. unfold modify at 1 in H.
    unfold bind at 1 in H. unfold get at 1 in H.
    destruct (reader this) as [rd|].
    + destruct (isFresh rd _ _ _ _ _); [inversion H; reflexivity|].
      apply writeFields_returns in H. rewrite Ed in H. exact H.
    + apply writeFields_returns in H. rewrite Ed in H. exact H.
  - apply writeFields_returns in H. rewrite Ed in H.
    destruct H as (walked & _ & ->). eauto.
Qed.

(** Without an identifier the call is the walk, and the accumulator it
    returns. *)
Lemma processSelectionSet_inline (depth : nat) (context : WriteContext)
    (dataId : option string) (result : value) (ss : SelectionSetNode)
    (st : State) (id : option string) (keyObject : option StoreObject) :
  identify (policies this) result ss (fragmentMap context) = inr (id, keyObject) ->
  js_or (ostr dataId) (ostr id) = VUndef ->
  processSelectionSet this env (S depth) context dataId result ss st
  = (let* walked :=
       walkFields this env
         (fun v ss' => processSelectionSet this env depth context None v ss')
         context result
         (resolveTypename this env context VUndef result ss (store st)) ss
         (initialFields keyObject
            (resolveTypename this env context VUndef result ss (store st))) in
     ret (VObj (snd walked))) st.
Proof.
  intros Hid Hd. simpl. unfold processSelectionSet_body. rewrite Hid, Hd. simpl.
  unfold writeFields. unfold bind at 1. unfold get at 1. reflexivity.
Qed.

End Returns.

(** ** Keys of merged records *)

Lemma set_prop_keys (k : string) (v : value) (l : StoreObject) (k' : string) :
  In k' (map fst (set_prop k v l)) <-> k' = k \/ In k' (map fst l).
Proof.
  induction l as [|[k0 v0] l IH]; simpl.
  - split; [intros [<- | []]; auto | intros [-> | []]; auto].
  - destruct (String.eqb k k0) eqn:E; simpl.
    + apply String.eqb_eq in E. subst k0. split; [intros [<- | H]|intros [-> | [<- | H]]]; auto.
    + rewrite IH. split; [intros [<- | [-> | H]]|intros [-> | [<- | H]]]; auto.
Qed.

Lemma assoc_set_prop_eq (k : string) (v : value) (l : StoreObject) :
  assoc k (set_prop k v l) = Some v.
Proof.
  induction l as [|[k0 v0] l IH]; simpl.
  - rewrite String.eqb_refl. reflexivity.
  - destruct (String.eqb k k0) eqn:E; simpl; rewrite ?String.eqb_refl, ?E; auto.
Qed.

Lemma assoc_set_prop_ne (k k' : string) (v : value) (l : StoreObject) :
  k' <> k -> assoc k' (set_prop k v l) = assoc k' l.
Proof.
  intros Hne. induction l as [|[k0 v0] l IH]; simpl.
  - apply String.eqb_neq in Hne. rewrite Hne. reflexivity.
  - destruct (String.eqb k k0) eqn:E; simpl.
    + apply String.eqb_eq in E. subst k0.
      apply String.eqb_neq in Hne. rewrite Hne. reflexivity.
    + rewrite IH. reflexivity.
Qed.

Lemma assoc_keys (k : string) (l : StoreObject) :
  In k (map fst l) <-> exists v, assoc k l = Some v.
Proof.
  induction l as [|[k0 v0] l IH]; simpl.
  - split; [intros [] | intros [v H]; discriminate].
  - destruct (String.eqb k k0) eqn:E.
    + apply String.eqb_eq in E. subst k0. split; eauto.
    + apply String.eqb_neq in E. rewrite <- IH. split; [intros [H | H]|]; auto.
      congruence.
Qed.

Lemma merge_fields_unfold (existing incoming : StoreObject) :
  merge_fields existing incoming = merge_into incoming existing.
Proof.
  unfold merge_fields. simpl. revert existing.
  induction incoming as [|[k v] r IH]; intros existing; simpl; [reflexivity|].
  apply IH.
Qed.

Lemma merge_into_keys (incoming acc : StoreObject) (k : string) :
  In k (map fst (merge_into incoming acc)) <->
  In k (map fst acc) \/ In k (map fst incoming).
Proof.
  revert acc. induction incoming as [|[k0 v0] r IH]; intros acc; simpl.
  - split; [auto | intros [H | []]; exact H].
  - rewrite IH, set_prop_keys. split.
    + intros [[-> | H] | H]; auto.
    + intros [H | [<- | H]]; auto.
Qed.

(** The merged record has the keys of both records. *)
Lemma merge_fields_keys (existing incoming : StoreObject) (k : string) :
  In k (map fst (merge_fields existing incoming)) <->
  In k (map fst existing) \/ In k (map fst incoming).
Proof. rewrite merge_fields_unfold. apply merge_into_keys. Qed.





(** ** The accumulator and the committed record *)

Section Accumulator.

Variable this : StoreWriter.
Variable env : Env.

(** The callback never removes a key from the accumulator. *)
Lemma visit_keys (pfv : value -> SelectionNode -> M value)
    (result typename : value) (context : WriteContext) (selection : SelectionNode)
    (ws ws' : list SelectionNode) (mf mf' : StoreObject) (st st' : State) :
  visit this env pfv result typename context selection ws mf st = Ok (ws', mf') st' ->
  incl (map fst mf) (map fst mf').
Proof.
  intros H. unfold visit in H.
  destruct (negb (shouldInclude env selection (variables context)));
    [inversion H; subst; apply incl_refl|].
  destruct (isField selection).
  - destruct (negb (is_undefined (js_get env result (resultKeyNameFromField selection)))).
    + apply bind_Ok in H. destruct H as ([] & s1 & _ & H).
      apply bind_Ok in H. destruct H as (v1 & s2 & _ & H).
      apply bind_Ok in H. destruct H as (v2 & s3 & _ & H).
      inversion H; subst. intros k Hk. apply merge_fields_keys. left. exact Hk.
    + destruct (usingPossibleTypes (policies this) &&
                negb (hasDirectives env ["defer"; "client"] selection));
        [discriminate | inversion H; subst; apply incl_refl].
  - destruct (getFragmentFromSelection selection (fragmentMap context)) as [f|];
      [destruct (fragmentMatches (policies this) f typename)|];
      inversion H; subst; apply incl_refl.
Qed.

Lemma walk_keys (pfv : value -> SelectionNode -> M value)
    (result typename : value) (context : WriteContext) (fuel : nat) :
  forall (ws : list SelectionNode) (i : nat) (mf : StoreObject) (st : State)
         (walked : list SelectionNode * StoreObject) (st' : State),
  walk this env pfv result typename context fuel ws i mf st = Ok walked st' ->
  incl (map fst mf) (map fst (snd walked)).
Proof.
  induction fuel as [|fuel IH]; intros ws i mf st walked st' H; simpl in H;
    destruct (nth_error ws i) as [sel|]; try discriminate;
    try (inversion H; subst; apply incl_refl).
  apply bind_Ok in H. destruct H as ([ws1 mf1] & s1 & Hv & H).
  apply visit_keys in Hv. apply IH in H. simpl in H.
  eapply incl_tran; eassumption.
Qed.


(** What [commitEntity] leaves: one more record merged into the store, and
    logged last. *)
Lemma commitEntity_record (context : WriteContext) (d : string) (typename : value)
    (mf : StoreObject) (st st' : State) (r : value) :
  commitEntity this env context d typename mf st = Ok r st' ->
  exists committed,
    committed = (if shouldApplyMerges st
                 then applyMerges (policies this) d mf (store st) (variables context)
                 else mf)
    /\ r = makeReference d
    /\ store st' = store_merge d committed (store st)
    /\ exists events, log st' = events ++ [EvMerge d committed].
Proof.
  unfold commitEntity. unfold bind at 1. unfold get at 1.
  set (committed := if shouldApplyMerges st then _ else mf).
  intros H. exists committed. split; [reflexivity|].
  apply bind_Ok in H. destruct H as ([] & s1 & H1 & H).
  assert (E1 : store s1 = store st).
  { destruct (negb (production env)).
    - destruct (warnPass_frame this env d typename committed st) as (s1' & E & Es & _).
      rewrite E in H1. inversion H1; subst. exact Es.
    - inversion H1. reflexivity. }
  apply bind_Ok in H. destruct H as ([] & s2 & H2 & H).
  assert (E2 : store s2 = store st).
  { destruct (negb (String.eqb d "ROOT_QUERY") && _);
      inversion H2; subst; exact E1. }
  unfold bind, modify, ret in H. inversion H; subst.
  split; [reflexivity|]. split.
  - simpl. rewrite E2. reflexivity.
  - simpl. eauto.
Qed.

End Accumulator.

(** ** The Reference that [writeToStore] returns *)

Lemma rootReference_cases (dataId id : option string) (objOrRef : value) :
  match as_string (js_or (ostr dataId) (ostr id)) with
  | Some d => objOrRef = makeReference d
  | None => exists mergedFields, objOrRef = VObj mergedFields
  end ->
  (exists d, js_or (ostr dataId) (ostr id) = VStr d
             /\ rootReference dataId objOrRef = makeReference d
             /\ identified dataId id)
  \/ (js_or (ostr dataId) (ostr id) = VUndef
      /\ rootReference dataId objOrRef = VUndef
      /\ ~ identified dataId id).
Proof.
  unfold identified.
  destruct dataId as [a|]; [destruct (String.eqb a "") eqn:Ea|];
    destruct id as [b|]; unfold js_or; simpl; rewrite ?Ea; simpl; intros Hr.
  - left. exists b. subst objOrRef. split; [reflexivity|]. split; [reflexivity|].
    right. eauto.
  - right. destruct Hr as (mf & ->). split; [reflexivity|]. split.
    + unfold rootReference, with_dataId, js_and, js_or. simpl. rewrite Ea. simpl.
      rewrite Ea. reflexivity.
    + apply String.eqb_eq in Ea. intros [(d & E & Hne) | (d & E)]; [|discriminate].
      inversion E; subst. contradiction.
  - left. exists a. subst objOrRef. split; [reflexivity|]. split; [reflexivity|].
    left. exists a. split; [reflexivity|]. apply String.eqb_neq, Ea.
  - left. exists a. subst objOrRef. split; [reflexivity|]. split; [reflexivity|].
    left. exists a. split; [reflexivity|]. apply String.eqb_neq, Ea.
  - left. exists b. subst objOrRef. split; [reflexivity|]. split; [reflexivity|].
    right. eauto.
  - right. destruct Hr as (mf & ->). split; [reflexivity|]. split; [reflexivity|].
    intros [(d & E & _) | (d & E)]; discriminate.
Qed.

(** ** Nodes and keys are held once *)



Section Once.

Variable this : StoreWriter.
Variable env : Env.




End Once.

(** ** The data-loss guard *)

Section Guard.

Variable this : StoreWriter.
Variable env : Env.

Lemma getChild_objectShaped (c : NormalizedCache) (k : string) (o : value) :
  truthy (getChild c k o) = objectShaped (getFieldValue c o k)
  /\ (objectShaped (getFieldValue c o k) = true -> getChild c k o = getFieldValue c o k).
Proof.
  unfold getChild, objectShaped.
  destruct (getFieldValue c o k); simpl; split; try reflexivity; discriminate.
Qed.

Lemma warnAboutDataLoss_unfold (existingRef incomingObj : value) (k : string) (st : State) :
  warnAboutDataLoss env existingRef incomingObj k st
  = if noWarningNeeded (store st) existingRef incomingObj k then Ok tt st
    else if bool_decide (typeDotName env (store st) existingRef incomingObj k ∈ warnings st)
         then Ok tt st
         else Ok tt (add_log (dataLossWarning env (store st) existingRef incomingObj k)
                       (set_warnings
                          (fun w => {[typeDotName env (store st) existingRef incomingObj k]} ∪ w)
                          st)).
Proof.
  unfold warnAboutDataLoss, noWarningNeeded, typeDotName, dataLossWarning.
  unfold bind at 1. unfold get at 1.
  destruct (getChild_objectShaped (store st) k existingRef) as [Te Ee].
  destruct (getChild_objectShaped (store st) k incomingObj) as [Ti Ei].
  rewrite Te. destruct (objectShaped (getFieldValue (store st) existingRef k)); simpl;
    [|reflexivity].
  rewrite Ti. destruct (objectShaped (getFieldValue (store st) incomingObj k)); simpl;
    [|reflexivity].
  rewrite (Ee eq_refl), (Ei eq_refl).
  destruct (isReference (getFieldValue (store st) existingRef k)); simpl; [reflexivity|].
  destruct (equal _ _); simpl; [reflexivity|].
  destruct (forallb _ _); simpl; [reflexivity|].
  destruct (bool_decide _); reflexivity.
Qed.

End Guard.

Section Lifetime.

Variable this : StoreWriter.
Variable env : Env.

Lemma writeToStore_warnings_extend (o : WriteToStoreOptions) :
  respects warnings_extend (writeToStore this env o).
Proof.
  assert (Hrefl : forall s, warnings_extend s s) by (intros s; unfold warnings_extend; set_solver).
  assert (Htrans : forall s1 s2 s3, warnings_extend s1 s2 -> warnings_extend s2 s3 ->
                                    warnings_extend s1 s3)
    by (unfold warnings_extend; set_solver).
  unfold writeToStore.
  apply respects_bind; [exact Htrans | |].
  { apply respects_modify. intros s. unfold warnings_extend. simpl. set_solver. }
  intros _. apply respects_bind; [exact Htrans | |].
  { apply respects_processSelectionSet;
      first [ exact Hrefl | exact Htrans
            | intros; unfold warnings_extend; simpl; set_solver ]. }
  intros objOrRef. destruct (rootReference (wr_dataId o) objOrRef);
    try (apply respects_ret; exact Hrefl).
  apply respects_bind; [exact Htrans | |].
  { apply respects_modify. intros s. unfold warnings_extend. simpl. set_solver. }
  intros _. apply respects_bind; [exact Htrans | |].
  { apply respects_modify. intros s. unfold warnings_extend. simpl. set_solver. }
  intros _. apply respects_ret. exact Hrefl.
Qed.

(** In production the commit prints no warning and leaves the [warnings]
    set alone. *)
Lemma commitEntity_production (context : WriteContext) (d : string) (typename : value)
    (mf : StoreObject) (st st' : State) (r : value) :
  production env = true ->
  commitEntity this env context d typename mf st = Ok r st' ->
  warnings st' = warnings st
  /\ exists committed, log st' = log st ++ [EvMerge d committed].
Proof.
  intros Hp. unfold commitEntity. rewrite Hp. simpl.
  unfold bind, get, modify, ret.
  destruct (negb (String.eqb d "ROOT_QUERY") && _); intros H; inversion H; subst;
    simpl; eauto.
Qed.

End Lifetime.

(** ** Eviction jobs *)


Lemma jobsFor_addJob (name d d' : string) (t : Z) (q : Queue) :
  jobsFor d (addJob name d' t q)
  = jobsFor d q ++ (if String.eqb d' d
                    then [{| job_id := nextJobId q; workerName := name;
                             payload_id := d'; executionTime := t |}]
                    else []).
Proof.
  unfold jobsFor, addJob. simpl. rewrite List.filter_app. simpl.
  destruct (String.eqb d' d); reflexivity.
Qed.



Section EvictionFacts.

Variable this : StoreWriter.
Variable env : Env.

(** The commit leaves a callback for the queue exactly when the identifier
    is not [ROOT_QUERY] and the committed record has a truthy [maxAge]. *)
Lemma commitEntity_eviction (context : WriteContext) (d : string) (typename : value)
    (mf : StoreObject) (st st' : State) (r : value) :
  commitEntity this env context d typename mf st = Ok r st' ->
  exists committed,
    committed = (if shouldApplyMerges st
                 then applyMerges (policies this) d mf (store st) (variables context)
                 else mf)
    /\ evictions st'
       = evictions st
         ++ (if negb (String.eqb d "ROOT_QUERY")
                && truthy (get_prop (VObj committed) "maxAge")
             then [(d, get_prop (VObj committed) "maxAge")]
             else []).
Proof.
  unfold commitEntity. unfold bind at 1. unfold get at 1.
  set (committed := if shouldApplyMerges st then _ else mf).
  intros H. exists committed. split; [reflexivity|].
  apply bind_Ok in H. destruct H as ([] & s1 & H1 & H).
  assert (E1 : evictions s1 = evictions st).
  { destruct (negb (production env)).
    - destruct (warnPass_frame this env d typename committed st)
        as (s1' & E & _ & _ & _ & Ee).
      rewrite E in H1. inversion H1; subst. exact Ee.
    - inversion H1. reflexivity. }
  apply bind_Ok in H. destruct H as ([] & s2 & H2 & H).
  unfold bind, modify, ret in H. inversion H; subst. simpl.
  destruct (negb (String.eqb d "ROOT_QUERY") && _);
    inversion H2; subst; simpl; rewrite E1, ?app_nil_r; reflexivity.
Qed.

End EvictionFacts.
(** ** What a walk that returns has done *)



Lemma workSet_has_app (ws extra : list SelectionNode) (x : SelectionNode) :
  workSet_has ws x = true -> workSet_has (ws ++ extra) x = true.
Proof.
  unfold workSet_has. rewrite existsb_app. intros ->. reflexivity.
Qed.

(** A list of nodes with labels of their own, none of them in the set, is
    added as it is. *)
Lemma workSet_addAll_distinct (l ws : list SelectionNode) :
  NoDup (map nid_of (ws ++ l)) -> workSet_addAll ws l = ws ++ l.
Proof.
  unfold workSet_addAll. revert ws.
  induction l as [|x l IH]; intros ws H; simpl; [rewrite app_nil_r; reflexivity|].
  assert (Hx : workSet_has ws x = false).
  { apply not_true_is_false. intros Hhas. apply workSet_has_In in Hhas.
    rewrite map_app in H. apply NoDup_app in H. destruct H as (_ & Hd & _).
    apply (Hd (nid_of x)); apply list_elem_of_In; [exact Hhas | left; reflexivity]. }
  unfold workSet_add at 2. rewrite Hx.
  rewrite IH by (rewrite <- app_assoc; exact H).
  rewrite <- app_assoc. reflexivity.
Qed.

Section WalkFacts.

Variable this : StoreWriter.
Variable env : Env.
Variable pfv : value -> SelectionNode -> M value.
Variable result typename : value.
Variable context : WriteContext.

(** The ways the callback returns. *)
Lemma visit_cases (selection : SelectionNode) (ws : list SelectionNode)
    (mf : StoreObject) (st : State) (next : list SelectionNode * StoreObject)
    (st' : State) :
  visit this env pfv result typename context selection ws mf st = Ok next st' ->
  fst next = spliced this env typename context selection ws
  /\ ((processed env context result selection = true
       /\ exists r s1,
            pfv (js_get env result (resultKeyNameFromField selection)) selection
              (add_log (EvField (nid_of selection)) st) = Ok r s1
            /\ snd next
               = merge_fields mf
                   [(getStoreFieldName (policies this) typename selection
                       (variables context),
                     if hasMergeFunction (policies this) typename (name_value selection)
                     then VToBeMerged selection typename r else r)]
            /\ st' = (if hasMergeFunction (policies this) typename (name_value selection)
                      then set_shouldApplyMerges true s1 else s1))
      \/ (processed env context result selection = false
          /\ snd next = mf /\ st' = st
          /\ (shouldInclude env selection (variables context) = true ->
              isField selection = true ->
              usingPossibleTypes (policies this)
              && negb (hasDirectives env ["defer"; "client"] selection) = false))).
Proof.
  unfold visit, processed, spliced.
  destruct (shouldInclude env selection (variables context)) eqn:Hinc; simpl.
  2:{ intros H. inversion H; subst. split; [reflexivity|]. right. simpl.
      repeat split; auto; discriminate. }
  destruct (isField selection) eqn:Hf; simpl.
  - destruct (negb (is_undefined (js_get env result (resultKeyNameFromField selection))))
      eqn:Hu.
    + intros H.
      unfold bind at 1 in H. unfold modify at 1 in H.
      apply bind_Ok in H. destruct H as (r & s1 & Hr & H).
      assert (E : next
                  = (ws, merge_fields mf
                           [(getStoreFieldName (policies this) typename selection
                               (variables context),
                             if hasMergeFunction (policies this) typename
                                  (name_value selection)
                             then VToBeMerged selection typename r else r)])
                  /\ st' = (if hasMergeFunction (policies this) typename
                                 (name_value selection)
                            then set_shouldApplyMerges true s1 else s1)).
      { destruct (hasMergeFunction (policies this) typename (name_value selection));
          unfold bind, modify, ret in H; inversion H; subst; auto. }
      destruct E as [-> ->]. split; [reflexivity|]. left. split; [reflexivity|].
      exists r, s1. auto.
    + destruct (usingPossibleTypes (policies this)
                && negb (hasDirectives env ["defer"; "client"] selection)) eqn:Hs;
        [discriminate|].
      intros H. inversion H; subst. split; [reflexivity|]. right. simpl.
      repeat split; auto.
  - intros H.
    destruct (getFragmentFromSelection selection (fragmentMap context)) as [f|] eqn:Ef;
      [destruct (fragmentMatches (policies this) f typename) eqn:Em|];
      inversion H; subst; simpl; (split; [reflexivity|]); right;
      repeat split; auto; discriminate.
Qed.

Lemma spliced_prefix (selection : SelectionNode) (ws : list SelectionNode) :
  exists extra, spliced this env typename context selection ws = ws ++ extra.
Proof.
  unfold spliced.
  destruct (_ && _);
    [destruct (getFragmentFromSelection selection (fragmentMap context)) as [f|];
     [destruct (fragmentMatches (policies this) f typename)|]|];
    try (exists []; rewrite app_nil_r; reflexivity).
  apply workSet_addAll_prefix.
Qed.

Lemma visit_prefix (selection : SelectionNode) (ws : list SelectionNode)
    (mf : StoreObject) (st : State) (next : list SelectionNode * StoreObject)
    (st' : State) :
  visit this env pfv result typename context selection ws mf st = Ok next st' ->
  exists extra, fst next = ws ++ extra.
Proof.
  intros H. apply visit_cases in H. destruct H as [-> _]. apply spliced_prefix.
Qed.

Lemma walk_prefix (fuel : nat) :
  forall (ws : list SelectionNode) (i : nat) (mf : StoreObject) (st : State)
         (walked : list SelectionNode * StoreObject) (st' : State),
  walk this env pfv result typename context fuel ws i mf st = Ok walked st' ->
  exists extra, fst walked = ws ++ extra.
Proof.
  induction fuel as [|fuel IH]; intros ws i mf st walked st' H; simpl in H;
    destruct (nth_error ws i) as [sel|]; try discriminate;
    try (inversion H; subst; exists []; rewrite app_nil_r; reflexivity).
  apply bind_Ok in H. destruct H as (next & s1 & Hv & H).
  apply visit_prefix in Hv. destruct Hv as [e1 E1].
  apply IH in H. destruct H as [e2 E2].
  exists (e1 ++ e2). rewrite E2, E1, app_assoc. reflexivity.
Qed.

(** The walk, one step unfolded, with the node it is at found in the work
    set it ends with. *)
Lemma walk_step (fuel : nat) (ws : list SelectionNode) (i : nat) (mf : StoreObject)
    (st : State) (walked : list SelectionNode * StoreObject) (st' : State) :
  walk this env pfv result typename context fuel ws i mf st = Ok walked st' ->
  (nth_error ws i = None /\ walked = (ws, mf) /\ st' = st
   /\ forall j, (i <= j)%nat -> nth_error (fst walked) j = None)
  \/ exists fuel' sel next s1,
       fuel = S fuel'
       /\ nth_error ws i = Some sel
       /\ nth_error (fst walked) i = Some sel
       /\ visit this env pfv result typename context sel ws mf st = Ok next s1
       /\ walk this env pfv result typename context fuel' (fst next) (S i) (snd next) s1
          = Ok walked st'.
Proof.
  intros H. destruct fuel as [|fuel]; simpl in H;
    destruct (nth_error ws i) as [sel|] eqn:Ei; try discriminate.
  - left. inversion H; subst. repeat split; auto. intros j Hj. simpl.
    apply nth_error_None. apply nth_error_None in Ei. lia.
  - right. apply bind_Ok in H. destruct H as (next & s1 & Hv & H).
    exists fuel, sel, next, s1. repeat split; auto.
    destruct (visit_prefix _ _ _ _ _ _ Hv) as [e1 E1].
    destruct (walk_prefix _ _ _ _ _ _ _ H) as [e2 E2].
    rewrite E2, E1, <- app_assoc.
    rewrite nth_error_app1 by (apply nth_error_Some; congruence). exact Ei.
  - left. inversion H; subst. repeat split; auto. intros j Hj. simpl.
    apply nth_error_None. apply nth_error_None in Ei. lia.
Qed.

(** When the walk returns, the callback has returned on every node of the
    work set from where the walk started: it threw on none. *)
Lemma walk_visits (fuel : nat) :
  forall (ws : list SelectionNode) (i : nat) (mf : StoreObject) (st : State)
         (walked : list SelectionNode * StoreObject) (st' : State),
  walk this env pfv result typename context fuel ws i mf st = Ok walked st' ->
  forall j x,
    (i <= j)%nat -> nth_error (fst walked) j = Some x ->
    exists ws0 mf0 s0 next s1,
      visit this env pfv result typename context x ws0 mf0 s0 = Ok next s1
      /\ walk this env pfv result typename context (fuel + i - S j) (fst next) (S j)
           (snd next) s1 = Ok walked st'.
Proof.
  induction fuel as [|fuel IH]; intros ws i mf st walked st' H j x Hij Hj;
    apply walk_step in H;
    destruct H as [(_ & _ & _ & Hnone) | (fuel' & sel & next & s1 & Ef & Ei & Ew & Hv & H)];
    try (rewrite (Hnone j Hij) in Hj; discriminate); try discriminate.
  inversion Ef; subst fuel'.
  destruct (Nat.eq_dec j i) as [-> | Hne].
  - assert (x = sel) by congruence. subst x.
    exists ws, mf, st, next, s1. split; [exact Hv|].
    replace (S fuel + i - S i)%nat with fuel by lia. exact H.
  - destruct (IH _ _ _ _ _ _ H j x ltac:(lia) Hj) as (ws0 & mf0 & s0 & n0 & s2 & Hv0 & Hw0).
    exists ws0, mf0, s0, n0, s2. split; [exact Hv0|].
    replace (S fuel + i - S j)%nat with (fuel + S i - S j)%nat by lia. exact Hw0.
Qed.

End WalkFacts.

Section WalkResults.

Variable this : StoreWriter.
Variable env : Env.
Variable pfv : value -> SelectionNode -> M value.
Variable result typename : value.
Variable context : WriteContext.

Lemma walk_settles (fuel : nat) (ws : list SelectionNode) (i : nat) (mf : StoreObject)
    (st : State) (walked : list SelectionNode * StoreObject) (st' : State) :
  walk this env pfv result typename context fuel ws i mf st = Ok walked st' ->
  forall j selection,
    (i <= j)%nat -> nth_error (fst walked) j = Some selection ->
    settled this env result typename context selection walked.
Proof.
  intros H j selection Hij Hj.
  destruct (walk_visits this env pfv result typename context fuel ws i mf st walked st'
              H j selection Hij Hj) as (ws0 & mf0 & s0 & next & s1 & Hv & Hw).
  apply visit_cases in Hv. destruct Hv as [Hnext Hv].
  intros Hinc. split.
  - intros Hf Hpresent.
    assert (Hp : processed env context result selection = true).
    { unfold processed. rewrite Hinc, Hf, (js_get_own _ _ _ Hpresent). simpl.
      destruct (get_prop result (resultKeyNameFromField selection));
        try reflexivity; congruence. }
    destruct Hv as [(_ & r & s2 & _ & Hmf & _) | (Hn & _)]; [|congruence].
    eapply walk_keys; [exact Hw|]. rewrite Hmf.
    apply merge_fields_keys. right. left. reflexivity.
  - intros Hf f x Hfrag Hmatch Hx.
    destruct (walk_prefix this env pfv result typename context _ _ _ _ _ _ _ Hw)
      as [extra E].
    rewrite E. apply workSet_has_app. rewrite Hnext. unfold spliced.
    rewrite Hinc, Hf, Hfrag, Hmatch. simpl.
    apply workSet_addAll_has. right. apply in_map, Hx.
Qed.


(** *** The events of a walk *)

Hypothesis pfv_log : forall v f s r s', pfv v f s = Ok r s' -> log_extends s s'.


End WalkResults.

(** ** The log only grows *)

Lemma log_extends_refl (s : State) : log_extends s s.
Proof. exists []. rewrite app_nil_r. reflexivity. Qed.

Lemma log_extends_trans (s1 s2 s3 : State) :
  log_extends s1 s2 -> log_extends s2 s3 -> log_extends s1 s3.
Proof.
  intros [e1 E1] [e2 E2]. exists (e1 ++ e2). rewrite E2, E1, app_assoc. reflexivity.
Qed.

Lemma log_extends_frame (s s' : State) : log s' = log s -> log_extends s s'.
Proof. intros E. exists []. rewrite E, app_nil_r. reflexivity. Qed.

Lemma processSelectionSet_log (this : StoreWriter) (env : Env) (depth : nat)
    (context : WriteContext) (dataId : option string) (result : value)
    (ss : SelectionSetNode) :
  respects log_extends (processSelectionSet this env depth context dataId result ss).
Proof.
  apply (respects_processSelectionSet log_extends log_extends_refl log_extends_trans
           this env);
    try (intros; apply log_extends_frame; reflexivity).
  intros e s. exists [e]. reflexivity.
Qed.


(** ** From a call to its walk *)

Section CallFacts.

Variable this : StoreWriter.
Variable env : Env.





End CallFacts.

(** ** The value the accumulator holds under a key *)




Section NullFacts.

Variable this : StoreWriter.
Variable env : Env.
Variable pss : value -> SelectionSetNode -> M value.
Variable result typename : value.
Variable context : WriteContext.





End NullFacts.

(** ** Each node once *)



Section WalkKeys.

Variable this : StoreWriter.
Variable env : Env.
Variable pfv : value -> SelectionNode -> M value.
Variable result typename : value.
Variable context : WriteContext.


End WalkKeys.

(** ** The selections a walk comes to *)

Section Reach.

Variable this : StoreWriter.
Variable env : Env.
Variable context : WriteContext.
Variable typename : value.
Variable ss : SelectionSetNode.



End Reach.


(** * The claims *)

(** C1.  Within one write, once a selection set (the object itself, by
    identity) has been applied to an identifier, applying it to that
    identifier again returns the Reference at once and leaves the state as it
    is: nothing is recorded, no field is resolved, nothing is committed.  A
    selection set that has not yet been applied to the identifier is not
    stopped by the guard: it is recorded, handed to the reader and walked, and
    from then on it is recorded as applied too. *)
Theorem no_double_processing
    (this : StoreWriter) (env : Env) (depth depth' : nat) (context : WriteContext)
    (dataId dataId' : option string) (result result' : value)
    (ss : SelectionSetNode) (st st1 st2 : State) (r : value)
    (id id' : option string) (keyObject keyObject' : option StoreObject)
    (d : string) :
  identify (policies this) result ss (fragmentMap context) = inr (id, keyObject) ->
  js_or (ostr dataId) (ostr id) = VStr d ->
  processSelectionSet this env depth context dataId result ss st = Ok r st1 ->
  written_extends st1 st2 ->
  identify (policies this) result' ss (fragmentMap context) = inr (id', keyObject') ->
  js_or (ostr dataId') (ostr id') = VStr d ->
  processSelectionSet this env (S depth') context dataId' result' ss st2
  = Ok (makeReference d) st2
  /\ forall (ss' : SelectionSetNode) (ko : option StoreObject) (i : option string),
       ~ applied st2 d ss' ->
       identify (policies this) result' ss' (fragmentMap context) = inr (i, ko) ->
       js_or (ostr dataId') (ostr i) = VStr d ->
       processSelectionSet this env (S depth') context dataId' result' ss' st2
       = applyOnce this env depth' context d ko result' ss' st2
       /\ forall st3,
            final_state (processSelectionSet this env (S depth') context dataId'
                           result' ss' st2) = Some st3 ->
            applied st3 d ss' /\ applied st3 d ss.
Proof.
  intros Hid Hd Hrun Hext Hid' Hd'.
  assert (Ha1 : applied st1 d ss).
  { eapply processSelectionSet_records; [exact Hid | exact Hd |].
    rewrite Hrun. reflexivity. }
  assert (Ha2 : applied st2 d ss) by (apply Hext, Ha1).
  split.
  - eapply processSelectionSet_shortcut; eassumption.
  - intros ss' ko i Hnew Hi Hdi. split.
    + eapply processSelectionSet_new; eassumption.
    + intros st3 H3. split.
      * eapply processSelectionSet_records; [exact Hi | exact Hdi | exact H3].
      * eapply processSelectionSet_written_extends; [exact H3 | exact Ha2].
Qed.

Lemma no_double_processing_witness :
  processSelectionSet Demo.writer Demo.demoEnv 1 Demo.context None Demo.todo
    Demo.todoSelection Demo.afterTodo
  = Ok (makeReference "Todo:1") Demo.afterTodo.
Proof.
  refine (proj1 (no_double_processing Demo.writer Demo.demoEnv 1 0 Demo.context
                   None None Demo.todo Demo.todo Demo.todoSelection
                   Demo.emptyState Demo.afterTodo Demo.afterTodo
                   (makeReference "Todo:1") (Some "Todo:1") (Some "Todo:1")
                   (Some [("id", VStr "1")]) (Some [("id", VStr "1")]) "Todo:1"
                   _ _ _ _ _ _)).
  - reflexivity.
  - reflexivity.
  - vm_compute. reflexivity.
  - intros d n H. exact H.
  - reflexivity.
  - reflexivity.
Defined.




(** C9.  [processFieldValue] returns a value that has no nested selection set,
    or that is [null], as it is: the value itself in production, a deep copy
    (equal to it) otherwise, and the state is untouched.  An array under a
    field with a selection set is mapped through [processFieldValue] element
    by element, from left to right; whenever an array is returned for an
    array, it has the same length, each element is the image of the element
    in its place, and a [null] element stays [null].  Any other value is
    handed to [processSelectionSet] with the selection set of the field, the
    same context and [out], and no [dataId]. *)
Theorem processFieldValue_cases
    (this : StoreWriter) (env : Env) (depth : nat) (context : WriteContext)
    (field : SelectionNode) (v : value) (st : State) :
  let pss := fun x ss => processSelectionSet this env depth context None x ss in
  (field_selectionSet field = None \/ v = VNull ->
     processFieldValue env pss v field st
     = Ok (if production env then v else cloneDeep v) st
     /\ cloneDeep v = v)
  /\ (forall items ss,
        v = VArr items -> field_selectionSet field = Some ss ->
        processFieldValue env pss v field st
        = (let* items' := array_map (fun item => processFieldValue env pss item field) items in
           ret (VArr items')) st)
  /\ (forall items r st',
        v = VArr items ->
        processFieldValue env pss v field st = Ok r st' ->
        exists items',
          r = VArr items' /\
          length items' = length items /\
          Forall2 (fun x y => exists s1 s2, processFieldValue env pss x field s1 = Ok y s2)
                  items items' /\
          forall i, nth_error items i = Some VNull -> nth_error items' i = Some VNull)
  /\ (forall ss,
        field_selectionSet field = Some ss -> isArray v = false -> v <> VNull ->
        processFieldValue env pss v field st
        = processSelectionSet this env depth context None v ss st).
Proof.
  intros pss.
  assert (Hnull : forall s, processFieldValue env pss VNull field s = Ok VNull s).
  { intros s. simpl. destruct (field_selectionSet field), (production env); reflexivity. }
  assert (Hplain : field_selectionSet field = None ->
            forall x s, processFieldValue env pss x field s
                        = Ok (if production env then x else cloneDeep x) s).
  { intros Hss x s. destruct x; simpl; rewrite Hss; reflexivity. }
  split; [|split; [|split]].
  - intros [Hss | ->]; split; try apply cloneDeep_equal.
    + apply Hplain, Hss.
    + rewrite Hnull. destruct (production env); reflexivity.
  - intros items ss -> Hss. simpl. rewrite Hss. reflexivity.
  - intros items r st' -> H.
    assert (Hall : exists items',
               r = VArr items' /\
               Forall2 (fun x y => exists s1 s2,
                          processFieldValue env pss x field s1 = Ok y s2) items items').
    { destruct (field_selectionSet field) as [ss|] eqn:Hss.
      - simpl in H. rewrite Hss in H.
        apply bind_Ok in H. destruct H as (items' & s1 & Hmap & H).
        inversion H; subst. exists items'. split; [reflexivity|].
        eapply array_map_Forall2, Hmap.
      - rewrite (Hplain eq_refl) in H. inversion H; subst. exists items.
        split; [destruct (production env);
                [reflexivity | exact (cloneDeep_equal (VArr items))]|].
        clear H. induction items as [|x items IH]; constructor; [|exact IH].
        exists st', st'. rewrite (Hplain eq_refl).
        destruct (production env); [reflexivity|].
        rewrite cloneDeep_equal. reflexivity. }
    destruct Hall as (items' & -> & Hall). exists items'.
    split; [reflexivity|]. split; [symmetry; eapply Forall2_length, Hall|].
    split; [exact Hall|].
    clear H. induction Hall as [|x y xs ys Hxy _ IH]; intros i Hi.
    + destruct i; discriminate.
    + destruct i as [|i]; simpl in *.
      * inversion Hi; subst. destruct Hxy as (s1 & s2 & Hxy).
        rewrite Hnull in Hxy. inversion Hxy. reflexivity.
      * apply IH, Hi.
  - intros ss Hss Ha Hn. destruct v; try discriminate Ha; try congruence;
      simpl; rewrite Hss; reflexivity.
Qed.

(** C7.  [processSelectionSet] returns a Reference only for an object that
    has an identifier ([dataId || id] is a string), and the Reference is to
    that identifier.  For an object without identifier the call is the walk
    of its fields and nothing more: it ends in the state the walk left, with
    no [store.merge] for the object, and returns the accumulator of the walk
    as an inline record. *)
Theorem reference_only_with_identifier
    (this : StoreWriter) (env : Env) (depth : nat) (context : WriteContext)
    (dataId : option string) (result : value) (ss : SelectionSetNode) (st : State)
    (id : option string) (keyObject : option StoreObject) :
  identify (policies this) result ss (fragmentMap context) = inr (id, keyObject) ->
  (forall d st',
     processSelectionSet this env depth context dataId result ss st
     = Ok (makeReference d) st' ->
     js_or (ostr dataId) (ostr id) = VStr d)
  /\ (js_or (ostr dataId) (ostr id) = VUndef ->
      forall r st',
        processSelectionSet this env (S depth) context dataId result ss st = Ok r st' ->
        exists walked,
          walkFields this env
            (fun v ss' => processSelectionSet this env depth context None v ss')
            context result
            (resolveTypename this env context VUndef result ss (store st)) ss
            (initialFields keyObject
               (resolveTypename this env context VUndef result ss (store st))) st
          = Ok walked st'
          /\ r = VObj (snd walked)).
Proof.
  intros Hid. split.
  - intros d st' H.
    pose proof (processSelectionSet_reference this env _ _ _ _ _ _ _ _ _ _ Hid H) as Hr.
    destruct (js_or (ostr dataId) (ostr id)) eqn:E; simpl in Hr;
      try (destruct Hr as (mf & Hr); discriminate).
    inversion Hr. reflexivity.
  - intros Hd r st' H.
    rewrite (processSelectionSet_inline this env _ _ _ _ _ _ _ _ Hid Hd) in H.
    apply bind_Ok in H. destruct H as (walked & s1 & Hw & H).
    inversion H; subst. exists walked. split; [exact Hw | reflexivity].
Qed.

Lemma reference_only_with_identifier_witness :
  processSelectionSet Demo.writer Demo.demoEnv 1 Demo.context None Demo.note
    Demo.noteSelection Demo.emptyState
  = Ok (VObj [("text", VStr "a")]) (add_log (EvField 20) Demo.emptyState)
  /\ exists walked,
       walkFields Demo.writer Demo.demoEnv
         (fun v ss' => processSelectionSet Demo.writer Demo.demoEnv 0 Demo.context None v ss')
         Demo.context Demo.note
         (resolveTypename Demo.writer Demo.demoEnv Demo.context VUndef Demo.note
            Demo.noteSelection (store Demo.emptyState))
         Demo.noteSelection
         (initialFields None
            (resolveTypename Demo.writer Demo.demoEnv Demo.context VUndef Demo.note
               Demo.noteSelection (store Demo.emptyState)))
         Demo.emptyState
       = Ok walked (add_log (EvField 20) Demo.emptyState)
       /\ VObj [("text", VStr "a")] = VObj (snd walked).
Proof.
  assert (H : processSelectionSet Demo.writer Demo.demoEnv 1 Demo.context None Demo.note
                Demo.noteSelection Demo.emptyState
              = Ok (VObj [("text", VStr "a")]) (add_log (EvField 20) Demo.emptyState))
    by (vm_compute; reflexivity).
  split; [exact H|].
  exact (proj2 (reference_only_with_identifier Demo.writer Demo.demoEnv 0 Demo.context
                  None Demo.note Demo.noteSelection Demo.emptyState None None eq_refl)
               eq_refl _ _ H).
Defined.




(** C6 (amended).  Whenever [writeToStore] returns, it returns a Reference
    exactly when a non-empty [dataId] was supplied or [policies.identify]
    resolved an identifier for the root object, and [undefined] otherwise.
    The Reference is to the supplied identifier if there is one, to the
    resolved one if not, and that identifier is then among the retained roots
    of the store, [store.retain] being the last thing the call did. *)
Theorem writeToStore_returns_reference
    (this : StoreWriter) (env : Env) (o : WriteToStoreOptions) (st st' : State)
    (r : value) :
  writeToStore this env o st = Ok r st' ->
  exists id keyObject,
    identify (policies this) (rootResult o)
      (op_selectionSet (operationDefinition (query o)))
      (fragmentMap (contextOf o)) = inr (id, keyObject)
    /\ ((exists d, r = makeReference d) <-> identified (wr_dataId o) id)
    /\ ((forall d, r <> makeReference d) -> r = VUndef)
    /\ (forall d, r = makeReference d ->
          js_or (ostr (wr_dataId o)) (ostr id) = VStr d
          /\ d ∈ rootIds (store st')
          /\ exists events, log st' = events ++ [EvRetain d]).
Proof.
  unfold writeToStore. unfold bind at 1. unfold modify at 1. intros H.
  apply bind_Ok in H. destruct H as (objOrRef & s1 & Hroot & H).
  assert (Hid : exists id keyObject,
             identify (policies this) (rootResult o)
               (op_selectionSet (operationDefinition (query o)))
               (fragmentMap (contextOf o)) = inr (id, keyObject)).
  { unfold processRoot in Hroot. simpl in Hroot.
    unfold processSelectionSet_body in Hroot.
    destruct (identify _ _ _ _) as [e | [id keyObject]]; [discriminate|eauto]. }
  destruct Hid as (id & keyObject & Hid). exists id, keyObject.
  split; [exact Hid|].
  pose proof (processSelectionSet_reference this env _ _ _ _ _ _ _ _ _ _ Hid Hroot) as Hr.
  apply rootReference_cases in Hr.
  destruct Hr as [(d & Hjs & Href & Hsup) | (Hjs & Href & Hsup)]; rewrite Href in H.
  - unfold bind, modify, ret in H. simpl in H. inversion H; subst.
    split; [split; [intros _; exact Hsup | intros _; eauto]|].
    split; [intros Hno; exfalso; eapply Hno; reflexivity|].
    intros d' E. inversion E; subst d'. split; [exact Hjs|]. split.
    + simpl. set_solver.
    + simpl. eauto.
  - inversion H; subst.
    split; [split; [intros [d E]; discriminate | intros Hs; contradiction]|].
    split; [reflexivity|]. intros d E. discriminate.
Qed.

Lemma writeToStore_returns_reference_witness :
  exists id keyObject,
    identify (policies Demo.writer)
      (rootResult {| query := Demo.todoQuery; wr_result := VObj [("todo", Demo.todo)];
                     wr_dataId := Some "ROOT_QUERY"; wr_variables := [] |})
      (op_selectionSet (operationDefinition Demo.todoQuery))
      (fragmentMap (contextOf {| query := Demo.todoQuery;
                                 wr_result := VObj [("todo", Demo.todo)];
                                 wr_dataId := Some "ROOT_QUERY"; wr_variables := [] |}))
    = inr (id, keyObject)
    /\ ((exists d, VRef "ROOT_QUERY" = makeReference d) <->
        identified (Some "ROOT_QUERY") id)
    /\ ((forall d, VRef "ROOT_QUERY" <> makeReference d) -> VRef "ROOT_QUERY" = VUndef)
    /\ (forall d, VRef "ROOT_QUERY" = makeReference d ->
          js_or (ostr (Some "ROOT_QUERY")) (ostr id) = VStr d
          /\ d ∈ rootIds (store (Demo.state_of
                 (writeToStore Demo.writer Demo.demoEnv
                    {| query := Demo.todoQuery; wr_result := VObj [("todo", Demo.todo)];
                       wr_dataId := Some "ROOT_QUERY"; wr_variables := [] |}
                    Demo.emptyState)))
          /\ exists events,
               log (Demo.state_of
                 (writeToStore Demo.writer Demo.demoEnv
                    {| query := Demo.todoQuery; wr_result := VObj [("todo", Demo.todo)];
                       wr_dataId := Some "ROOT_QUERY"; wr_variables := [] |}
                    Demo.emptyState))
               = events ++ [EvRetain d]).
Proof.
  apply (writeToStore_returns_reference Demo.writer Demo.demoEnv
           {| query := Demo.todoQuery; wr_result := VObj [("todo", Demo.todo)];
              wr_dataId := Some "ROOT_QUERY"; wr_variables := [] |}
           Demo.emptyState).
  vm_compute. reflexivity.
Defined.

(** C6, as stated, fails for the empty string: supplied as [dataId] for a
    root object that resolves no identifier, it yields [undefined] and
    nothing is retained. *)
Lemma explicit_empty_dataId_returns_undefined :
  exists st',
    writeToStore Demo.writer Demo.demoEnv
      {| query := Demo.noteQuery; wr_result := Demo.note; wr_dataId := Some "";
         wr_variables := [] |} Demo.emptyState
    = Ok VUndef st'
    /\ rootIds (store st') = ∅.
Proof. eexists. split; vm_compute; reflexivity. Qed.





(** Nor is [null] what the record holds when a second selection has the
    same store field name: under [{ text label: text }] the [null] of [text]
    is merged first and the value read at [label] replaces it. *)
Lemma aliased_null_is_overwritten :
  js_get Demo.demoEnv Demo2.aliasedTodo "text" = VNull
  /\ exists st',
       processSelectionSet Demo.writer Demo.demoEnv 1 Demo.context None
         Demo2.aliasedTodo Demo2.aliasedSelection Demo.emptyState = Ok (VRef "Todo:1") st'
       /\ data (store st') !! "Todo:1"
          = Some [("id", VStr "1"); ("__typename", VStr "Todo"); ("text", VStr "a")].
Proof.
  split; [reflexivity|]. eexists. split; vm_compute; reflexivity.
Qed.



(** C4 (amended).  For a store field name, [warnAboutDataLoss] reads the
    existing and the incoming sub-value through [store.getFieldValue].  It
    prints nothing when either of them is absent, [null] or not an object,
    when the existing one is a Reference, when the two are structurally
    equal, or when every key of the existing one has a value in the incoming
    one (looked up through [getFieldValue], so in the referenced record when
    the incoming value is a Reference).  Otherwise it prints one warning and
    adds [parentType.fieldName] to the [warnings] set, unless that key is in
    the set already; the call that follows a warning prints nothing, and the
    set only grows from write to write.  The guard never changes the store,
    and in production the commit neither calls it nor prints. *)
Theorem data_loss_guard
    (this : StoreWriter) (env : Env) (existingRef incomingObj : value)
    (storeFieldName : string) (st : State) :
  let existing := getFieldValue (store st) existingRef storeFieldName in
  let incoming := getFieldValue (store st) incomingObj storeFieldName in
  let key := typeDotName env (store st) existingRef incomingObj storeFieldName in
  let needed :=
    objectShaped existing = true /\ objectShaped incoming = true
    /\ isReference existing = false /\ equal existing incoming = false
    /\ exists k, In k (keys existing)
                 /\ getFieldValue (store st) incoming k = VUndef in
  ((objectShaped existing = false \/ objectShaped incoming = false
    \/ isReference existing = true \/ equal existing incoming = true
    \/ (forall k, In k (keys existing) -> getFieldValue (store st) incoming k <> VUndef)) ->
   warnAboutDataLoss env existingRef incomingObj storeFieldName st = Ok tt st)
  /\ (needed -> key ∈ warnings st ->
      warnAboutDataLoss env existingRef incomingObj storeFieldName st = Ok tt st)
  /\ (needed -> key ∉ warnings st ->
      exists st',
        warnAboutDataLoss env existingRef incomingObj storeFieldName st = Ok tt st'
        /\ log st' = log st
                     ++ [dataLossWarning env (store st) existingRef incomingObj storeFieldName]
        /\ warnings st' = {[key]} ∪ warnings st
        /\ warnAboutDataLoss env existingRef incomingObj storeFieldName st' = Ok tt st')
  /\ (forall st',
        warnAboutDataLoss env existingRef incomingObj storeFieldName st = Ok tt st' ->
        store st' = store st)
  /\ (forall o s s',
        final_state (writeToStore this env o s) = Some s' -> warnings s ⊆ warnings s')
  /\ (production env = true ->
      forall context d typename mf s r s',
        commitEntity this env context d typename mf s = Ok r s' ->
        warnings s' = warnings s
        /\ exists committed, log s' = log s ++ [EvMerge d committed]).
Proof.
  intros existing incoming key needed.
  assert (Hquiet :
    (objectShaped existing = false \/ objectShaped incoming = false
     \/ isReference existing = true \/ equal existing incoming = true
     \/ (forall k, In k (keys existing) -> getFieldValue (store st) incoming k <> VUndef)) ->
    noWarningNeeded (store st) existingRef incomingObj storeFieldName = true).
  { unfold noWarningNeeded. fold existing. fold incoming.
    intros [H | [H | [H | [H | H]]]]; try rewrite H; simpl;
      rewrite ?orb_true_r; try reflexivity.
    assert (Hall : forallb (fun k => negb (is_undefined (getFieldValue (store st) incoming k)))
                     (keys existing) = true).
    { apply forallb_forall. intros k Hk. specialize (H k Hk).
      destruct (getFieldValue (store st) incoming k); try reflexivity. congruence. }
    rewrite Hall. apply orb_true_r. }
  assert (Hneeded : needed ->
            noWarningNeeded (store st) existingRef incomingObj storeFieldName = false).
  { intros (H1 & H2 & H3 & H4 & k & Hk & Hu).
    unfold noWarningNeeded. fold existing. fold incoming.
    rewrite H1, H2, H3, H4. simpl.
    apply not_true_is_false. intros Hall.
    rewrite forallb_forall in Hall. specialize (Hall k Hk).
    rewrite Hu in Hall. discriminate. }
  split; [|split; [|split; [|split; [|split]]]].
  - intros H. rewrite warnAboutDataLoss_unfold, (Hquiet H). reflexivity.
  - intros Hn Hin. rewrite warnAboutDataLoss_unfold, (Hneeded Hn).
    fold key. rewrite bool_decide_eq_true_2 by exact Hin. reflexivity.
  - intros Hn Hnotin. eexists. split.
    + rewrite warnAboutDataLoss_unfold, (Hneeded Hn).
      fold key. rewrite bool_decide_eq_false_2 by exact Hnotin. reflexivity.
    + split; [reflexivity|]. split; [reflexivity|].
      rewrite warnAboutDataLoss_unfold. simpl. rewrite (Hneeded Hn).
      fold key. rewrite bool_decide_eq_true_2 by set_solver. reflexivity.
  - intros st' H.
    destruct (warnAboutDataLoss_frame env existingRef incomingObj storeFieldName st)
      as (st1 & E & Hs & _).
    rewrite E in H. inversion H; subst. exact Hs.
  - intros o s s' H. exact (writeToStore_warnings_extend this env o s s' H).
  - intros Hp context d typename mf s r s' H.
    eapply commitEntity_production; eassumption.
Qed.

(** C4, as stated, fails for an incoming Reference.  After
    [{ todo { author { name age } } }] stored the author inside [Todo:1],
    writing the author as the entity [Author:9] (fields [id] and [name])
    makes the incoming sub-value a Reference; the existing one has the key
    [age], which [Author:9] has not, and the guard prints its warning. *)
Lemma incoming_reference_is_warned_about :
  getFieldValue (store Demo.afterAuthorInline) (VRef "Todo:1") "author"
  = VObj [("name", VStr "A"); ("age", VNum 3)]
  /\ exists st',
       writeToStore Demo.writer Demo.demoEnv
         {| query := Demo.authorEntityQuery; wr_result := Demo.authorEntityResult;
            wr_dataId := Some "ROOT_QUERY"; wr_variables := [] |}
         Demo.afterAuthorInline
       = Ok (makeReference "ROOT_QUERY") st'
       /\ In (EvMerge "Todo:1" [("id", VStr "1"); ("__typename", VStr "Todo");
                                ("author", VRef "Author:9")]) (log st')
       /\ isReference (get_prop (VObj [("id", VStr "1"); ("__typename", VStr "Todo");
                                       ("author", VRef "Author:9")]) "author") = true
       /\ In (EvWarn "author" "Todo" ["Author"] "[object Object]" "[object Object]")
             (log st')
       /\ warnings st' = {["Todo.author"]} ∪ warnings Demo.afterAuthorInline.
Proof.
  split; [vm_compute; reflexivity|].
  eexists. split; [vm_compute; reflexivity|].
  split; [simpl; auto 30|]. split; [reflexivity|]. split; [simpl; auto 30|].
  vm_compute. reflexivity.
Qed.




(** It fails too when the queue refuses the update: the first job stays at
    the time of the first write and the fallback is 30000 ms after the clock
    reading, none at the time of the second write. *)
Lemma refused_update_leaves_two_jobs :
  jobsFor "Todo:1"
    (runEvictions Demo.numericTime
       [Answer 0; Run 0 true; Answer 1; Run 1 false; Retry 1 5000]
       (evictions Demo.afterTwoWrites) Demo.emptyQueue)
  = [{| job_id := 0; workerName := "removeCacheEntry"; payload_id := "Todo:1";
        executionTime := 1000 |};
     {| job_id := 1; workerName := "removeCacheEntry"; payload_id := "Todo:1";
        executionTime := 35000 |}].
Proof. vm_compute. reflexivity. Qed.

(** * Further properties of the writer *)

(** ** Relations kept by a whole write *)

Section RespectsCommit.

Variable R : State -> State -> Prop.
Hypothesis R_refl : forall s, R s s.
Hypothesis R_trans : forall s1 s2 s3, R s1 s2 -> R s2 s3 -> R s1 s3.

Variable this : StoreWriter.
Variable env : Env.

(** The steps of a write, taken as wholes: a field is logged, a selection set
    is recorded, a value is wrapped for its merge function, an entity is
    committed. *)
Hypothesis R_field : forall n s, R s (add_log (EvField n) s).
Hypothesis R_written : forall d n s,
  R s (set_written (fun w => <[d := default [] (written s !! d) ++ [n]]> w) s).
Hypothesis R_marker : forall typename selection v,
  respects R (if hasMergeFunction (policies this) typename (name_value selection)
              then modify (set_shouldApplyMerges true) ;;;
                   ret (VToBeMerged selection typename v)
              else ret v).
Hypothesis R_commit : forall context d typename mf,
  respects R (commitEntity this env context d typename mf).

Lemma commit_respects_visit (pfv : value -> SelectionNode -> M value)
    (result typename : value) (context : WriteContext)
    (selection : SelectionNode) (ws : list SelectionNode) (mf : StoreObject) :
  (forall v f, respects R (pfv v f)) ->
  respects R (visit this env pfv result typename context selection ws mf).
Proof.
  intros Hpfv. unfold visit.
  destruct (negb (shouldInclude _ _ _)); [apply respects_ret, R_refl|].
  destruct (isField selection).
  - destruct (negb (is_undefined _)).
    + apply respects_bind; [exact R_trans | apply respects_modify, R_field |].
      intros _. apply respects_bind; [exact R_trans | apply Hpfv |]. intros v.
      apply respects_bind; [exact R_trans | apply R_marker |].
      intros x. apply respects_ret, R_refl.
    + destruct (_ && _); [apply respects_throw, R_refl | apply respects_ret, R_refl].
  - destruct (getFragmentFromSelection _ _) as [f|]; [|apply respects_ret, R_refl].
    destruct (fragmentMatches _ _ _); apply respects_ret, R_refl.
Qed.

Lemma commit_respects_walk (pfv : value -> SelectionNode -> M value)
    (result typename : value) (context : WriteContext) (fuel : nat) :
  (forall v f, respects R (pfv v f)) ->
  forall ws i mf, respects R (walk this env pfv result typename context fuel ws i mf).
Proof.
  intros Hpfv. induction fuel as [|fuel IH]; intros ws i mf; simpl;
    destruct (nth_error ws i); try (apply respects_ret, R_refl).
  - apply respects_out_of_fuel.
  - apply respects_bind; [exact R_trans | apply commit_respects_visit, Hpfv |].
    intros next. apply IH.
Qed.

Lemma commit_respects_writeFields (pss : value -> SelectionSetNode -> M value)
    (context : WriteContext) (dataId : value) (keyObject : option StoreObject)
    (result : value) (ss : SelectionSetNode) :
  (forall x ss', respects R (pss x ss')) ->
  respects R (writeFields this env pss context dataId keyObject result ss).
Proof.
  intros Hpss. unfold writeFields. apply respects_bind_get. intros st.
  apply respects_bind; [exact R_trans | |].
  - unfold walkFields. apply commit_respects_walk. intros v f.
    apply respects_processFieldValue; [exact R_refl | exact R_trans | exact Hpss].
  - intros walked. destruct (as_string dataId); [|apply respects_ret, R_refl].
    apply R_commit.
Qed.

Lemma commit_respects_processSelectionSet (depth : nat) :
  forall context dataId result ss,
  respects R (processSelectionSet this env depth context dataId result ss).
Proof.
  induction depth as [|depth IH]; intros context dataId result ss; simpl.
  - apply respects_out_of_fuel.
  - unfold processSelectionSet_body.
    destruct (identify _ _ _ _) as [e | [id keyObject]]; [apply respects_throw, R_refl|].
    assert (Hw : forall dataId', respects R
              (writeFields this env
                 (fun v ss' => processSelectionSet this env depth context None v ss')
                 context dataId' keyObject result ss)).
    { intros dataId'. apply commit_respects_writeFields. intros x ss'. apply IH. }
    destruct (as_string _) as [d|]; [|apply Hw].
    intros st st'. unfold bind at 1. unfold get at 1.
    destruct (existsb _ _); [apply respects_ret, R_refl|].
    unfold bind at 1. unfold modify at 1. intros H.
    eapply R_trans; [apply (R_written d (ssid_of ss) st)|].
    revert H. apply respects_bind_get. intros st1.
    destruct (reader this) as [rd|]; [|apply Hw].
    destruct (isFresh rd _ _ _ _ _); [apply respects_ret, R_refl | apply Hw].
Qed.

(** What [writeToStore] adds: the fresh context and the retained root. *)
Hypothesis R_fresh : forall s, R s (freshWrite s).
Hypothesis R_retain : forall id s,
  R s (add_log (EvRetain id) (set_store (store_retain id) s)).

Lemma commit_respects_writeToStore (o : WriteToStoreOptions) :
  respects R (writeToStore this env o).
Proof.
  unfold writeToStore.
  apply respects_bind; [exact R_trans | apply respects_modify, R_fresh |].
  intros _. apply respects_bind; [exact R_trans | apply commit_respects_processSelectionSet |].
  intros objOrRef. destruct (rootReference (wr_dataId o) objOrRef);
    try (apply respects_ret, R_refl).
  intros st st' H. unfold bind, modify, ret in H. inversion H; subst. apply R_retain.
Qed.

End RespectsCommit.

(** ** What a commit does to the state *)

Section CommitEffect.

Variable this : StoreWriter.
Variable env : Env.

(** The guard logs nothing but its warning. *)
Lemma warnAboutDataLoss_log (existingRef incomingObj : value) (k : string) (st : State) :
  exists st' l,
    warnAboutDataLoss env existingRef incomingObj k st = Ok tt st'
    /\ log st' = log st ++ l /\ Forall isWarning l.
Proof.
  rewrite warnAboutDataLoss_unfold.
  destruct (noWarningNeeded _ _ _ _);
    [exists st, []; rewrite app_nil_r; repeat split; constructor|].
  destruct (bool_decide _);
    [exists st, []; rewrite app_nil_r; repeat split; constructor|].
  eexists. eexists. split; [reflexivity|]. split; [reflexivity|].
  constructor; [exact I | constructor].
Qed.

Lemma warnPass_log (d : string) (typename : value) (mf : StoreObject) (st : State) :
  exists st' l,
    warnPass this env d typename mf st = Ok tt st'
    /\ log st' = log st ++ l /\ Forall isWarning l.
Proof.
  unfold warnPass. generalize (keys (VObj mf)) as ks. intros ks. revert st.
  induction ks as [|k ks IH]; intros st; simpl.
  - exists st, []. rewrite app_nil_r. repeat split. constructor.
  - unfold bind at 1.
    destruct (negb (hasMergeFunction (policies this) typename
                      (fieldNameFromStoreName env k))).
    + destruct (warnAboutDataLoss_log (makeReference d) (VObj mf) k st)
        as (s1 & l1 & -> & E1 & F1).
      destruct (IH s1) as (s2 & l2 & -> & E2 & F2).
      exists s2, (l1 ++ l2). split; [reflexivity|]. split.
      * rewrite E2, E1, app_assoc. reflexivity.
      * apply Forall_app. split; assumption.
    + unfold ret. apply IH.
Qed.

(** A commit always returns, and this is all it does: it may print warnings
    and add their keys to the [warnings] set, it leaves a callback with the
    queue for a truthy [maxAge] under an identifier other than [ROOT_QUERY],
    it merges the record into the store and logs it. *)
Lemma commitEntity_effect (context : WriteContext) (d : string) (typename : value)
    (mf : StoreObject) (st st' : State) :
  final_state (commitEntity this env context d typename mf st) = Some st' ->
  exists committed warned,
    committed = (if shouldApplyMerges st
                 then applyMerges (policies this) d mf (store st) (variables context)
                 else mf)
    /\ commitEntity this env context d typename mf st = Ok (makeReference d) st'
    /\ store st' = store_merge d committed (store st)
    /\ written st' = written st
    /\ shouldApplyMerges st' = shouldApplyMerges st
    /\ evictions st'
       = evictions st
         ++ (if negb (String.eqb d "ROOT_QUERY")
                && truthy (get_prop (VObj committed) "maxAge")
             then [(d, get_prop (VObj committed) "maxAge")]
             else [])
    /\ log st' = log st ++ warned ++ [EvMerge d committed]
    /\ Forall isWarning warned.
Proof.
  intros Hfin.
  destruct (commitEntity_returns this env context d typename mf st) as [s Hok].
  rewrite Hok in Hfin. inversion Hfin; subst s. clear Hfin.
  destruct (commitEntity_record this env _ _ _ _ _ _ _ Hok)
    as (committed & Hc & _ & Hstore & _).
  destruct (commitEntity_eviction this env _ _ _ _ _ _ _ Hok) as (c2 & Hc2 & Hev).
  rewrite <- Hc in Hc2. subst c2.
  assert (Hrest : written st' = written st
                  /\ shouldApplyMerges st' = shouldApplyMerges st
                  /\ exists warned, log st' = log st ++ warned ++ [EvMerge d committed]
                                    /\ Forall isWarning warned).
  { revert Hok. unfold commitEntity. unfold bind at 1. unfold get at 1.
    rewrite <- Hc. intros H.
    apply bind_Ok in H. destruct H as ([] & s1 & H1 & H).
    assert (F1 : written s1 = written st /\ shouldApplyMerges s1 = shouldApplyMerges st
                 /\ exists warned, log s1 = log st ++ warned /\ Forall isWarning warned).
    { destruct (negb (production env)).
      - destruct (warnPass_frame this env d typename committed st)
          as (sa & Ea & _ & Ew & Ef & _).
        destruct (warnPass_log d typename committed st) as (sb & l & Eb & El & Fl).
        rewrite Ea in H1. inversion H1; subst sa.
        rewrite Ea in Eb. inversion Eb; subst sb. eauto.
      - inversion H1; subst. repeat split. exists []. rewrite app_nil_r.
        split; [reflexivity | constructor]. }
    destruct F1 as (Fw & Ff & warned & Fl & Fa).
    apply bind_Ok in H. destruct H as ([] & s2 & H2 & H).
    assert (F2 : written s2 = written s1 /\ shouldApplyMerges s2 = shouldApplyMerges s1
                 /\ log s2 = log s1).
    { destruct (negb (String.eqb d "ROOT_QUERY") && _); inversion H2; subst; auto. }
    destruct F2 as (Gw & Gf & Gl).
    unfold bind, modify, ret in H. inversion H; subst. simpl.
    split; [congruence|]. split; [congruence|].
    exists warned. split; [|exact Fa]. rewrite Gl, Fl, app_assoc. reflexivity. }
  destruct Hrest as (Hw & Hf & warned & Hl & Ha).
  exists committed, warned. repeat split; assumption.
Qed.

End CommitEffect.

(** X1.  [writeToStore] returns or throws on every input, its collaborators
    returning: the nesting of the calls follows the nesting of the result,
    and [workSet.forEach] comes to an end whatever the fragment map,
    fragments that spread themselves or each other included, because the set
    takes a node once. *)
Theorem write_always_ends
    (this : StoreWriter) (env : Env) (o : WriteToStoreOptions) (st : State) :
  (exists r st', writeToStore this env o st = Ok r st')
  \/ (exists e st', writeToStore this env o st = Throw e st').
Proof.
  pose proof (writeToStore_terminates this env o st) as H. unfold terminates in H.
  destruct (writeToStore this env o st) as [r st' | e st' |]; eauto. congruence.
Qed.

Lemma write_always_ends_witness :
  ((exists r st', writeToStore Demo.writer Demo.demoEnv Demo2.loopOptions Demo.emptyState
                  = Ok r st')
   \/ (exists e st', writeToStore Demo.writer Demo.demoEnv Demo2.loopOptions Demo.emptyState
                     = Throw e st'))
  /\ exists st',
       writeToStore Demo.writer Demo.demoEnv Demo2.loopOptions Demo.emptyState
       = Ok (makeReference "Todo:1") st'
       /\ data (store st') !! "Todo:1"
          = Some [("id", VStr "1"); ("__typename", VStr "Todo"); ("text", VStr "a")].
Proof.
  split.
  - exact (write_always_ends Demo.writer Demo.demoEnv Demo2.loopOptions Demo.emptyState).
  - eexists. split; vm_compute; reflexivity.
Defined.

(** ** The variables of a write *)

Lemma assoc_fold_set_prop (l acc : StoreObject) (k : string) :
  NoDup (map fst l) ->
  assoc k (fold_left (fun a kv => set_prop (fst kv) (snd kv) a) l acc)
  = match assoc k l with
    | Some v => Some v
    | None => assoc k acc
    end.
Proof.
  revert acc. induction l as [|[k0 v0] l IH]; intros acc Hnd; simpl; [reflexivity|].
  apply NoDup_cons in Hnd. destruct Hnd as [Hk0 Hnd].
  rewrite (IH _ Hnd). simpl.
  destruct (String.eqb k k0) eqn:E.
  - apply String.eqb_eq in E. subst k0.
    destruct (assoc k l) as [v|] eqn:Ea.
    + exfalso. apply Hk0, list_elem_of_In, assoc_keys. eauto.
    + apply assoc_set_prop_eq.
  - destruct (assoc k l); [reflexivity|].
    apply assoc_set_prop_ne. apply String.eqb_neq, E.
Qed.

(** X2.  The variables a write resolves directives and store field names
    with are the variables of the call over the defaults of the operation: a
    variable the call gives has the value the call gives, any other one has
    its default, and a name that is in neither is unbound. *)
Theorem call_variables_override_defaults
    (o : WriteToStoreOptions) (k : string) :
  NoDup (map fst (defaultValues (operationDefinition (query o)))) ->
  NoDup (map fst (wr_variables o)) ->
  assoc k (variables (contextOf o))
  = match assoc k (wr_variables o) with
    | Some v => Some v
    | None => assoc k (defaultValues (operationDefinition (query o)))
    end.
Proof.
  intros Hd Hv. unfold contextOf, spread. simpl.
  rewrite fold_left_app, (assoc_fold_set_prop _ _ _ Hv), (assoc_fold_set_prop _ _ _ Hd).
  destruct (assoc k (wr_variables o)); [reflexivity|].
  destruct (assoc k _); reflexivity.
Qed.

Lemma call_variables_override_defaults_witness :
  assoc "first"
    (variables (contextOf
       {| query := {| operationDefinition :=
                        {| defaultValues := [("first", VNum 10); ("after", VNull)];
                           op_selectionSet := Demo.noteSelection |};
                      fragmentDefinitions := [] |};
          wr_result := Demo.note; wr_dataId := None;
          wr_variables := [("first", VNum 3)] |}))
  = Some (VNum 3).
Proof.
  apply (call_variables_override_defaults
           {| query := {| operationDefinition :=
                            {| defaultValues := [("first", VNum 10); ("after", VNull)];
                               op_selectionSet := Demo.noteSelection |};
                          fragmentDefinitions := [] |};
              wr_result := Demo.note; wr_dataId := None;
              wr_variables := [("first", VNum 3)] |} "first").
  - simpl. apply (bool_decide_unpack _). vm_compute. exact I.
  - simpl. apply (bool_decide_unpack _). vm_compute. exact I.
Defined.

(** ** What a write never takes away *)

Lemma store_grows_refl (s : State) : store_grows s s.
Proof.
  split; [|set_solver]. intros id rec H. exists rec. split; [exact H | apply incl_refl].
Qed.

Lemma store_grows_trans (s1 s2 s3 : State) :
  store_grows s1 s2 -> store_grows s2 s3 -> store_grows s1 s3.
Proof.
  intros [H1 R1] [H2 R2]. split; [|set_solver].
  intros id rec H. destruct (H1 id rec H) as (rec' & H' & I').
  destruct (H2 id rec' H') as (rec'' & H'' & I''). exists rec''.
  split; [exact H'' | eapply incl_tran; eassumption].
Qed.

Lemma store_grows_frame (s s' : State) : store s' = store s -> store_grows s s'.
Proof. intros E. unfold store_grows. rewrite E. apply store_grows_refl. Qed.

Lemma store_grows_merge (d : string) (mf : StoreObject) (s : State) :
  store_grows s (set_store (store_merge d mf) s).
Proof.
  split; [|simpl; set_solver]. intros id rec H. simpl.
  destruct (decide (d = id)) as [<- | Hne].
  - rewrite lookup_insert_eq, H. simpl. eexists. split; [reflexivity|].
    intros k Hk. apply merge_fields_keys. left. exact Hk.
  - rewrite lookup_insert_ne by exact Hne. exists rec. split; [exact H | apply incl_refl].
Qed.

(** X3.  A write takes nothing away from the store, whether it returns or
    throws: every record that was there is still there, with every key it
    had (the store merges, it does not overwrite), and every retained root
    is still retained.  In particular the records committed before an
    exception stay committed. *)
Theorem write_never_removes
    (this : StoreWriter) (env : Env) (o : WriteToStoreOptions) (st st' : State) :
  final_state (writeToStore this env o st) = Some st' ->
  store_grows st st'.
Proof.
  apply commit_respects_writeToStore.
  - exact store_grows_refl.
  - exact store_grows_trans.
  - intros; apply store_grows_frame; reflexivity.
  - intros; apply store_grows_frame; reflexivity.
  - intros typename selection v.
    destruct (hasMergeFunction _ _ _); [|apply respects_ret, store_grows_refl].
    intros s s' H. unfold bind, modify, ret in H. inversion H; subst.
    apply store_grows_frame. reflexivity.
  - intros context d typename mf.
    apply respects_commitEntity;
      first [ exact store_grows_refl | exact store_grows_trans
            | exact store_grows_merge
            | intros; apply store_grows_frame; reflexivity ].
  - intros; apply store_grows_frame; reflexivity.
  - intros id s. split; [|simpl; set_solver].
    intros i rec H. exists rec. split; [exact H | apply incl_refl].
Qed.

(** The write of [{ todo { author { name age } } }] followed by a write that
    throws: the first record of [Todo:1] keeps its keys. *)
Lemma write_never_removes_witness :
  store_grows Demo.afterAuthorInline
    (Demo.state_of
       (writeToStore Demo.writer Demo.demoEnv
          Demo2.failingOptions
          Demo.afterAuthorInline))
  /\ exists e s,
       writeToStore Demo.writer Demo.demoEnv
         Demo2.failingOptions
         Demo.afterAuthorInline = Throw e s.
Proof.
  split.
  - apply (write_never_removes Demo.writer Demo.demoEnv
             Demo2.failingOptions).
    vm_compute. reflexivity.
  - eexists. eexists. vm_compute. reflexivity.
Defined.

(** ** A write that throws *)

Lemma nothing_retained_refl (s : State) : nothing_retained s s.
Proof. split; [reflexivity|]. exists []. rewrite app_nil_r. split; [reflexivity|constructor]. Qed.

Lemma nothing_retained_trans (s1 s2 s3 : State) :
  nothing_retained s1 s2 -> nothing_retained s2 s3 -> nothing_retained s1 s3.
Proof.
  intros (R1 & l1 & L1 & F1) (R2 & l2 & L2 & F2). split; [congruence|].
  exists (l1 ++ l2). split; [rewrite L2, L1, app_assoc; reflexivity|].
  apply Forall_app. split; assumption.
Qed.

Lemma nothing_retained_frame (s s' : State) :
  rootIds (store s') = rootIds (store s) -> log s' = log s -> nothing_retained s s'.
Proof.
  intros Hr Hl. split; [exact Hr|]. exists []. rewrite app_nil_r.
  split; [exact Hl | constructor].
Qed.

(** X4.  When [writeToStore] throws, it has retained nothing: the retained
    roots of the store are those it started with and [store.retain] was not
    called, although records may have been merged on the way. *)
Theorem failed_write_retains_nothing
    (this : StoreWriter) (env : Env) (o : WriteToStoreOptions) (st st' : State)
    (e : Error) :
  writeToStore this env o st = Throw e st' ->
  nothing_retained st st'.
Proof.
  intros H. apply writeToStore_throws in H.
  apply nothing_retained_trans with (freshWrite st).
  { apply nothing_retained_frame; reflexivity. }
  assert (Hr : respects nothing_retained (processRoot this env o)).
  { unfold processRoot. apply commit_respects_processSelectionSet.
    - exact nothing_retained_refl.
    - exact nothing_retained_trans.
    - intros n s. split; [reflexivity|]. exists [EvField n].
      split; [reflexivity | repeat constructor].
    - intros; apply nothing_retained_frame; reflexivity.
    - intros typename selection v.
      destruct (hasMergeFunction _ _ _); [|apply respects_ret, nothing_retained_refl].
      intros s s' Hs. unfold bind, modify, ret in Hs. inversion Hs; subst.
      apply nothing_retained_frame; reflexivity.
    - intros context d typename mf s s' Hs.
      destruct (commitEntity_effect this env _ _ _ _ _ _ Hs)
        as (committed & warned & _ & _ & Hstore & _ & _ & _ & Hl & Hw).
      split; [rewrite Hstore; reflexivity|].
      exists (warned ++ [EvMerge d committed]). split; [exact Hl|].
      apply Forall_app. split; [|repeat constructor].
      eapply Forall_impl; [exact Hw|]. intros [] Hx; simpl in *; auto. }
  apply Hr. rewrite H. reflexivity.
Qed.

Lemma failed_write_retains_nothing_witness :
  nothing_retained Demo.emptyState
    (Demo.state_of
       (writeToStore Demo.writer Demo.demoEnv
          Demo2.failingOptions
          Demo.emptyState)).
Proof.
  apply (failed_write_retains_nothing Demo.writer Demo.demoEnv
           Demo2.failingOptions
           Demo.emptyState _
           (InvariantError "Missing field 'text' in [object Object]")).
  vm_compute. reflexivity.
Defined.

(** ** Callbacks left with the queue *)

Lemma evictions_added_refl (s : State) : evictions_added s s.
Proof. exists []. rewrite app_nil_r. split; [reflexivity | constructor]. Qed.

Lemma evictions_added_trans (s1 s2 s3 : State) :
  evictions_added s1 s2 -> evictions_added s2 s3 -> evictions_added s1 s3.
Proof.
  intros (l1 & E1 & F1) (l2 & E2 & F2). exists (l1 ++ l2).
  split; [rewrite E2, E1, app_assoc; reflexivity|].
  apply Forall_app. split; assumption.
Qed.

Lemma evictions_added_frame (s s' : State) :
  evictions s' = evictions s -> evictions_added s s'.
Proof. intros E. exists []. rewrite app_nil_r. split; [exact E | constructor]. Qed.

(** X5.  Whatever a write does, the callbacks it leaves with the job queue
    are all for identifiers other than [ROOT_QUERY] and all carry a truthy
    [maxAge]; callbacks left earlier are neither dropped nor reordered.  The
    root query record is never scheduled for eviction, and a record without
    [maxAge] (or with [0], [null], the empty string) never is either. *)
Theorem only_expiring_entities_are_scheduled
    (this : StoreWriter) (env : Env) (o : WriteToStoreOptions) (st st' : State) :
  final_state (writeToStore this env o st) = Some st' ->
  evictions_added st st'.
Proof.
  apply commit_respects_writeToStore.
  - exact evictions_added_refl.
  - exact evictions_added_trans.
  - intros; apply evictions_added_frame; reflexivity.
  - intros; apply evictions_added_frame; reflexivity.
  - intros typename selection v.
    destruct (hasMergeFunction _ _ _); [|apply respects_ret, evictions_added_refl].
    intros s s' H. unfold bind, modify, ret in H. inversion H; subst.
    apply evictions_added_frame. reflexivity.
  - intros context d typename mf s s' H.
    destruct (commitEntity_effect this env _ _ _ _ _ _ H)
      as (committed & warned & _ & _ & _ & _ & _ & Hev & _).
    eexists. split; [exact Hev|].
    destruct (negb (String.eqb d "ROOT_QUERY")) eqn:Ed; simpl; [|constructor].
    destruct (truthy (get_prop (VObj committed) "maxAge")) eqn:Et; [|constructor].
    constructor; [|constructor]. simpl. split; [|first [exact Et | reflexivity]].
    intros ->. rewrite String.eqb_refl in Ed. discriminate.
  - intros; apply evictions_added_frame; reflexivity.
  - intros; apply evictions_added_frame; reflexivity.
Qed.

(** On [Demo2.rootMaxAgeOptions] only the todo is scheduled. *)
Lemma only_expiring_entities_are_scheduled_witness :
  evictions_added Demo.emptyState
    (Demo.state_of
       (writeToStore Demo.writer Demo.demoEnv
          Demo2.rootMaxAgeOptions
          Demo.emptyState))
  /\ evictions
       (Demo.state_of
          (writeToStore Demo.writer Demo.demoEnv
             Demo2.rootMaxAgeOptions
             Demo.emptyState))
     = [("Todo:1", VNum 1000)].
Proof.
  split.
  - apply (only_expiring_entities_are_scheduled Demo.writer Demo.demoEnv
             Demo2.rootMaxAgeOptions).
    vm_compute. reflexivity.
  - vm_compute. reflexivity.
Defined.

(** ** Warnings over the life of the process *)

Lemma warnedKeys_app (l1 l2 : list Event) :
  warnedKeys (l1 ++ l2) = warnedKeys l1 ++ warnedKeys l2.
Proof.
  induction l1 as [|e l1 IH]; simpl; [reflexivity|].
  destruct e; simpl; rewrite IH; reflexivity.
Qed.

Section Warnings.

Variable this : StoreWriter.
Variable env : Env.

Lemma warnAboutDataLoss_once (existingRef incomingObj : value) (k : string)
    (st st' : State) :
  warnAboutDataLoss env existingRef incomingObj k st = Ok tt st' ->
  warned_once st -> warned_once st'.
Proof.
  rewrite warnAboutDataLoss_unfold. intros H [Hnd Hin].
  destruct (noWarningNeeded _ _ _ _); [inversion H; subst; split; assumption|].
  destruct (bool_decide _) eqn:Eb; [inversion H; subst; split; assumption|].
  apply bool_decide_eq_false in Eb. inversion H; subst. clear H.
  unfold warned_once. simpl. rewrite warnedKeys_app. simpl. split.
  - apply NoDup_app. split; [exact Hnd|]. split; [|apply NoDup_singleton].
    intros x Hx Hy. apply list_elem_of_In in Hx, Hy. destruct Hy as [<- | []].
    apply Eb, Hin, Hx.
  - intros x Hx. apply in_app_or in Hx. destruct Hx as [Hx | [<- | []]].
    + apply Hin in Hx. set_solver.
    + unfold typeDotName. set_solver.
Qed.

Lemma warnPass_once (d : string) (typename : value) (mf : StoreObject)
    (st st' : State) :
  warnPass this env d typename mf st = Ok tt st' ->
  warned_once st -> warned_once st'.
Proof.
  unfold warnPass. generalize (keys (VObj mf)) as ks. intros ks. revert st.
  induction ks as [|k ks IH]; intros st H Hw; simpl in H.
  - inversion H; subst. exact Hw.
  - apply bind_Ok in H. destruct H as ([] & s1 & H1 & H).
    apply (IH s1 H).
    destruct (negb (hasMergeFunction (policies this) typename
                      (fieldNameFromStoreName env k))).
    + eapply warnAboutDataLoss_once; eassumption.
    + inversion H1; subst. exact Hw.
Qed.

Lemma commitEntity_once (context : WriteContext) (d : string) (typename : value)
    (mf : StoreObject) (st st' : State) :
  final_state (commitEntity this env context d typename mf st) = Some st' ->
  warned_once st -> warned_once st'.
Proof.
  intros Hfin Hw.
  destruct (commitEntity_effect this env _ _ _ _ _ _ Hfin)
    as (committed & warned & Hc & Hok & _).
  revert Hok. unfold commitEntity. unfold bind at 1. unfold get at 1.
  rewrite <- Hc. intros H.
  apply bind_Ok in H. destruct H as ([] & s1 & H1 & H).
  assert (W1 : warned_once s1).
  { destruct (negb (production env)).
    - eapply warnPass_once; eassumption.
    - inversion H1; subst. exact Hw. }
  apply bind_Ok in H. destruct H as ([] & s2 & H2 & H).
  assert (W2 : warned_once s2).
  { destruct (negb (String.eqb d "ROOT_QUERY") && _); inversion H2; subst; exact W1. }
  unfold bind, modify, ret in H. inversion H; subst.
  destruct W2 as [Hnd Hin]. unfold warned_once. simpl.
  rewrite warnedKeys_app. simpl. rewrite app_nil_r. split; assumption.
Qed.

End Warnings.

(** X6.  Over any number of writes no two warnings of the data-loss guard
    are about the same [parentType.fieldName]: if that holds of the log when
    a write starts, and the [warnings] set has the key of every warning
    printed so far, both still hold when the write ends, however it ends. *)
Theorem one_warning_per_field_for_good
    (this : StoreWriter) (env : Env) (o : WriteToStoreOptions) (st st' : State) :
  final_state (writeToStore this env o st) = Some st' ->
  warned_once st -> warned_once st'.
Proof.
  apply (commit_respects_writeToStore (fun s s' => warned_once s -> warned_once s')).
  - auto.
  - auto.
  - intros n s [Hnd Hin]. unfold warned_once. simpl. rewrite warnedKeys_app. simpl.
    rewrite app_nil_r. split; assumption.
  - intros d n s H. exact H.
  - intros typename selection v.
    destruct (hasMergeFunction _ _ _); [|intros s s' H; inversion H; subst; auto].
    intros s s' H. unfold bind, modify, ret in H. inversion H; subst. auto.
  - intros context d typename mf s s' H. eapply commitEntity_once, H.
  - intros s H. exact H.
  - intros id s [Hnd Hin]. unfold warned_once. simpl. rewrite warnedKeys_app. simpl.
    rewrite app_nil_r. split; assumption.
Qed.

(** The two writes that replace an inline author by an entity, and the same
    write once more: one warning for [Todo.author] in all. *)
Lemma one_warning_per_field_for_good_witness :
  warned_once
    (Demo.state_of
       (writeToStore Demo.writer Demo.demoEnv
          Demo2.authorEntityOptions
          Demo.afterAuthorInline))
  /\ warnedKeys
       (log (Demo.state_of
               (writeToStore Demo.writer Demo.demoEnv
                  Demo2.authorEntityOptions
                  Demo.afterAuthorInline)))
     = ["Todo.author"].
Proof.
  split.
  - apply (one_warning_per_field_for_good Demo.writer Demo.demoEnv
             Demo2.authorEntityOptions
             Demo.afterAuthorInline).
    + vm_compute. reflexivity.
    + split; [vm_compute; apply NoDup_nil_2 | intros k H; vm_compute in H; destruct H].
  - vm_compute. reflexivity.
Defined.

(** X7.  In production a write prints no warning and leaves the [warnings]
    set as it was, whatever it writes and however it ends. *)
Theorem production_write_is_silent
    (this : StoreWriter) (env : Env) (o : WriteToStoreOptions) (st st' : State) :
  production env = true ->
  final_state (writeToStore this env o st) = Some st' ->
  no_warning st st'.
Proof.
  intros Hp.
  apply (commit_respects_writeToStore no_warning).
  - intros s. split; reflexivity.
  - intros s1 s2 s3 [A1 B1] [A2 B2]. split; congruence.
  - intros n s. split; [reflexivity|]. simpl. rewrite warnedKeys_app. simpl.
    apply app_nil_r.
  - intros d n s. split; reflexivity.
  - intros typename selection v.
    destruct (hasMergeFunction _ _ _);
      intros s s' H; unfold bind, modify, ret in H; inversion H; subst;
      split; reflexivity.
  - intros context d typename mf s s' H.
    destruct (commitEntity_effect this env _ _ _ _ _ _ H)
      as (committed & warned & _ & Hok & _).
    destruct (commitEntity_production this env _ _ _ _ _ _ _ Hp Hok)
      as (Hw & c & Hl).
    split; [exact Hw|]. rewrite Hl, warnedKeys_app. simpl. apply app_nil_r.
  - intros s. split; reflexivity.
  - intros id s. split; [reflexivity|]. simpl. rewrite warnedKeys_app. simpl.
    apply app_nil_r.
Qed.

Lemma production_write_is_silent_witness :
  no_warning Demo.afterAuthorInline
    (Demo.state_of
       (writeToStore Demo.writer Demo2.productionEnv Demo2.authorEntityOptions
          Demo.afterAuthorInline)).
Proof.
  apply (production_write_is_silent Demo.writer Demo2.productionEnv
           Demo2.authorEntityOptions).
  - reflexivity.
  - vm_compute. reflexivity.
Defined.

(** ** The flag for the merge functions *)

(** X8.  During a write [out.shouldApplyMerges] is never reset, so once a
    field with a custom merge function was processed, at any depth, every
    later commit of the write goes through [applyMerges]; and the flag is set
    by nothing else, so with policies that define no merge function no
    commit does. *)
Theorem merges_follow_merge_functions
    (this : StoreWriter) (env : Env) (depth : nat) (context : WriteContext)
    (dataId : option string) (result : value) (ss : SelectionSetNode)
    (st st' : State) :
  final_state (processSelectionSet this env depth context dataId result ss st) = Some st' ->
  (shouldApplyMerges st = true -> shouldApplyMerges st' = true)
  /\ ((forall typename fieldName,
         hasMergeFunction (policies this) typename fieldName = false) ->
      shouldApplyMerges st = false -> shouldApplyMerges st' = false).
Proof.
  intros H. split.
  - revert H.
    apply (commit_respects_processSelectionSet
             (fun s s' => shouldApplyMerges s = true -> shouldApplyMerges s' = true));
      auto.
    + intros typename selection v.
      destruct (hasMergeFunction _ _ _);
        intros s s' Hs; unfold bind, modify, ret in Hs; inversion Hs; subst; auto.
    + intros ctx d typename mf s s' Hs.
      destruct (commitEntity_effect this env _ _ _ _ _ _ Hs)
        as (committed & warned & _ & _ & _ & _ & Hf & _).
      congruence.
  - intros Hno. revert H.
    apply (commit_respects_processSelectionSet
             (fun s s' => shouldApplyMerges s = false -> shouldApplyMerges s' = false));
      auto.
    + intros typename selection v. rewrite Hno.
      intros s s' Hs. inversion Hs; subst. auto.
    + intros ctx d typename mf s s' Hs.
      destruct (commitEntity_effect this env _ _ _ _ _ _ Hs)
        as (committed & warned & _ & _ & _ & _ & Hf & _).
      congruence.
Qed.

(** With the flag up, the write of an object without merge functions leaves
    it up. *)
Lemma merges_follow_merge_functions_witness :
  shouldApplyMerges
    (Demo.state_of
       (processSelectionSet Demo.writer Demo.demoEnv 1 Demo.context None Demo.note
          Demo.noteSelection (set_shouldApplyMerges true Demo.emptyState))) = true.
Proof.
  refine (proj1 (merges_follow_merge_functions Demo.writer Demo.demoEnv 1 Demo.context
                   None Demo.note Demo.noteSelection
                   (set_shouldApplyMerges true Demo.emptyState) _ _) _).
  - vm_compute. reflexivity.
  - reflexivity.
Defined.

(** ** What the walk leaves out: nothing *)


(** X9.  When the walk of a selection set returns, nothing that was asked
    for and is there was left out.  The work set it ends with holds every
    selection of the selection set and, for every included fragment in it
    that matches the type name, every selection of that fragment; and for
    every included field in it that has a value in the result, the
    accumulator has the store field name of the field as a key. *)
Theorem walk_leaves_nothing_out
    (this : StoreWriter) (env : Env) (pss : value -> SelectionSetNode -> M value)
    (context : WriteContext) (result typename : value) (ss : SelectionSetNode)
    (mergedFields : StoreObject) (st st' : State)
    (walked : list SelectionNode * StoreObject) :
  walkFields this env pss context result typename ss mergedFields st = Ok walked st' ->
  (forall x, In x (selections_of ss) -> workSet_has (fst walked) x = true)
  /\ (forall selection,
        In selection (fst walked) ->
        shouldInclude env selection (variables context) = true ->
        (isField selection = true ->
         get_prop result (resultKeyNameFromField selection) <> VUndef ->
         In (getStoreFieldName (policies this) typename selection (variables context))
            (map fst (snd walked)))
        /\ (isField selection = false ->
            forall f x,
              getFragmentFromSelection selection (fragmentMap context) = Some f ->
              fragmentMatches (policies this) f typename = true ->
              In x (fragment_selections f) ->
              workSet_has (fst walked) x = true)).
Proof.
  unfold walkFields. intros H. split.
  - intros x Hx. destruct (walk_prefix this env _ _ _ _ _ _ _ _ _ _ _ H) as [extra E].
    rewrite E. apply workSet_has_app.
    apply (workSet_addAll_has (selections_of ss) [] x). right. apply in_map, Hx.
  - intros selection Hin. apply In_nth_error in Hin. destruct Hin as [j Hj].
    apply (walk_settles this env _ _ _ _ _ _ _ _ _ _ _ H j selection); [lia | exact Hj].
Qed.

(** On the fragments [A] and [B] of [Demo.fragmentContext]: the field [id]
    of [B] (node 72) is in the work set, and its key is in the accumulator. *)
Lemma walk_leaves_nothing_out_witness :
  exists walked st',
    walkFields Demo.writer Demo.demoEnv (fun v _ => ret v) Demo.fragmentContext
      Demo.todo (VStr "Todo") Demo.spreadSelection [] Demo.emptyState = Ok walked st'
    /\ In (Field 72 None "id" [] None) (fst walked)
    /\ In "id" (map fst (snd walked)).
Proof.
  eexists. eexists.
  assert (H : walkFields Demo.writer Demo.demoEnv (fun v _ => ret v) Demo.fragmentContext
                Demo.todo (VStr "Todo") Demo.spreadSelection [] Demo.emptyState
              = Ok ([FragmentSpread 81 "A" []; FragmentSpread 82 "B" [];
                     FragmentSpread 61 "TodoText" []; FragmentSpread 71 "TodoText" [];
                     Field 72 None "id" [] None; Field 51 None "text" [] None],
                    [("id", VStr "1"); ("text", VStr "a")])
                   (add_log (EvField 51) (add_log (EvField 72) Demo.emptyState)))
    by (vm_compute; reflexivity).
  split; [exact H|].
  assert (Hin : In (Field 72 None "id" [] None)
                  [FragmentSpread 81 "A" []; FragmentSpread 82 "B" [];
                   FragmentSpread 61 "TodoText" []; FragmentSpread 71 "TodoText" [];
                   Field 72 None "id" [] None; Field 51 None "text" [] None])
    by (simpl; auto 10).
  split; [exact Hin|].
  refine (proj1 (proj2 (walk_leaves_nothing_out Demo.writer Demo.demoEnv
                          (fun v _ => ret v) Demo.fragmentContext Demo.todo (VStr "Todo")
                          Demo.spreadSelection [] Demo.emptyState _ _ H)
                   (Field 72 None "id" [] None) Hin eq_refl) eq_refl _).
  simpl. discriminate.
Defined.

(** ** Where exceptions come from *)

Section Origins.

Variable P : Error -> Prop.

Lemma throws_only_ret {A : Type} (a : A) : throws_only P (ret a).
Proof. intros s e s' H. discriminate. Qed.

Lemma throws_only_modify (f : State -> State) : throws_only P (modify f).
Proof. intros s e s' H. discriminate. Qed.

Lemma throws_only_throw {A : Type} (e : Error) : P e -> throws_only P (@throw A e).
Proof. intros He s e' s' H. inversion H; subst. exact He. Qed.

Lemma throws_only_out_of_fuel {A : Type} : throws_only P (@out_of_fuel A).
Proof. intros s e s' H. discriminate. Qed.

Lemma throws_only_bind {A B : Type} (m : M A) (k : A -> M B) :
  throws_only P m -> (forall a, throws_only P (k a)) -> throws_only P (bind m k).
Proof.
  intros Hm Hk s e s' H. apply bind_Throw in H.
  destruct H as [H | (a & s1 & _ & H)]; [eapply Hm, H | eapply Hk, H].
Qed.

Lemma throws_only_bind_get {B : Type} (k : State -> M B) :
  (forall s, throws_only P (k s)) -> throws_only P (bind get k).
Proof. intros Hk s e s' H. unfold bind, get in H. eapply Hk, H. Qed.

Lemma throws_only_array_map {A B : Type} (f : A -> M B) (l : list A) :
  Forall (fun x => throws_only P (f x)) l -> throws_only P (array_map f l).
Proof.
  induction 1 as [|x r Hx Hr IH]; simpl.
  - apply throws_only_ret.
  - apply throws_only_bind; [exact Hx|]. intros y.
    apply throws_only_bind; [exact IH|]. intros r'. apply throws_only_ret.
Qed.

Variable this : StoreWriter.
Variable env : Env.

(** The two [throw]s of the write path: the missing field of line 269, and
    whatever [policies.identify] throws. *)
Hypothesis P_missing : forall result selection,
  usingPossibleTypes (policies this) = true ->
  isField selection = true ->
  hasDirectives env ["defer"; "client"] selection = false ->
  get_prop result (resultKeyNameFromField selection) = VUndef ->
  P (InvariantError (missingFieldMessage env result (resultKeyNameFromField selection))).
Hypothesis P_identify : forall result ss fm e,
  identify (policies this) result ss fm = inl e -> P e.

Lemma throws_only_commitEntity (context : WriteContext) (d : string) (typename : value)
    (mf : StoreObject) :
  throws_only P (commitEntity this env context d typename mf).
Proof.
  intros s e s' H.
  destruct (commitEntity_returns this env context d typename mf s) as [s1 E].
  congruence.
Qed.

Lemma throws_only_processFieldValue (pss : value -> SelectionSetNode -> M value)
    (field : SelectionNode) :
  (forall x ss, throws_only P (pss x ss)) ->
  forall v, throws_only P (processFieldValue env pss v field).
Proof.
  intros Hpss v. induction v as [v Hv | l IH] using value_array_ind.
  - destruct v; try discriminate Hv; simpl;
      destruct (field_selectionSet field); try apply throws_only_ret; apply Hpss.
  - simpl. destruct (field_selectionSet field); [|apply throws_only_ret].
    apply throws_only_bind; [|intros; apply throws_only_ret].
    apply throws_only_array_map. exact IH.
Qed.

Lemma throws_only_visit (pfv : value -> SelectionNode -> M value)
    (result typename : value) (context : WriteContext)
    (selection : SelectionNode) (ws : list SelectionNode) (mf : StoreObject) :
  (forall v f, throws_only P (pfv v f)) ->
  throws_only P (visit this env pfv result typename context selection ws mf).
Proof.
  intros Hpfv. unfold visit.
  destruct (negb (shouldInclude _ _ _)); [apply throws_only_ret|].
  destruct (isField selection) eqn:Hf.
  - destruct (js_get env result (resultKeyNameFromField selection)) eqn:Hv; simpl;
      try (apply throws_only_bind; [apply throws_only_modify|]; intros _;
           apply throws_only_bind; [apply Hpfv|]; intros v;
           apply throws_only_bind; [|intros; apply throws_only_ret];
           destruct (hasMergeFunction _ _ _); [|apply throws_only_ret];
           apply throws_only_bind; [apply throws_only_modify|];
           intros _; apply throws_only_ret).
    destruct (usingPossibleTypes (policies this)) eqn:Hp; simpl;
      [|apply throws_only_ret].
    destruct (hasDirectives env ["defer"; "client"] selection) eqn:Hd; simpl;
      [apply throws_only_ret|].
    apply throws_only_throw.
    apply P_missing;
      first [assumption | reflexivity | apply (js_get_undefined env), Hv].
  - destruct (getFragmentFromSelection _ _) as [f|]; [|apply throws_only_ret].
    destruct (fragmentMatches _ _ _); apply throws_only_ret.
Qed.

Lemma throws_only_walk (pfv : value -> SelectionNode -> M value)
    (result typename : value) (context : WriteContext) (fuel : nat) :
  (forall v f, throws_only P (pfv v f)) ->
  forall ws i mf, throws_only P (walk this env pfv result typename context fuel ws i mf).
Proof.
  intros Hpfv. induction fuel as [|fuel IH]; intros ws i mf; simpl;
    destruct (nth_error ws i); try apply throws_only_ret.
  - apply throws_only_out_of_fuel.
  - apply throws_only_bind; [apply throws_only_visit, Hpfv|]. intros next. apply IH.
Qed.

Lemma throws_only_writeFields (pss : value -> SelectionSetNode -> M value)
    (context : WriteContext) (dataId : value) (keyObject : option StoreObject)
    (result : value) (ss : SelectionSetNode) :
  (forall x ss', throws_only P (pss x ss')) ->
  throws_only P (writeFields this env pss context dataId keyObject result ss).
Proof.
  intros Hpss. unfold writeFields. apply throws_only_bind_get. intros st.
  apply throws_only_bind.
  - unfold walkFields.
    apply throws_only_walk. intros v f. apply throws_only_processFieldValue, Hpss.
  - intros walked. destruct (as_string dataId); [|apply throws_only_ret].
    apply throws_only_commitEntity.
Qed.

Lemma throws_only_processSelectionSet (depth : nat) :
  forall context dataId result ss,
  throws_only P (processSelectionSet this env depth context dataId result ss).
Proof.
  induction depth as [|depth IH]; intros context dataId result ss; simpl.
  - apply throws_only_out_of_fuel.
  - unfold processSelectionSet_body.
    destruct (identify _ _ _ _) as [e | [id keyObject]] eqn:Ei;
      [apply throws_only_throw; eapply P_identify, Ei|].
    assert (Hw : forall dataId', throws_only P
              (writeFields this env
                 (fun v ss' => processSelectionSet this env depth context None v ss')
                 context dataId' keyObject result ss)).
    { intros dataId'. apply throws_only_writeFields. intros x ss'. apply IH. }
    destruct (as_string _) as [d|]; [|apply Hw].
    apply throws_only_bind_get. intros st.
    destruct (existsb _ _); [apply throws_only_ret|].
    apply throws_only_bind; [apply throws_only_modify|]. intros _.
    apply throws_only_bind_get. intros st1.
    destruct (reader this) as [rd|]; [destruct (isFresh _ _ _ _ _ _)|];
      first [apply throws_only_ret | apply Hw].
Qed.

Lemma throws_only_writeToStore (o : WriteToStoreOptions) :
  throws_only P (writeToStore this env o).
Proof.
  intros s e s' H. apply writeToStore_throws in H.
  eapply throws_only_processSelectionSet, H.
Qed.

End Origins.



(** X11.  Without possible types, and with a [policies.identify] that does
    not throw, every call of [writeToStore] returns: a missing field is
    skipped, the writer raises nothing else, and the walk ends.  The other
    collaborators are taken to return. *)
Theorem lenient_write_returns
    (this : StoreWriter) (env : Env) (o : WriteToStoreOptions) (s : State) :
  usingPossibleTypes (policies this) = false ->
  (forall result ss fm e, identify (policies this) result ss fm <> inl e) ->
  exists ref s', writeToStore this env o s = Ok ref s'.
Proof.
  intros Hp Hi.
  destruct (writeToStore this env o s) as [ref s' | e s' |] eqn:E.
  - exists ref, s'. reflexivity.
  - exfalso. revert E.
    apply (throws_only_writeToStore (fun _ => False) this env).
    + intros result selection Hp'. congruence.
    + intros result ss fm e' He. exact (Hi _ _ _ _ He).
  - exfalso. exact (writeToStore_terminates this env o s E).
Qed.

(** The todo without [text] of [Demo2.failingOptions], written without
    possible types. *)
Lemma lenient_write_returns_witness :
  exists ref s',
    writeToStore Demo2.lenientWriter Demo.demoEnv Demo2.failingOptions Demo.emptyState
    = Ok ref s'.
Proof.
  apply lenient_write_returns; [reflexivity|].
  intros result ss fm e. simpl. unfold Demo.identifyById.
  destruct (get_prop result "__typename"); try discriminate;
    destruct (get_prop result "id"); discriminate.
Defined.
(** ** The job queue over the turns of the event loop *)

Lemma job_id_unique (l : list Job) (e e' : Job) :
  NoDup (map job_id l) -> In e l -> In e' l -> job_id e = job_id e' -> e = e'.
Proof.
  induction l as [|x l IH]; simpl; intros Hnd He He' Hid; [contradiction|].
  apply NoDup_cons in Hnd. destruct Hnd as [Hx Hnd].
  destruct He as [-> | He], He' as [-> | He']; auto.
  - exfalso. apply Hx. rewrite Hid. apply list_elem_of_In, in_map, He'.
  - exfalso. apply Hx. rewrite <- Hid. apply list_elem_of_In, in_map, He.
Qed.

Lemma filter_map_same {A : Type} (p : A -> bool) (f : A -> A) (l : list A) :
  (forall e, In e l -> p (f e) = p e) ->
  List.filter p (map f l) = map f (List.filter p l).
Proof.
  induction l as [|x l IH]; intros H; simpl; [reflexivity|].
  rewrite (H x) by (left; reflexivity).
  rewrite IH by (intros e He; apply H; right; exact He).
  destruct (p x); reflexivity.
Qed.

Lemma map_on_list_same {A : Type} (f : A -> A) (l : list A) :
  (forall e, In e l -> f e = e) -> map f l = l.
Proof.
  induction l as [|x l IH]; intros H; simpl; [reflexivity|].
  rewrite (H x) by (left; reflexivity).
  rewrite IH by (intros e He; apply H; right; exact He). reflexivity.
Qed.

Lemma kept_refl (q : Queue) : kept q q.
Proof. intros e He. exists e. auto. Qed.

Lemma kept_trans (p q r : Queue) : kept p q -> kept q r -> kept p r.
Proof.
  intros Hpq Hqr e He. destruct (Hpq e He) as (e1 & H1 & Ei & Ep).
  destruct (Hqr e1 H1) as (e2 & H2 & Ei2 & Ep2).
  exists e2. repeat split; [exact H2 | congruence | congruence].
Qed.

Lemma addJob_wf (name d : string) (t : Z) (q : Queue) :
  queue_wf q -> queue_wf (addJob name d t q).
Proof.
  intros [Hok Hnd]. split.
  - intros j Hj. unfold addJob in *. simpl in *. apply in_app_or in Hj.
    destruct Hj as [Hj | [<- | []]]; [apply Hok in Hj; lia | simpl; lia].
  - unfold addJob. simpl. rewrite map_app. simpl. apply NoDup_app.
    split; [exact Hnd|]. split; [|apply NoDup_singleton].
    intros x Hx Hx'. apply list_elem_of_In in Hx. apply list_elem_of_In in Hx'.
    destruct Hx' as [<- | []]. apply in_map_iff in Hx. destruct Hx as (j & Ej & Hj).
    apply Hok in Hj. lia.
Qed.

Lemma addJob_kept (name d : string) (t : Z) (q : Queue) : kept q (addJob name d t q).
Proof.
  intros e He. exists e. split; [|auto]. unfold addJob. simpl.
  apply in_or_app. left. exact He.
Qed.

(** What adding a job for [d] does to the jobs of each identifier. *)
Lemma addJob_step (d : string) (t : Z) (q : Queue) :
  queue_wf q ->
  queue_wf (addJob "removeCacheEntry" d t q)
  /\ kept q (addJob "removeCacheEntry" d t q)
  /\ (forall d', d' <> d ->
        jobsFor d' (addJob "removeCacheEntry" d t q) = jobsFor d' q)
  /\ length (jobsFor d (addJob "removeCacheEntry" d t q)) = S (length (jobsFor d q)).
Proof.
  intros Hwf. split; [apply addJob_wf, Hwf|]. split; [apply addJob_kept|]. split.
  - intros d' Hne. rewrite jobsFor_addJob.
    destruct (String.eqb d d') eqn:E;
      [apply String.eqb_eq in E; congruence | apply app_nil_r].
  - rewrite jobsFor_addJob, String.eqb_refl, length_app. simpl. lia.
Qed.

(** The update of a job the queue holds under the same id and for the same
    identifier: ids and identifiers stay as they are, job by job. *)
Lemma update_in_place (q : Queue) (existing : Job) (t : Z) :
  queue_wf q ->
  (exists e', In e' (jobs q) /\ job_id e' = job_id existing
              /\ payload_id e' = payload_id existing) ->
  let j := {| job_id := job_id existing; workerName := workerName existing;
              payload_id := payload_id existing; executionTime := t |} in
  let f := fun e => if Nat.eqb (job_id e) (job_id j) then j else e in
  (forall e, In e (jobs q) -> job_id (f e) = job_id e /\ payload_id (f e) = payload_id e)
  /\ (forall e, In e (jobs q) -> payload_id e <> payload_id existing -> f e = e).
Proof.
  intros [Hok Hnd] (e' & Hin' & Eid & Epay) j f.
  assert (Hsame : forall e, In e (jobs q) -> Nat.eqb (job_id e) (job_id j) = true ->
                            job_id e = job_id existing
                            /\ payload_id e = payload_id existing).
  { intros e He Hid. apply Nat.eqb_eq in Hid. simpl in Hid.
    assert (e = e') by (apply (job_id_unique (jobs q)); try assumption; congruence).
    subst e. auto. }
  split.
  - intros e He. unfold f. destruct (Nat.eqb (job_id e) (job_id j)) eqn:E; [|auto].
    destruct (Hsame e He E) as [-> ->]. auto.
  - intros e He Hne. unfold f. destruct (Nat.eqb (job_id e) (job_id j)) eqn:E;
      [|reflexivity].
    exfalso. apply Hne. apply (Hsame e He E).
Qed.

Lemma unsettled_insert (d : string) (evs : list (string * value)) :
  forall (phs : list Phase) (i : nat) (ev : string * value) (ph ph' : Phase),
  evs !! i = Some ev -> phs !! i = Some ph ->
  (unsettled d evs (<[i := ph']> phs) + turnLeft d ev ph
   = unsettled d evs phs + turnLeft d ev ph')%nat.
Proof.
  induction evs as [|ev0 evs IH]; intros phs i ev ph ph' Hev Hph; [discriminate|].
  destruct phs as [|ph0 phs]; [discriminate|].
  destruct i as [|i]; simpl in *.
  - inversion Hev; inversion Hph; subst. lia.
  - specialize (IH phs i ev ph ph' Hev Hph). lia.
Qed.

Lemma unsettled_initial (d : string) (evs : list (string * value)) :
  unsettled d evs (map (fun _ => Requested) evs) = length (callbacksFor d evs).
Proof.
  induction evs as [|ev evs IH]; simpl; [reflexivity|].
  unfold callbacksFor in *. simpl. unfold turnLeft. rewrite andb_true_r.
  destruct (String.eqb (fst ev) d); simpl; rewrite IH; reflexivity.
Qed.

Section QueueFacts.

Variable timeValue : value -> option Z.

(** What one callback does to a queue with unique job ids, whatever list
    its request returned among those the queue went through. *)
Lemma callback_step (found : list Job) (succeeds : bool) (ev : string * value)
    (q : Queue) :
  queue_wf q ->
  kept {| jobs := found; nextJobId := O |} q ->
  let ran := callback timeValue found succeeds ev q in
  queue_wf (fst ran)
  /\ kept q (fst ran)
  /\ (forall d', d' <> fst ev -> jobsFor d' (fst ran) = jobsFor d' q)
  /\ (length (jobsFor (fst ev) q) <= length (jobsFor (fst ev) (fst ran)))%nat
  /\ (length (jobsFor (fst ev) (fst ran)) + (if snd ran then 1 else 0)
      <= S (length (jobsFor (fst ev) q)))%nat.
Proof.
  intros Hwf Hfound.
  assert (Hsame : queue_wf q /\ kept q q
                  /\ (forall d', d' <> fst ev -> jobsFor d' q = jobsFor d' q)
                  /\ (length (jobsFor (fst ev) q) <= length (jobsFor (fst ev) q))%nat
                  /\ (length (jobsFor (fst ev) q) + 1
                      <= S (length (jobsFor (fst ev) q)))%nat).
  { split; [exact Hwf|]. split; [apply kept_refl|]. split; [reflexivity | lia]. }
  assert (Hadd : forall t,
            queue_wf (addJob "removeCacheEntry" (fst ev) t q)
            /\ kept q (addJob "removeCacheEntry" (fst ev) t q)
            /\ (forall d', d' <> fst ev ->
                  jobsFor d' (addJob "removeCacheEntry" (fst ev) t q) = jobsFor d' q)
            /\ (length (jobsFor (fst ev) q)
                <= length (jobsFor (fst ev) (addJob "removeCacheEntry" (fst ev) t q)))%nat
            /\ (length (jobsFor (fst ev) (addJob "removeCacheEntry" (fst ev) t q)) + 0
                <= S (length (jobsFor (fst ev) q)))%nat).
  { intros t. destruct (addJob_step (fst ev) t q Hwf) as (H1 & H2 & H3 & H4).
    repeat split; try assumption; try apply H1; lia. }
  unfold callback.
  destruct (find _ found) as [existing|] eqn:Hfind;
    destruct (timeValue (snd ev)) as [t|]; cbn [fst snd];
    try (destruct Hsame as (H1 & H2 & H3 & H4 & H5);
         repeat split; try assumption; try apply H1; lia);
    try apply Hadd.
  destruct succeeds; simpl;
    [|destruct Hsame as (H1 & H2 & H3 & H4 & H5);
      repeat split; try assumption; try apply H1; lia].
  apply find_some in Hfind. destruct Hfind as [Hin Hp]. apply String.eqb_eq in Hp.
  destruct (update_in_place q existing t Hwf (Hfound existing Hin)) as [Hkeep Hfix].
  simpl in Hkeep, Hfix.
  set (f := fun e : Job =>
              if Nat.eqb (job_id e) (job_id existing)
              then {| job_id := job_id existing; workerName := workerName existing;
                      payload_id := payload_id existing; executionTime := t |}
              else e) in *.
  assert (Hkeep' : forall e, In e (jobs q) ->
            job_id (f e) = job_id e /\ payload_id (f e) = payload_id e)
    by exact Hkeep.
  assert (Hfix' : forall e, In e (jobs q) -> payload_id e <> payload_id existing ->
            f e = e)
    by exact Hfix.
  clear Hkeep Hfix.
  assert (Hfilter : forall d',
            jobsFor d' {| jobs := map f (jobs q); nextJobId := nextJobId q |}
            = map f (jobsFor d' q)).
  { intros d'. unfold jobsFor. cbn [jobs]. apply filter_map_same.
    intros e He. cbv beta. rewrite (proj2 (Hkeep' e He)). reflexivity. }
  split; [|split; [|split; [|split]]].
  - destruct Hwf as [Hok Hnd]. split.
    + intros j Hj. simpl in Hj. apply in_map_iff in Hj. destruct Hj as (e & <- & He).
      simpl. rewrite (proj1 (Hkeep' e He)). apply Hok, He.
    + simpl. rewrite map_map.
      assert (E : map (fun x => job_id (f x)) (jobs q) = map job_id (jobs q)).
      { apply map_ext_in. intros e He. apply (Hkeep' e He). }
      rewrite E. exact Hnd.
  - intros e He. exists (f e). split; [simpl; apply in_map, He | apply (Hkeep' e He)].
  - intros d' Hne. simpl in Hfilter. rewrite Hfilter. apply map_on_list_same.
    intros e He. unfold jobsFor in He. apply filter_In in He. destruct He as [He Hpe].
    apply String.eqb_eq in Hpe. apply (Hfix' e He). congruence.
  - rewrite Hfilter, length_map. lia.
  - rewrite Hfilter, length_map. lia.
Qed.

(** Every turn keeps what holds of the loop. *)
Lemma turn_ok (evs : list (string * value)) (q0 : Queue) (a : Step) (l : Loop) :
  loop_ok evs q0 l -> loop_ok evs q0 (turn timeValue evs a l).
Proof.
  intros Hl. pose proof Hl as (Hwf & Hlen & Hans & Hother & Hcount).
  assert (Hev : forall i ph, phases l !! i = Some ph -> exists ev, evs !! i = Some ev).
  { intros i ph Hi. apply lookup_lt_Some in Hi. rewrite Hlen in Hi.
    apply lookup_lt_is_Some_2 in Hi. destruct Hi as [ev Hi]. eauto. }
  assert (Hin : forall i ev, evs !! i = Some ev -> In (fst ev) (map fst evs)).
  { intros i ev Hi. apply in_map, list_elem_of_In. eapply list_elem_of_lookup_2, Hi. }
  destruct a as [i | i accepted | i now]; simpl.
  - destruct (phases l !! i) as [[| found | |]|] eqn:Hi; try exact Hl.
    destruct (Hev i _ Hi) as [ev Hevi].
    split; [exact Hwf|]. split; [simpl; rewrite length_insert; exact Hlen|].
    split; [|split; [exact Hother|]].
    + simpl. intros j found Hj. apply list_lookup_insert_Some in Hj.
      destruct Hj as [(_ & E & _) | (_ & Hj)].
      * inversion E. intros e He. exists e. auto.
      * exact (Hans j found Hj).
    + intros d. simpl.
      pose proof (unsettled_insert d evs (phases l) i ev Requested
                    (Answered (jobs (pending_queue l))) Hevi Hi) as Hu.
      unfold turnLeft in Hu. destruct (Hcount d) as [H1 H2].
      destruct (String.eqb (fst ev) d); simpl in Hu; lia.
  - destruct (phases l !! i) as [[| found | |]|] eqn:Hi; try exact Hl.
    destruct (evs !! i) as [ev|] eqn:Hevi; [|exact Hl].
    destruct (callback_step found accepted ev (pending_queue l) Hwf (Hans i found Hi))
      as (Hwf' & Hkept & Hsame & Hlow & Hhigh).
    set (ran := callback timeValue found accepted ev (pending_queue l)) in *.
    split; [exact Hwf'|]. split; [simpl; rewrite length_insert; exact Hlen|].
    split; [|split].
    + simpl. intros j found' Hj. apply list_lookup_insert_Some in Hj.
      destruct Hj as [(_ & E & _) | (_ & Hj)].
      * destruct (snd ran); discriminate E.
      * eapply kept_trans; [exact (Hans j found' Hj) | exact Hkept].
    + simpl. intros d' Hd'. rewrite Hsame; [apply Hother, Hd'|].
      intros ->. apply Hd'. exact (Hin i ev Hevi).
    + intros d. simpl.
      pose proof (unsettled_insert d evs (phases l) i ev (Answered found)
                    (if snd ran then Refused else Settled) Hevi Hi) as Hu.
      unfold turnLeft in Hu. destruct (Hcount d) as [H1 H2].
      destruct (String.eqb (fst ev) d) eqn:E.
      * apply String.eqb_eq in E. subst d.
        destruct (snd ran); simpl in Hu; lia.
      * apply String.eqb_neq in E. rewrite (Hsame d) by congruence.
        simpl in Hu. lia.
  - destruct (phases l !! i) as [[| found | |]|] eqn:Hi; try exact Hl.
    destruct (evs !! i) as [ev|] eqn:Hevi; [|exact Hl].
    unfold fallback.
    destruct (addJob_step (fst ev) (now + 30000) (pending_queue l) Hwf)
      as (Hwf' & Hkept & Hsame & Hone).
    split; [exact Hwf'|]. split; [simpl; rewrite length_insert; exact Hlen|].
    split; [|split].
    + simpl. intros j found' Hj. apply list_lookup_insert_Some in Hj.
      destruct Hj as [(_ & E & _) | (_ & Hj)]; [discriminate E|].
      eapply kept_trans; [exact (Hans j found' Hj) | exact Hkept].
    + simpl. intros d' Hd'. rewrite Hsame; [apply Hother, Hd'|].
      intros ->. apply Hd'. exact (Hin i ev Hevi).
    + intros d. simpl.
      pose proof (unsettled_insert d evs (phases l) i ev Refused Settled Hevi Hi) as Hu.
      unfold turnLeft in Hu. destruct (Hcount d) as [H1 H2].
      destruct (String.eqb (fst ev) d) eqn:E.
      * apply String.eqb_eq in E. subst d. simpl in Hu. lia.
      * apply String.eqb_neq in E. rewrite (Hsame d) by congruence.
        simpl in Hu. lia.
Qed.

Lemma runLoop_ok (evs : list (string * value)) (q0 : Queue) (schedule : list Step) :
  forall l, loop_ok evs q0 l -> loop_ok evs q0 (runLoop timeValue schedule evs l).
Proof.
  unfold runLoop. induction schedule as [|a schedule IH]; intros l Hl; simpl;
    [exact Hl|].
  apply IH, turn_ok, Hl.
Qed.

(** The loop as the write leaves it. *)
Lemma loop_ok_initial (evs : list (string * value)) (q : Queue) :
  queue_wf q ->
  loop_ok evs q {| pending_queue := q; phases := map (fun _ => Requested) evs |}.
Proof.
  intros Hwf. split; [exact Hwf|]. split; [simpl; apply length_map|].
  split; [|split; [reflexivity|]].
  - simpl. intros i found Hi. exfalso.
    apply list_elem_of_lookup_2, list_elem_of_In, in_map_iff in Hi.
    destruct Hi as (ev & E & _). discriminate E.
  - intros d. simpl. rewrite unsettled_initial. lia.
Qed.

End QueueFacts.

(** X12.  The callbacks of a write touch the jobs of their own identifiers
    only.  On a queue whose job ids are unique, at every moment of the event
    loop, whatever the order of the turns, the moment each request is
    answered and the answers of the queue to the updates, the jobs of an
    identifier that none of the callbacks is for are the same as before the
    callbacks, and the job ids are still unique. *)
Theorem callbacks_keep_other_jobs
    (timeValue : value -> option Z) (evs : list (string * value))
    (schedule : list Step) (q : Queue) (d' : string) :
  queue_wf q ->
  ~ In d' (map fst evs) ->
  jobsFor d' (runEvictions timeValue schedule evs q) = jobsFor d' q
  /\ queue_wf (runEvictions timeValue schedule evs q).
Proof.
  intros Hwf Hd. unfold runEvictions.
  destruct (runLoop_ok timeValue evs q schedule _ (loop_ok_initial evs q Hwf))
    as (Hw & _ & _ & Ho & _).
  split; [apply Ho, Hd | exact Hw].
Qed.

(** Two callbacks for [Todo:1], the second update refused and its fallback
    run, on a queue that holds a job for [Todo:2]: that job is as it was. *)
Lemma callbacks_keep_other_jobs_witness :
  jobsFor "Todo:2"
    (runEvictions Demo.numericTime
       [Answer 0; Run 0 true; Answer 1; Run 1 false; Retry 1 200]
       [("Todo:1", VNum 1000); ("Todo:1", VNum 2000)] Demo2.queueWithJob)
  = [{| job_id := 0; workerName := "removeCacheEntry"; payload_id := "Todo:2";
        executionTime := 5 |}]
  /\ queue_wf
       (runEvictions Demo.numericTime
          [Answer 0; Run 0 true; Answer 1; Run 1 false; Retry 1 200]
          [("Todo:1", VNum 1000); ("Todo:1", VNum 2000)] Demo2.queueWithJob).
Proof.
  refine (callbacks_keep_other_jobs Demo.numericTime
            [("Todo:1", VNum 1000); ("Todo:1", VNum 2000)]
            [Answer 0; Run 0 true; Answer 1; Run 1 false; Retry 1 200]
            Demo2.queueWithJob "Todo:2" _ _).
  - split.
    + intros j Hj. simpl in Hj. destruct Hj as [<- | []]. simpl. lia.
    + simpl. apply NoDup_singleton.
  - simpl. intros [H | [H | []]]; discriminate H.
Defined.

(** X13.  No callback removes a job, and each adds at most one, for its own
    identifier.  On a queue whose job ids are unique, at every moment of the
    event loop, whatever the order of the turns, the moment each request is
    answered and the answers of the queue, an identifier has at least as
    many jobs as it had, and at most one more for each callback that was for
    it. *)
Theorem callbacks_add_at_most_one_job_each
    (timeValue : value -> option Z) (evs : list (string * value))
    (schedule : list Step) (q : Queue) (d : string) :
  queue_wf q ->
  (length (jobsFor d q)
   <= length (jobsFor d (runEvictions timeValue schedule evs q))
   <= length (jobsFor d q) + length (callbacksFor d evs))%nat.
Proof.
  intros Hwf. unfold runEvictions.
  destruct (runLoop_ok timeValue evs q schedule _ (loop_ok_initial evs q Hwf))
    as (_ & _ & _ & _ & Hc).
  destruct (Hc d) as [H1 H2]. lia.
Qed.

(** Three callbacks, two of them for [Todo:1], all requests answered before
    any callback runs, on the queue that holds a job for [Todo:2]. *)
Lemma callbacks_add_at_most_one_job_each_witness :
  (length (jobsFor "Todo:1" Demo2.queueWithJob)
   <= length (jobsFor "Todo:1"
                (runEvictions Demo.numericTime
                   [Answer 0; Answer 1; Answer 2; Run 2 true; Run 0 true; Run 1 true]
                   [("Todo:1", VNum 1000); ("Todo:2", VNum 1500); ("Todo:1", VNum 2000)]
                   Demo2.queueWithJob))
   <= length (jobsFor "Todo:1" Demo2.queueWithJob)
      + length (callbacksFor "Todo:1"
                  [("Todo:1", VNum 1000); ("Todo:2", VNum 1500); ("Todo:1", VNum 2000)]))%nat.
Proof.
  apply (callbacks_add_at_most_one_job_each Demo.numericTime
           [("Todo:1", VNum 1000); ("Todo:2", VNum 1500); ("Todo:1", VNum 2000)]
           [Answer 0; Answer 1; Answer 2; Run 2 true; Run 0 true; Run 1 true]
           Demo2.queueWithJob "Todo:1").
  split.
  - intros j Hj. simpl in Hj. destruct Hj as [<- | []]. simpl. lia.
  - simpl. apply NoDup_singleton.
Defined.

(** ** From the result to the store *)

(** X14.  What is asked for and is there reaches the store.  When a call of
    [processSelectionSet] for an object with an identifier commits (the
    selection set is new to the identifier, the reader does not report the
    result fresh) and returns, the store holds a record under the identifier,
    and every included field of the selection set that has a value in the
    result has its store field name among the keys of that record.
    [applyMerges] is assumed to keep the keys of the record it is given, and
    the selections of the selection set to be distinct nodes. *)
Theorem requested_fields_reach_the_store
    (this : StoreWriter) (env : Env) (depth : nat) (context : WriteContext)
    (dataId : option string) (d : string) (result : value) (ss : SelectionSetNode)
    (st st' : State) (id : option string) (keyObject : option StoreObject) (r : value) :
  identify (policies this) result ss (fragmentMap context) = inr (id, keyObject) ->
  js_or (ostr dataId) (ostr id) = VStr d ->
  (forall d' mf c vars k,
     In k (map fst mf) -> In k (map fst (applyMerges (policies this) d' mf c vars))) ->
  NoDup (map nid_of (selections_of ss)) ->
  ~ applied st d ss ->
  (forall rd, reader this = Some rd ->
     isFresh rd result d ss (store st) (variables context) = false) ->
  processSelectionSet this env (S depth) context dataId result ss st = Ok r st' ->
  exists record,
    data (store st') !! d = Some record
    /\ forall selection,
         In selection (selections_of ss) ->
         shouldInclude env selection (variables context) = true ->
         isField selection = true ->
         get_prop result (resultKeyNameFromField selection) <> VUndef ->
         In (getStoreFieldName (policies this)
               (resolveTypename this env context (VStr d) result ss (store st))
               selection (variables context))
            (map fst record).
Proof.
  intros Hid Hjs Hkeep Hnd Hnew Hfresh H.
  rewrite (processSelectionSet_new this env _ _ _ _ _ _ _ _ _ Hid Hjs Hnew) in H.
  unfold applyOnce in H. unfold bind at 1 in H. unfold modify at 1 in H.
  unfold bind at 1 in H. unfold get at 1 in H.
  assert (Hnot : match reader this with
                 | Some rd => isFresh rd result d ss
                                (store (set_written
                                          (fun w => <[d := default [] (w !! d) ++ [ssid_of ss]]> w) st))
                                (variables context)
                 | None => false
                 end = false).
  { destruct (reader this) as [rd|] eqn:Er; [|reflexivity]. apply (Hfresh rd eq_refl). }
  rewrite Hnot in H. clear Hnot.
  unfold writeFields in H. unfold bind at 1 in H. unfold get at 1 in H.
  apply bind_Ok in H. destruct H as (walked & s1 & Hw & H). simpl in H.
  change (store (set_written
                   (fun w => <[d := default [] (w !! d) ++ [ssid_of ss]]> w) st))
    with (store st) in Hw.
  apply commitEntity_record in H.
  destruct H as (committed & Hc & _ & Hs & _).
  exists (merge_fields (default [] (data (store s1) !! d)) committed).
  split; [rewrite Hs; simpl; apply lookup_insert_eq|].
  intros selection Hin Hinc Hf Hpresent.
  apply merge_fields_keys. right.
  assert (Hkey : In (getStoreFieldName (policies this)
                       (resolveTypename this env context (VStr d) result ss (store st))
                       selection (variables context))
                    (map fst (snd walked))).
  { unfold walkFields in Hw.
    rewrite (workSet_addAll_distinct (selections_of ss) []) in Hw by exact Hnd.
    simpl in Hw.
    destruct (walk_prefix this env _ _ _ _ _ _ _ _ _ _ _ Hw) as [extra E].
    assert (Hin' : In selection (fst walked))
      by (rewrite E; apply in_or_app; left; exact Hin).
    apply In_nth_error in Hin'. destruct Hin' as [j Hj].
    apply (walk_settles this env _ _ _ _ _ _ _ _ _ _ _ Hw j selection);
      [lia | exact Hj | exact Hinc | exact Hf | exact Hpresent]. }
  subst committed. destruct (shouldApplyMerges s1); [apply Hkeep|]; exact Hkey.
Qed.

(** The todo of the demo, written under the identifier [identify] computes:
    its [text] is a key of the record [Todo:1]. *)
Lemma requested_fields_reach_the_store_witness :
  exists record,
    data (store (Demo.state_of
                   (processSelectionSet Demo.writer Demo.demoEnv 1 Demo.context None
                      Demo.todo Demo.todoSelection Demo.emptyState)))
    !! "Todo:1" = Some record
    /\ In "text" (map fst record).
Proof.
  destruct (requested_fields_reach_the_store Demo.writer Demo.demoEnv 0 Demo.context
              None "Todo:1" Demo.todo Demo.todoSelection Demo.emptyState
              (Demo.state_of
                 (processSelectionSet Demo.writer Demo.demoEnv 1 Demo.context None
                    Demo.todo Demo.todoSelection Demo.emptyState))
              (Some "Todo:1") (Some [("id", VStr "1")]) (VRef "Todo:1"))
    as (record & Hrec & Hkeys).
  - reflexivity.
  - reflexivity.
  - intros d' mf c vars k Hk. simpl. rewrite map_map.
    rewrite in_map_iff in Hk |- *. destruct Hk as ([k0 v0] & E & Hin).
    exists (k0, v0). split; [|exact Hin].
    simpl in E. subst k0. unfold Demo.resolveMarker. simpl. destruct v0; reflexivity.
  - simpl. apply (bool_decide_unpack _). vm_compute. exact I.
  - intros H. vm_compute in H. exact H.
  - intros rd H. discriminate.
  - vm_compute. reflexivity.
  - exists record. split; [exact Hrec|].
    apply (Hkeys (Field 11 None "text" [] None)).
    + simpl. auto.
    + reflexivity.
    + reflexivity.
    + simpl. discriminate.
Defined.

(** ** A result the reader reports fresh *)

(** X15.  When the root object has an identifier and the reader reports the
    result fresh for it, [writeToStore] writes nothing: it returns the
    Reference to the identifier, the records of the store are the ones it
    held, the identifier is retained as a root, no warning is recorded, no
    eviction callback is left, and the retention is the only event. *)
Theorem fresh_result_is_only_retained
    (this : StoreWriter) (env : Env) (o : WriteToStoreOptions) (s : State)
    (rd : StoreReader) (id : option string) (keyObject : option StoreObject) (d : string) :
  identify (policies this) (rootResult o) (op_selectionSet (operationDefinition (query o)))
    (fragmentMap (contextOf o)) = inr (id, keyObject) ->
  js_or (ostr (wr_dataId o)) (ostr id) = VStr d ->
  reader this = Some rd ->
  isFresh rd (rootResult o) d (op_selectionSet (operationDefinition (query o)))
    (store s) (variables (contextOf o)) = true ->
  exists s',
    writeToStore this env o s = Ok (VRef d) s'
    /\ data (store s') = data (store s)
    /\ rootIds (store s') = {[d]} ∪ rootIds (store s)
    /\ warnings s' = warnings s
    /\ evictions s' = evictions s
    /\ log s' = log s ++ [EvRetain d].
Proof.
  intros Hid Hjs Hrd Hfresh.
  assert (Hnew : ~ applied (freshWrite s) d (op_selectionSet (operationDefinition (query o)))).
  { unfold applied, freshWrite. simpl. rewrite lookup_empty. simpl. tauto. }
  unfold writeToStore. unfold bind at 1. unfold modify at 1.
  unfold processRoot.
  unfold bind at 1.
  rewrite (processSelectionSet_new this env _ _ _ _ _ _ _ _ _ Hid Hjs Hnew).
  unfold applyOnce. unfold bind at 1. unfold modify at 1.
  unfold bind at 1. unfold get at 1. rewrite Hrd.
  change (store (set_written _ (freshWrite s))) with (store s).
  rewrite Hfresh. simpl.
  eexists. split; [reflexivity|]. simpl. repeat split; reflexivity.
Qed.

(** The todo query written by [Demo2.freshWriter] into the empty store. *)
Lemma fresh_result_is_only_retained_witness :
  exists s',
    writeToStore Demo2.freshWriter Demo.demoEnv
      {| query := Demo.todoQuery; wr_result := VObj [("todo", Demo.todo)];
         wr_dataId := Some "ROOT_QUERY"; wr_variables := [] |} Demo.emptyState
    = Ok (VRef "ROOT_QUERY") s'
    /\ data (store s') = data (store Demo.emptyState)
    /\ rootIds (store s') = {["ROOT_QUERY"]} ∪ rootIds (store Demo.emptyState)
    /\ warnings s' = warnings Demo.emptyState
    /\ evictions s' = evictions Demo.emptyState
    /\ log s' = log Demo.emptyState ++ [EvRetain "ROOT_QUERY"].
Proof.
  apply (fresh_result_is_only_retained Demo2.freshWriter Demo.demoEnv
           {| query := Demo.todoQuery; wr_result := VObj [("todo", Demo.todo)];
              wr_dataId := Some "ROOT_QUERY"; wr_variables := [] |} Demo.emptyState
           {| isFresh := fun _ _ _ _ _ => true |} None None "ROOT_QUERY");
    reflexivity.
Defined.
